(** * Polygon DAI monitor: the balance-synchronisation pipeline

    A shallow embedding of the pipeline of the dashboard:
    - [updateWalletHistory] (services/storageService.ts), the history fold;
    - [getWallets], [saveWallets], [getLastUpdateTime], [setLastUpdateTime]
      (services/storageService.ts, the revision that writes the local cache
      first and refreshes it at the end of a load);
    - [fetchBalancesBatch], [fetchBlockNumber] (services/web3Service.ts);
    - [handleSyncBalances], [handleUploadAddresses] and the start-up effect
      [initData] (App.tsx, the revision that loads through [getWallets]);
    - [handleDeleteWallet], [handlePurge] and [handleRpcUpdate] (App.tsx);
    - [formatAddress], [getRpcUrl], [saveRpcUrl] (services/storageService.ts)
      and [reinitializeClient] (services/web3Service.ts);
    - [handleUpload] and [handleRpcSave] of the admin panel.

    Modelling conventions.
    - A JavaScript [number] holding a balance is an exact rational ([Q]);
      rounding to a double is not modelled.
    - Strings are [string], the UTF-8 text; [toLowerCase] acts on ASCII
      letters, [trim] on ASCII white space.
    - What viem accepts as an address ([isAddress], which decides whether
      [encodeFunctionData] throws) is an oracle of the [Env] as well.
    - The browser's localStorage, the remote row store and the React state of
      the page are an explicit [World], which also records a trace of
      everything the code does; what the remote store, the RPC endpoint and
      the clock answer is given by the oracles of an [Env], so that every
      statement quantifies over all answers.
    - The text in localStorage is held parsed: [JSON.parse] of what
      [JSON.stringify] wrote. *)

From Stdlib Require Import Ascii String Strings.Byte DecimalString QArith Qabs.
From stdpp Require Import base decidable option list strings gmap.

Open Scope Z_scope.
Open Scope string_scope.
Open Scope list_scope.

(** ** Data model (types.ts) *)

(** A JavaScript number holding a balance: an exact rational, kept in lowest
    terms so that equal amounts are equal terms. *)
Definition number := Q.

#[global] Instance number_eq_dec : EqDecision number.
Proof. unfold number. solve_decision. Defined.

Record HistoricalRecord := mkHistoricalRecord {
  date : string;
  balance : number
}.

Record WalletData_ (H : Type) := mkWalletData {
  address : string;
  owner : string;
  initialBalance : number;
  initialBlock : Z;
  currentBalance : number;
  lastUpdated : string;
  history : H
}.
Arguments mkWalletData {H}.
Arguments address {H}.
Arguments owner {H}.
Arguments initialBalance {H}.
Arguments initialBlock {H}.
Arguments currentBalance {H}.
Arguments lastUpdated {H}.
Arguments history {H}.

(** A wallet as a value: the [history] array is held in the record. *)
Abbreviation WalletData := (WalletData_ (list HistoricalRecord)).

(** ** String helpers of the JavaScript runtime *)

(** [s.split(sep)[0]]: the characters before the first [sep]. *)
Fixpoint split_head (sep : ascii) (s : string) : string :=
  match s with
  | EmptyString => EmptyString
  | String c r => if Ascii.eqb c sep then EmptyString else String c (split_head sep r)
  end.

(** [s.startsWith(p)]. *)
Definition startsWith (s p : string) : bool := String.prefix p s.

Definition lowerAscii (c : ascii) : ascii :=
  let n := nat_of_ascii c in
  if ((65 <=? n) && (n <=? 90))%nat then ascii_of_nat (n + 32) else c.

(** [s.toLowerCase()] on ASCII text. *)
Fixpoint toLowerCase (s : string) : string :=
  match s with
  | EmptyString => EmptyString
  | String c r => String (lowerAscii c) (toLowerCase r)
  end.

(** ** HistoryLedger: [updateWalletHistory] *)

Module HistoryLedger.

(** The date-prefix test of the source:
    [lastEntry.date.startsWith(currentDate.split('T')[0])]. *)
Definition sameDay (lastEntry : HistoricalRecord) (currentDate : string) : bool :=
  startsWith (date lastEntry) (split_head "T" currentDate).

Definition updateWalletHistory
    (wallet : WalletData) (newBalance : number) (currentDate : string) : WalletData :=
  (* const newHistory = [...wallet.history] *)
  let newHistory := history wallet in
  let todayStr := split_head "T" currentDate in
  let lastEntry :=
    if bool_decide (0 < length newHistory)%nat
    then newHistory !! (length newHistory - 1)%nat else None in
  let newHistory :=
    match lastEntry with
    | Some e =>
        if startsWith (date e) todayStr
        then <[(length newHistory - 1)%nat := mkHistoricalRecord currentDate newBalance]> newHistory
        else newHistory ++ [mkHistoricalRecord currentDate newBalance]
    | None => newHistory ++ [mkHistoricalRecord currentDate newBalance]
    end in
  (* if (newHistory.length > 7) newHistory.shift() *)
  let newHistory :=
    if bool_decide (7 < length newHistory)%nat then tail newHistory else newHistory in
  {| address := address wallet;
     owner := owner wallet;
     initialBalance := initialBalance wallet;
     initialBlock := initialBlock wallet;
     currentBalance := newBalance;
     lastUpdated := currentDate;
     history := newHistory |}.

(** What the two branches of the fold amount to, before the eviction test:
    the last entry replaced, or the observation appended. *)
Definition folded (b : number) (t : string) (h : list HistoricalRecord)
    : list HistoricalRecord :=
  match last h with
  | Some e =>
      if sameDay e t then take (length h - 1) h ++ [mkHistoricalRecord t b]
      else h ++ [mkHistoricalRecord t b]
  | None => h ++ [mkHistoricalRecord t b]
  end.

(** The calendar date of a timestamp, as the chart code of App.tsx keys it:
    [h.date.split('T')[0]]. *)
Definition calendarDate (s : string) : string := split_head "T" s.

Definition isDigit (c : ascii) : bool :=
  let n := nat_of_ascii c in ((48 <=? n) && (n <=? 57))%nat.

(** [shapeOf pat s]: [s] has the shape [pat], where a [d] of the pattern
    stands for a decimal digit and every other character for itself. *)
Fixpoint shapeOf (pat s : string) : bool :=
  match pat, s with
  | EmptyString, EmptyString => true
  | String p pat', String c s' =>
      (if Ascii.eqb p "d" then isDigit c else Ascii.eqb p c) && shapeOf pat' s'
  | _, _ => false
  end.

(** What [Date.prototype.toISOString] prints for the years 0000 to 9999. *)
Definition isoTimestamp (s : string) : bool := shapeOf "dddd-dd-ddTdd:dd:dd.dddZ" s.

(** The record invariant of the data model that the fold maintains: at most
    seven entries. *)
Definition boundedHistory (w : WalletData) : Prop := (length (history w) <= 7)%nat.

End HistoryLedger.

(** ** The fold on the JavaScript heap

    [updateWalletHistory] copies the history array ([...wallet.history]),
    mutates the copy ([a[i] = x], [push], [shift]) and builds a fresh object
    ([{...wallet, ...}]).  To speak about what it does to its argument, the
    same statements are run here on a heap of arrays and wallet objects, a
    wallet object holding the location of its history array. *)

Module Mem.

Abbreviation loc := nat (only parsing).

Inductive cell :=
| Arr (xs : list HistoricalRecord)
| Obj (w : WalletData_ loc).

Abbreviation heap := (list cell) (only parsing).

Definition alloc (h : heap) (c : cell) : heap * loc := (h ++ [c], length h).

Definition readArr (h : heap) (l : loc) : option (list HistoricalRecord) :=
  match h !! l with Some (Arr xs) => Some xs | _ => None end.

Definition readObj (h : heap) (l : loc) : option (WalletData_ loc) :=
  match h !! l with Some (Obj w) => Some w | _ => None end.

(** [a[i] = x] on the array at [l] ([i] is within bounds where it is used). *)
Definition arr_set (h : heap) (l : loc) (i : nat) (x : HistoricalRecord) : heap :=
  match readArr h l with Some xs => <[l := Arr (<[i := x]> xs)]> h | None => h end.

(** [a.push(x)]. *)
Definition arr_push (h : heap) (l : loc) (x : HistoricalRecord) : heap :=
  match readArr h l with Some xs => <[l := Arr (xs ++ [x])]> h | None => h end.

(** [a.shift()]. *)
Definition arr_shift (h : heap) (l : loc) : heap :=
  match readArr h l with Some xs => <[l := Arr (tail xs)]> h | None => h end.

Definition arr_length (h : heap) (l : loc) : nat :=
  match readArr h l with Some xs => length xs | None => 0 end.

Definition arr_get (h : heap) (l : loc) (i : nat) : option HistoricalRecord :=
  match readArr h l with Some xs => xs !! i | None => None end.

(** The wallet value that the object at [l] denotes. *)
Definition load (h : heap) (l : loc) : option WalletData :=
  match readObj h l with
  | Some w =>
      match readArr h (history w) with
      | Some xs =>
          Some {| address := address w; owner := owner w;
                  initialBalance := initialBalance w; initialBlock := initialBlock w;
                  currentBalance := currentBalance w; lastUpdated := lastUpdated w;
                  history := xs |}
      | None => None
      end
  | None => None
  end.

(** [updateWalletHistory] statement by statement; [None] when [wallet] is not
    a wallet object of the heap. *)
Definition updateWalletHistory
    (h : heap) (wallet : loc) (newBalance : number) (currentDate : string)
    : option (heap * loc) :=
  match readObj h wallet with
  | None => None
  | Some w =>
      match readArr h (history w) with
      | None => None
      | Some src =>
          (* const newHistory = [...wallet.history] *)
          let '(h, newHistory) := alloc h (Arr src) in
          let todayStr := split_head "T" currentDate in
          let lastEntry :=
            if bool_decide (0 < arr_length h newHistory)%nat
            then arr_get h newHistory (arr_length h newHistory - 1) else None in
          let h :=
            match lastEntry with
            | Some e =>
                if startsWith (date e) todayStr
                then arr_set h newHistory (arr_length h newHistory - 1)
                       (mkHistoricalRecord currentDate newBalance)
                else arr_push h newHistory (mkHistoricalRecord currentDate newBalance)
            | None => arr_push h newHistory (mkHistoricalRecord currentDate newBalance)
            end in
          let h :=
            if bool_decide (7 < arr_length h newHistory)%nat
            then arr_shift h newHistory else h in
          (* return {...wallet, currentBalance, lastUpdated, history: newHistory} *)
          Some (alloc h (Obj {| address := address w; owner := owner w;
                                initialBalance := initialBalance w;
                                initialBlock := initialBlock w;
                                currentBalance := newBalance;
                                lastUpdated := currentDate;
                                history := newHistory |}))
      end
  end.

End Mem.

(** ** The world the pipeline runs in *)

(** *** Aggregator requests (constants.ts, MULTICALL_ABI and ERC20_ABI) *)

Definition DAI_ADDRESS : string := "0x8f3Cf7ad23Cd3CaDbD9735AFf958023239c6A063".
Definition MULTICALL_ADDRESS : string := "0xcA11bde05977b3631167028862bE2a173976CA11".

(** [encodeFunctionData({abi: ERC20_ABI, functionName: 'balanceOf', args: [addr]})],
    kept symbolic. *)
Inductive CallData :=
| BalanceOf (account : string).

Record Call3 := mkCall3 {
  target : string;
  allowFailure : bool;
  callData : CallData
}.

Record Result3 := mkResult3 {
  success : bool;
  returnData : list Byte.byte
}.

(** *** Persistent stores *)

Record Store := mkStore {
  localWallets : option (list WalletData);  (* localStorage[STORAGE_KEY], parsed *)
  localLast : option string;                (* localStorage[LAST_UPDATE_KEY] *)
  remoteWallets : option (list WalletData); (* row 'wallets' of app_data *)
  remoteLast : option string                (* row 'last_update' of app_data *)
}.

(** Everything observable that the code does, in order. *)
Inductive Event :=
| LocalSetWallets (ws : list WalletData)
| LocalSetLast (s : string)
| RemoteSelectWallets
| RemoteUpsertWallets (ws : list WalletData)
| RemoteSelectLast
| RemoteUpsertLast (s : string)
| Aggregate3 (calls : list Call3)
| GetBlockNumber
| Alert (msg : string).

(** The state of the page: the stores, the trace, and the React state of
    [App] that the handlers read and set. *)
Record World := mkWorld {
  store : Store;
  trace : list Event;
  wallets : list WalletData;
  lastUpdate : option string;
  isLoading : bool
}.

(** How a request to the remote store ends. *)
Inductive Reply :=
| Served      (* a response without error *)
| Rejected    (* a response carrying an error other than "not found" *)
| Threw.      (* the request promise rejects *)

(** The environment of one handler run.  The oracles see the trace so far, so
    an answer may depend on everything that happened before. *)
Record Env := mkEnv {
  supabase : bool;                                   (* credentials configured *)
  remoteReply : list Event -> Reply;
  aggregate3 : list Event -> list Call3 -> option (list Result3); (* None: the call throws *)
  getBlockNumber : list Event -> option Z;           (* None: the call throws *)
  isAddress : string -> bool;                        (* viem's address check *)
  nowISO : string;                                   (* new Date().toISOString() *)
  now : Z;                                           (* new Date().getTime() *)
  dateGetTime : string -> option Z                   (* new Date(s).getTime(); None: NaN *)
}.

(** *** A state and exception monad over [World] *)

Inductive Result (A : Type) :=
| Val (a : A)
| Exn.
Arguments Val {A}.
Arguments Exn {A}.

Definition M (A : Type) : Type := World -> Result A * World.

Definition ret {A} (a : A) : M A := fun w => (Val a, w).

Definition bind {A B} (m : M A) (k : A -> M B) : M B :=
  fun w => match m w with
           | (Val a, w') => k a w'
           | (Exn, w') => (Exn, w')
           end.

Definition throw {A} : M A := fun w => (Exn, w).

(** [try { m } catch { h }]: what [m] did before it threw stays done. *)
Definition try_catch {A} (m : M A) (h : M A) : M A :=
  fun w => match m w with
           | (Val a, w') => (Val a, w')
           | (Exn, w') => h w'
           end.

(** [try { m } finally { f }] for an [f] that does not throw. *)
Definition finally {A} (m : M A) (f : World -> World) : M A :=
  fun w => let '(r, w') := m w in (r, f w').

Declare Scope world_scope.
Delimit Scope world_scope with world.
Notation "'let!' x ':=' m 'in' k" := (bind m (fun x => k))
  (at level 10, x name, m at level 100, k at level 200) : world_scope.
Notation "'do!' m 'in' k" := (bind m (fun _ => k))
  (at level 10, m at level 100, k at level 200) : world_scope.
Open Scope world_scope.

Definition modify (f : World -> World) : M unit := fun w => (Val tt, f w).
Definition gets {A} (f : World -> A) : M A := fun w => (Val (f w), w).

Definition setStore (f : Store -> Store) (w : World) : World :=
  mkWorld (f (store w)) (trace w) (wallets w) (lastUpdate w) (isLoading w).
Definition logEvent (e : Event) (w : World) : World :=
  mkWorld (store w) (trace w ++ [e]) (wallets w) (lastUpdate w) (isLoading w).
Definition withTrace (w : World) (tr : list Event) : World :=
  mkWorld (store w) tr (wallets w) (lastUpdate w) (isLoading w).
Definition setWallets (ws : list WalletData) : M unit :=
  modify (fun w => mkWorld (store w) (trace w) ws (lastUpdate w) (isLoading w)).
Definition setLastUpdate (s : option string) : M unit :=
  modify (fun w => mkWorld (store w) (trace w) (wallets w) s (isLoading w)).
Definition setIsLoading (b : bool) (w : World) : World :=
  mkWorld (store w) (trace w) (wallets w) (lastUpdate w) b.
Definition alert (msg : string) : M unit := modify (logEvent (Alert msg)).

(** ** ChainBalanceReader (services/web3Service.ts) *)

Module Web3.

Definition CHUNK_SIZE : nat := 100.

(** [decodeFunctionResult({abi: ERC20_ABI, functionName: 'balanceOf', data})]:
    the first 32-byte word read as a big-endian unsigned integer; it throws on
    data shorter than one word. *)
Definition decodeUint256 (data : list Byte.byte) : option N :=
  if bool_decide (length data < 32)%nat then None
  else Some (fold_left (fun acc b => (acc * 256 + Byte.to_N b)%N) (take 32 data) 0%N).

(** [parseFloat(formatUnits(balanceBigInt, 18))]. *)
Definition formatUnits18 (balanceBigInt : N) : number :=
  Qred (Z.of_N balanceBigInt # 10 ^ 18).

(** [client.getBlockNumber()] inside try/catch: 0 when the call throws. *)
Definition fetchBlockNumber (env : Env) : M Z :=
  fun w =>
    let r := getBlockNumber env (trace w) in
    (Val (default 0 r), logEvent GetBlockNumber w).

(** [client.readContract({address: MULTICALL_ADDRESS, functionName: 'aggregate3',
    args: [chunkCalls]})]. *)
Definition readContract (env : Env) (chunkCalls : list Call3) : M (list Result3) :=
  fun w =>
    let r := aggregate3 env (trace w) chunkCalls in
    let w' := logEvent (Aggregate3 chunkCalls) w in
    match r with
    | Some results => (Val results, w')
    | None => (Exn, w')
    end.

(** The body of [chunkCalls.forEach((_, index) => ...)]; [None] when it
    throws ([results[index]] missing, or undecodable return data). *)
Definition storeResult (addresses : list string) (results : list Result3) (i : nat)
    (resultsMap : gmap string number) (index : nat) : option (gmap string number) :=
  match results !! index, addresses !! (i + index)%nat with
  | Some result, Some address =>
      if success result then
        match decodeUint256 (returnData result) with
        | Some balanceBigInt => Some (<[address := formatUnits18 balanceBigInt]> resultsMap)
        | None => None
        end
      else Some (<[address := 0%Q]> resultsMap)
  | _, _ => None
  end.

Fixpoint forEachIndex (f : gmap string number -> nat -> option (gmap string number))
    (indices : list nat) (resultsMap : gmap string number) : option (gmap string number) :=
  match indices with
  | [] => Some resultsMap
  | index :: rest =>
      match f resultsMap index with
      | Some resultsMap' => forEachIndex f rest resultsMap'
      | None => None
      end
  end.

(** [for (let i = 0; i < calls.length; i += CHUNK_SIZE) { ... }], unrolled at
    most [fuel] times. *)
Fixpoint chunkLoop (env : Env) (addresses : list string) (calls : list Call3)
    (fuel : nat) (i : nat) (resultsMap : gmap string number) : M (gmap string number) :=
  match fuel with
  | O => ret resultsMap
  | S fuel' =>
      if bool_decide (i < length calls)%nat then
        (* calls.slice(i, i + CHUNK_SIZE) *)
        let chunkCalls := take CHUNK_SIZE (drop i calls) in
        let! results := readContract env chunkCalls in
        match forEachIndex (storeResult addresses results i)
                (seq 0 (length chunkCalls)) resultsMap with
        | Some resultsMap' => chunkLoop env addresses calls fuel' (i + CHUNK_SIZE) resultsMap'
        | None => throw
        end
      else ret resultsMap
  end.

(** [encodeFunctionData({abi: ERC20_ABI, functionName: 'balanceOf',
    args: [addr]})]: viem throws [InvalidAddressError] on an address that its
    check rejects. *)
Definition encodeFunctionData (env : Env) (addr : string) : option CallData :=
  if isAddress env addr then Some (BalanceOf addr) else None.

(** The call that [addresses.map] builds for an address that encodes. *)
Definition balanceOfCall (addr : string) : Call3 :=
  {| target := DAI_ADDRESS; allowFailure := true; callData := BalanceOf addr |}.

(** [addresses.map(addr => ({target, allowFailure: true, callData:
    encodeFunctionData(...)}))]: [None] when an encoding throws. *)
Fixpoint encodeCalls (env : Env) (addresses : list string) : option (list Call3) :=
  match addresses with
  | [] => Some []
  | addr :: rest =>
      match encodeFunctionData env addr with
      | Some data =>
          match encodeCalls env rest with
          | Some calls =>
              Some ({| target := DAI_ADDRESS; allowFailure := true; callData := data |}
                    :: calls)
          | None => None
          end
      | None => None
      end
  end.

Definition fetchBalancesBatch (env : Env) (addresses : list string)
    : M (gmap string number) :=
  if bool_decide (length addresses = 0%nat) then ret ∅
  else
    match encodeCalls env addresses with
    | Some calls =>
        (* the catch clause logs and rethrows *)
        chunkLoop env addresses calls (length calls) 0 ∅
    | None => throw   (* thrown by [addresses.map], before the [try] and any request *)
    end.

(** *** Vocabulary for the statements about [fetchBalancesBatch] *)

(** The amount that the [forEach] body stores for one result; [None] when
    decoding it throws. *)
Definition valueOf (result : Result3) : option number :=
  if success result then formatUnits18 <$> decodeUint256 (returnData result)
  else Some 0%Q.

(** The slices [calls.slice(i, i + CHUNK_SIZE)] that the loop takes from
    index [i] on, in order. *)
Fixpoint slicesFrom (fuel i : nat) (calls : list Call3) : list (list Call3) :=
  match fuel with
  | O => []
  | S fuel' =>
      if bool_decide (i < length calls)%nat
      then take CHUNK_SIZE (drop i calls) :: slicesFrom fuel' (i + CHUNK_SIZE) calls
      else []
  end.

Definition chunks (calls : list Call3) : list (list Call3) :=
  slicesFrom (length calls) 0 calls.

(** The trace when the loop, started at trace [tr], issues its [j]-th call. *)
Definition traceAt (tr : list Event) (addresses : list string) (j : nat) : list Event :=
  tr ++ map Aggregate3 (take j (chunks (map balanceOfCall addresses))).

(** The answer of the endpoint to the [j]-th aggregator call of a fetch;
    there is none when the call throws and when the fetch has no such call
    (fewer chunks, or addresses that do not encode, for which it issues no
    call at all). *)
Definition chunkReply (env : Env) (tr : list Event) (addresses : list string) (j : nat)
    : option (list Result3) :=
  match encodeCalls env addresses with
  | Some calls =>
      match chunks calls !! j with
      | Some chunkCalls => aggregate3 env (traceAt tr addresses j) chunkCalls
      | None => None
      end
  | None => None
  end.

(** The result of the sub-call for [addresses[k]]: entry [k mod 100] of the
    answer to call [k / 100]. *)
Definition subcallResult (env : Env) (tr : list Event) (addresses : list string) (k : nat)
    : option Result3 :=
  match chunkReply env tr addresses (k / CHUNK_SIZE) with
  | Some results => results !! (k mod CHUNK_SIZE)%nat
  | None => None
  end.

Definition subcallOK (env : Env) (tr : list Event) (addresses : list string) (k : nat)
    : Prop :=
  exists r v, subcallResult env tr addresses k = Some r /\ valueOf r = Some v.

(** [resultsMap.set(addresses[k], amount of sub-call k)]. *)
Definition store1 (env : Env) (tr : list Event) (addresses : list string)
    (resultsMap : gmap string number) (k : nat) : gmap string number :=
  <[default "" (addresses !! k) :=
      default 0%Q (subcallResult env tr addresses k ≫= valueOf)]> resultsMap.

(** The map after the [set]s for the addresses from index [i] on, in order. *)
Definition balancesFrom (env : Env) (tr : list Event) (addresses : list string)
    (i : nat) (resultsMap : gmap string number) : gmap string number :=
  fold_left (store1 env tr addresses) (seq i (length addresses - i)) resultsMap.

End Web3.

(** ** WalletStore (services/storageService.ts) *)

Module WalletStore.

Definition isCloudStorageEnabled (env : Env) : bool := supabase env.

(** [localStorage.getItem(STORAGE_KEY)], the text held parsed. *)
Definition localGetWallets : M (option (list WalletData)) :=
  gets (fun w => localWallets (store w)).

(** [localStorage.setItem(STORAGE_KEY, JSON.stringify(ws))]. *)
Definition localSetWallets (ws : list WalletData) : M unit :=
  modify (fun w =>
    logEvent (LocalSetWallets ws)
      (setStore (fun s => mkStore (Some ws) (localLast s) (remoteWallets s) (remoteLast s)) w)).

Definition localGetLast : M (option string) :=
  gets (fun w => localLast (store w)).

Definition localSetLast (iso : string) : M unit :=
  modify (fun w =>
    logEvent (LocalSetLast iso)
      (setStore (fun s => mkStore (localWallets s) (Some iso) (remoteWallets s) (remoteLast s)) w)).

(** [supabase.from('app_data').select('value').eq('key', 'wallets').single()]:
    the [data] of the response ([None] for null), or a rejected promise. *)
Definition remoteSelectWallets (env : Env) : M (option (list WalletData)) :=
  fun w =>
    let r := remoteReply env (trace w) in
    let w' := logEvent RemoteSelectWallets w in
    match r with
    | Served => (Val (remoteWallets (store w)), w')
    | Rejected => (Val None, w')
    | Threw => (Exn, w')
    end.

(** [supabase.from('app_data').upsert({key: 'wallets', value: ws})]: whether
    the response is free of error, or a rejected promise. *)
Definition remoteUpsertWallets (env : Env) (ws : list WalletData) : M bool :=
  fun w =>
    let r := remoteReply env (trace w) in
    let w' := logEvent (RemoteUpsertWallets ws) w in
    match r with
    | Served =>
        (Val true,
         setStore (fun s => mkStore (localWallets s) (localLast s) (Some ws) (remoteLast s)) w')
    | Rejected => (Val false, w')
    | Threw => (Exn, w')
    end.

Definition remoteSelectLast (env : Env) : M (option string) :=
  fun w =>
    let r := remoteReply env (trace w) in
    let w' := logEvent RemoteSelectLast w in
    match r with
    | Served => (Val (remoteLast (store w)), w')
    | Rejected => (Val None, w')
    | Threw => (Exn, w')
    end.

Definition remoteUpsertLast (env : Env) (iso : string) : M bool :=
  fun w =>
    let r := remoteReply env (trace w) in
    let w' := logEvent (RemoteUpsertLast iso) w in
    match r with
    | Served =>
        (Val true,
         setStore (fun s => mkStore (localWallets s) (localLast s) (remoteWallets s) (Some iso)) w')
    | Rejected => (Val false, w')
    | Threw => (Exn, w')
    end.

Definition saveWallets (env : Env) (ws : list WalletData) : M unit :=
  (* Always save to local first *)
  do! localSetWallets ws in
  if supabase env then
    try_catch
      (let! ok := remoteUpsertWallets env ws in
       (* the error, or the success, is only logged to the console *)
       ret tt)
      (ret tt)
  else ret tt.

(** The [forEach] of the reconciliation: the cloud array after the pushes,
    and [hasNewData]. *)
Definition mergeLocal (cloudMap : gmap string WalletData)
    (localWallets : list WalletData) (cloudWallets : list WalletData)
    : list WalletData * bool :=
  fold_left
    (fun '(cloudWallets, hasNewData) localW =>
       if bool_decide (is_Some (cloudMap !! toLowerCase (address localW)))
       then (cloudWallets, hasNewData)
       else (cloudWallets ++ [localW], true))
    localWallets (cloudWallets, false).

Definition getWallets (env : Env) : M (list WalletData) :=
  if supabase env then
    try_catch
      ((* 1. Fetch Cloud Data *)
       let! data := remoteSelectWallets env in
       let cloudWallets := default [] data in
       (* 2. Sync Logic: Local -> Cloud *)
       let! localStr := localGetWallets in
       let! cloudWallets :=
         match localStr with
         | Some localWallets =>
             if bool_decide (0 < length localWallets)%nat then
               let cloudMap : gmap string WalletData :=
                 list_to_map (reverse (map (fun w => (toLowerCase (address w), w)) cloudWallets)) in
               let '(cloudWallets, hasNewData) := mergeLocal cloudMap localWallets cloudWallets in
               (* 3. save the merged list back to cloud *)
               do! (if hasNewData then saveWallets env cloudWallets else ret tt) in
               ret cloudWallets
             else ret cloudWallets
         | None => ret cloudWallets
         end in
       (* Update local cache to match the authoritative cloud state *)
       do! localSetWallets cloudWallets in
       ret cloudWallets)
      ((* Fallback to local storage *)
       let! data := localGetWallets in
       ret (default [] data))
  else
    let! data := localGetWallets in
    ret (default [] data).

(** JavaScript truthiness of a string. *)
Definition truthy (s : string) : bool := negb (String.eqb s "").

(** [v || null] for a string or null [v]. *)
Definition orNull (v : option string) : option string :=
  match v with
  | Some s => if truthy s then Some s else None
  | None => None
  end.

Definition getLastUpdateTime (env : Env) : M (option string) :=
  if supabase env then
    try_catch
      (let! data := remoteSelectLast env in
       ret (orNull data))
      localGetLast
  else localGetLast.

Definition setLastUpdateTime (env : Env) (isoDate : string) : M unit :=
  do! localSetLast isoDate in
  if supabase env then
    let! ok := remoteUpsertLast env isoDate in
    ret tt
  else ret tt.

(** *** Vocabulary for the statements about [getWallets] *)

(** The local record [l] has an address that no record of [R] has, compared
    without regard to case. *)
Definition absentFrom (R : list WalletData) (l : WalletData) : bool :=
  negb (bool_decide (toLowerCase (address l) ∈ map (fun r => toLowerCase (address r)) R)).

(** [R] extended with the local records whose address is absent from [R]. *)
Definition reconciled (R L : list WalletData) : list WalletData :=
  R ++ List.filter (absentFrom R) L.

End WalletStore.

(** ** The earlier revision of the store

    The source tree also holds the revision of storageService.ts that came
    before the one above.  Its [saveWallets] mirrors to the remote store
    before it writes the local cache, and its [getWallets] has no final write
    of the local cache.  It is embedded here to state how the two differ. *)

Module Earlier.

Import WalletStore.

Definition saveWallets (env : Env) (ws : list WalletData) : M unit :=
  do! (if supabase env then
         try_catch
           (let! ok := remoteUpsertWallets env ws in
            ret tt)
           (ret tt)
       else ret tt) in
  (* Always save to local as well for offline/speed *)
  localSetWallets ws.

Definition getWallets (env : Env) : M (list WalletData) :=
  if supabase env then
    try_catch
      (let! data := remoteSelectWallets env in
       let cloudWallets := default [] data in
       let! localStr := localGetWallets in
       match localStr with
       | Some localWallets =>
           if bool_decide (0 < length localWallets)%nat then
             let cloudMap : gmap string WalletData :=
               list_to_map (reverse (map (fun w => (toLowerCase (address w), w)) cloudWallets)) in
             let '(cloudWallets, hasNewData) := mergeLocal cloudMap localWallets cloudWallets in
             do! (if hasNewData then saveWallets env cloudWallets else ret tt) in
             ret cloudWallets
           else ret cloudWallets
       | None => ret cloudWallets
       end)
      (let! data := localGetWallets in
       ret (default [] data))
  else
    let! data := localGetWallets in
    ret (default [] data).

End Earlier.

(** ** SyncOrchestrator (App.tsx) *)

Module App.

Import HistoryLedger Web3 WalletStore.

(** An entry of the bulk input, as AdminPanel hands it to [onUpload]. *)
Record Entry := mkEntry {
  entryAddress : string;
  label : string
}.

(** An insertion-ordered JavaScript [Map] with string keys: [set] on a key
    already present keeps its place. *)
Fixpoint jsmap_set {V : Type} (k : string) (v : V) (m : list (string * V))
    : list (string * V) :=
  match m with
  | [] => [(k, v)]
  | (k', v') :: m' =>
      if String.eqb k' k then (k', v) :: m' else (k', v') :: jsmap_set k v m'
  end.

Definition jsmap_values {V : Type} (m : list (string * V)) : list V := map snd m.

(** Every key of the map is the address of the wallet stored under it. *)
Definition keyed (m : list (string * WalletData)) : Prop :=
  Forall (fun kv => fst kv = address (snd kv)) m.

Definition natToString (n : nat) : string := NilEmpty.string_of_uint (Nat.to_uint n).

Definition syncFailedNotice : string :=
  "Failed to sync balances. Check console and RPC settings in Admin.".

Definition uploadFailedNotice : string :=
  "Error initializing new addresses. Please check your RPC connection.".

Definition handleSyncBalances (env : Env) (currentWallets : list WalletData) : M unit :=
  if bool_decide (length currentWallets = 0%nat) then ret tt
  else
    do! modify (setIsLoading true) in
    finally
      (try_catch
         (let addresses := map address currentWallets in
          let! balancesMap := fetchBalancesBatch env addresses in
          let nowISO := nowISO env in
          let updatedWallets :=
            map (fun w =>
                   let newBal := default (currentBalance w) (balancesMap !! address w) in
                   updateWalletHistory w newBal nowISO)
                currentWallets in
          do! setWallets updatedWallets in
          do! saveWallets env updatedWallets in
          do! setLastUpdate (Some nowISO) in
          setLastUpdateTime env nowISO)
         (alert syncFailedNotice))
      (setIsLoading false).

(** The records built for the new entries:
    [newEntries.map((entry, idx) => ({address: entry.address, owner: label, ...}))]. *)
Definition newWalletsOf (wallets : list WalletData) (currentBlock : Z)
    (balancesMap : gmap string number) (nowISO : string) (newEntries : list Entry)
    : list WalletData :=
  imap (fun idx entry =>
          (* balancesMap.get(entry.address) || 0 *)
          let bal := default 0%Q (balancesMap !! entryAddress entry) in
          (* entry.label || `Wallet #${wallets.length + idx + 1}` *)
          let label :=
            if truthy (label entry) then label entry
            else String.append "Wallet #" (natToString (length wallets + idx + 1)) in
          {| address := entryAddress entry;
             owner := label;
             initialBalance := bal;
             initialBlock := currentBlock;
             currentBalance := bal;
             lastUpdated := nowISO;
             history := [mkHistoricalRecord nowISO bal] |})
       newEntries.

(** Dedup by address: [uniqueMap.set(w.address, w)] for the old wallets and
    then for the new ones; [Array.from(uniqueMap.values())]. *)
Definition dedupByAddress (wallets newWallets : list WalletData) : list WalletData :=
  let uniqueMap := [] in
  let uniqueMap := fold_left (fun m w => jsmap_set (address w) w m) wallets uniqueMap in
  let uniqueMap := fold_left (fun m w => jsmap_set (address w) w m) newWallets uniqueMap in
  jsmap_values uniqueMap.

Definition handleUploadAddresses (env : Env) (newEntries : list Entry) : M unit :=
  (* [wallets] is the state of the render the handler was created in *)
  let! wallets := gets wallets in
  do! modify (setIsLoading true) in
  finally
    (try_catch
       (let! currentBlock := fetchBlockNumber env in
        let addresses := map entryAddress newEntries in
        let! balancesMap := fetchBalancesBatch env addresses in
        let nowISO := nowISO env in
        let newWallets := newWalletsOf wallets currentBlock balancesMap nowISO newEntries in
        let unique := dedupByAddress wallets newWallets in
        do! setWallets unique in
        do! saveWallets env unique in
        do! setLastUpdate (Some nowISO) in
        setLastUpdateTime env nowISO)
       (alert uploadFailedNotice))
    (setIsLoading false).

(** [Math.abs(now.getTime() - lastDate.getTime()) / 36e5], as an exact
    rational: on millisecond counts the rounding of the division cannot move
    the quotient across 24. *)
Definition hoursDiff (now lastDate : Z) : Q :=
  (Qabs (inject_Z (now - lastDate)) / inject_Z 3600000)%Q.

(** The start-up test: [if (last) { ...; if (hoursDiff > 24) ... }]. *)
Definition autoSyncDue (env : Env) (last : option string) : bool :=
  match last with
  | Some s =>
      if truthy s then
        match dateGetTime env s with
        | Some lastDate =>
            if Qlt_le_dec 24 (hoursDiff (now env) lastDate) then true else false
        | None => false  (* NaN > 24 is false *)
        end
      else false
  | None => false
  end.

(** The start-up effect of [App]. *)
Definition initData (env : Env) : M unit :=
  let! loaded := getWallets env in
  do! setWallets loaded in
  let! last := getLastUpdateTime env in
  do! setLastUpdate last in
  (* Auto-update logic *)
  if autoSyncDue env last
  then handleSyncBalances env loaded (* Pass current loaded wallets *)
  else ret tt.

(** A session of registrations: each upload runs in its own environment. *)
Fixpoint registerAll (ops : list (Env * list Entry)) (w : World) : World :=
  match ops with
  | [] => w
  | (env, entries) :: rest => registerAll rest (snd (handleUploadAddresses env entries w))
  end.

End App.

(** ** Sample data *)

Module Sample.

Definition entry1 : HistoricalRecord := mkHistoricalRecord "2024-03-01T08:00:00.000Z" 5%Q.

(** A wallet refreshed once, on the first of March. *)
Definition fresh : WalletData :=
  {| address := "0x742d35cc6634c0532925a3b844bc454e4438f44e";
     owner := "Whale One";
     initialBalance := 5%Q; initialBlock := 54000000;
     currentBalance := 5%Q; lastUpdated := "2024-03-01T08:00:00.000Z";
     history := [entry1] |}.

(** The same wallet after a full week of daily refreshes. *)
Definition week : WalletData :=
  {| address := "0x742d35cc6634c0532925a3b844bc454e4438f44e";
     owner := "Whale One";
     initialBalance := 5%Q; initialBlock := 54000000;
     currentBalance := 11%Q; lastUpdated := "2024-03-07T08:00:00.000Z";
     history := [ entry1;
                  mkHistoricalRecord "2024-03-02T08:00:00.000Z" 6%Q;
                  mkHistoricalRecord "2024-03-03T08:00:00.000Z" 7%Q;
                  mkHistoricalRecord "2024-03-04T08:00:00.000Z" 8%Q;
                  mkHistoricalRecord "2024-03-05T08:00:00.000Z" 9%Q;
                  mkHistoricalRecord "2024-03-06T08:00:00.000Z" 10%Q;
                  mkHistoricalRecord "2024-03-07T08:00:00.000Z" 11%Q ] |}.

(** An empty page: nothing stored, nothing loaded. *)
Definition world0 : World := mkWorld (mkStore None None None None) [] [] None false.

Definition byteOf (n : N) : Byte.byte := default Byte.x00 (Byte.of_N n).

(** A 256-bit unsigned integer as its 32-byte big-endian word. *)
Definition encodeUint256 (n : N) : list Byte.byte :=
  map (fun i => byteOf ((n / 256 ^ N.of_nat (31 - i)) mod 256)%N) (seq 0 32).

Definition oneDai : Result3 := mkResult3 true (encodeUint256 (10 ^ 18)).
Definition failed : Result3 := mkResult3 false [].

Definition addrA : string := "0xaaaaaaaaaaaaaaaaaaaaaaaaaaaaaaaaaaaaaaaa".
Definition addrB : string := "0xbbbbbbbbbbbbbbbbbbbbbbbbbbbbbbbbbbbbbbbb".

Definition isHexDigit (c : ascii) : bool :=
  let n := nat_of_ascii c in
  ((48 <=? n) && (n <=? 57) || (65 <=? n) && (n <=? 70) || (97 <=? n) && (n <=? 102))%nat.

(** [0x] and forty hexadecimal digits: the pattern of viem's address
    check. *)
Definition hexAddress (s : string) : bool :=
  match s with
  | String "0" (String "x" digits) =>
      (String.length digits =? 40)%nat && forallb isHexDigit (list_ascii_of_string digits)
  | _ => false
  end.

(** An environment whose endpoint answers every aggregator call with
    [agg calls]; [remote] tells whether the remote store is configured, and
    [reply] how it answers. *)
Definition envOf (remote : bool) (reply : list Event -> Reply)
    (agg : list Call3 -> option (list Result3)) : Env :=
  {| supabase := remote;
     remoteReply := reply;
     aggregate3 := fun _ calls => agg calls;
     getBlockNumber := fun _ => Some 54000000;
     isAddress := hexAddress;
     nowISO := "2024-03-08T08:00:00.000Z";
     now := 1709884800000;
     dateGetTime := fun _ => None |}.

Definition hexDigit (d : nat) : ascii :=
  if (d <? 10)%nat then ascii_of_nat (48 + d) else ascii_of_nat (87 + d).

(** 250 addresses, all different. *)
Definition manyAddresses : list string :=
  map (fun n => String.append "0x00000000000000000000000000000000000000"
                  (String (hexDigit (n / 16)) (String (hexDigit (n mod 16)) "")))
      (seq 0 250).

(** An endpoint that answers every sub-call of every chunk with one DAI,
    except that the sub-call for [addrA] fails. *)
Definition oneFailingEnv : Env :=
  envOf false (fun _ => Served)
    (fun calls =>
       Some (map (fun c => match callData c with
                           | BalanceOf a => if String.eqb a addrA then failed else oneDai
                           end) calls)).

(** An endpoint that is down. *)
Definition downEnv : Env := envOf false (fun _ => Served) (fun _ => None).

(** The reconciliation scenario: the remote store holds A and B, the local
    cache a stale B (entered in capitals) and C. *)
Definition walletOf (a o : string) (bal : number) : WalletData :=
  {| address := a; owner := o; initialBalance := bal; initialBlock := 54000000;
     currentBalance := bal; lastUpdated := "2024-03-01T08:00:00.000Z";
     history := [mkHistoricalRecord "2024-03-01T08:00:00.000Z" bal] |}.

Definition addrC : string := "0xcccccccccccccccccccccccccccccccccccccccc".

Definition walletA : WalletData := walletOf addrA "A" 1%Q.
Definition walletB : WalletData := walletOf addrB "B" 2%Q.
Definition staleB : WalletData :=
  walletOf "0xBBBBBBBBBBBBBBBBBBBBBBBBBBBBBBBBBBBBBBBB" "B (stale)" 0%Q.
Definition walletC : WalletData := walletOf addrC "C" 3%Q.

Definition twoCopies : World :=
  mkWorld (mkStore (Some [staleB; walletC]) None (Some [walletA; walletB]) None)
          [] [] None false.

Definition cloudEnv : Env :=
  envOf true (fun _ => Served) (fun calls => Some (map (fun _ => oneDai) calls)).

(** A page whose local cache holds the week-old wallet and no last-sync
    timestamp; the remote store is not configured. *)
Definition cachedWeek : World :=
  mkWorld (mkStore (Some [week]) None None None) [] [] None false.

(** A working endpoint, no remote store. *)
Definition localEnv : Env :=
  envOf false (fun _ => Served) (fun calls => Some (map (fun _ => oneDai) calls)).

(** The same page with a last-sync timestamp two days before [now]. *)
Definition cachedStale : World :=
  mkWorld (mkStore (Some [week]) (Some "2024-03-06T08:00:00.000Z") None None)
          [] [] None false.

Definition staleEnv : Env :=
  {| supabase := false;
     remoteReply := fun _ => Served;
     aggregate3 := fun _ calls => Some (map (fun _ => oneDai) calls);
     getBlockNumber := fun _ => Some 54000000;
     isAddress := hexAddress;
     nowISO := "2024-03-08T08:00:00.000Z";
     now := 1709884800000;
     dateGetTime := fun s =>
       if String.eqb s "2024-03-06T08:00:00.000Z" then Some 1709712000000 else None |}.

(** The remote store holds A and B, the local cache only a stale B. *)
Definition staleCache : World :=
  mkWorld (mkStore (Some [staleB]) None (Some [walletA; walletB]) None)
          [] [] None false.

(** 101 addresses, the first of them repeated at the end, so that its two
    sub-calls fall into different chunks. *)
Definition repeatedFar : list string :=
  take 100 manyAddresses ++ take 1 manyAddresses.

(** An endpoint that answers a full chunk with one DAI for each sub-call and
    any shorter chunk with failures. *)
Definition secondChunkFailsEnv : Env :=
  envOf false (fun _ => Served)
    (fun calls =>
       Some (map (fun _ => if bool_decide (length calls = 100%nat) then oneDai else failed)
                 calls)).

(** A remote store that answers the first request with an error response
    and serves the later ones. *)
Definition errorOnceEnv : Env :=
  envOf true (fun tr => match tr with [] => Rejected | _ => Served end)
    (fun calls => Some (map (fun _ => oneDai) calls)).

(** An address as a user pastes it, in its mixed-case checksum form. *)
Definition addrX : string := "0x742d35Cc6634C0532925a3b844Bc454e4438f44e".

(** The endpoint of the scenario: one DAI for the first sub-call, failure for
    the second. *)
Definition scenarioEnv : Env :=
  envOf false (fun _ => Served) (fun _ => Some [oneDai; failed]).

End Sample.

(** ** Calendar days of a history *)

Module Days.

Import HistoryLedger.

(** No two neighbouring entries fall on the same calendar date. *)
Fixpoint adjacentDaysDiffer (h : list HistoricalRecord) : Prop :=
  match h with
  | e1 :: rest =>
      match rest with
      | e2 :: _ => calendarDate (date e1) <> calendarDate (date e2)
      | [] => True
      end /\ adjacentDaysDiffer rest
  | [] => True
  end.

(** Every entry is dated by an ISO timestamp. *)
Definition isoDated (h : list HistoricalRecord) : Prop :=
  Forall (fun e => isoTimestamp (date e) = true) h.

End Days.

(** ** The other handlers of the page (App.tsx) *)

Module Session.

Import HistoryLedger WalletStore App.

(** [handleDeleteWallet]; [confirmed] is the answer to
    [window.confirm("Delete this wallet?")]. *)
Definition handleDeleteWallet (confirmed : bool) (env : Env) (addr : string) : M unit :=
  let! wallets := gets wallets in
  if negb confirmed then ret tt
  else
    (* wallets.filter(w => w.address !== addr) *)
    let filtered := List.filter (fun w => negb (String.eqb (address w) addr)) wallets in
    do! setWallets filtered in
    saveWallets env filtered.

(** [handlePurge]; [confirmed] is the answer to [window.confirm]. *)
Definition handlePurge (confirmed : bool) (env : Env) : M unit :=
  if confirmed then
    do! setWallets [] in
    do! saveWallets env [] in
    do! setLastUpdate None in
    setLastUpdateTime env ""
  else ret tt.

(** What a user can do on the page once it is loaded. *)
Inductive Action :=
| SyncNow (env : Env)                             (* triggerUpdate: handleSyncBalances(wallets) *)
| Upload (env : Env) (newEntries : list Entry)
| Delete (confirmed : bool) (env : Env) (addr : string)
| Purge (confirmed : bool) (env : Env).

Definition act (a : Action) : M unit :=
  match a with
  | SyncNow env => let! ws := gets wallets in handleSyncBalances env ws
  | Upload env newEntries => handleUploadAddresses env newEntries
  | Delete confirmed env addr => handleDeleteWallet confirmed env addr
  | Purge confirmed env => handlePurge confirmed env
  end.

(** A session: the actions one after the other, each on the page the one
    before left. *)
Fixpoint session (acts : list Action) (w : World) : World :=
  match acts with
  | [] => w
  | a :: rest => session rest (snd (act a w))
  end.

(** The last history entry of a record carries its [lastUpdated] and
    [currentBalance]. *)
Definition refreshed (r : WalletData) : Prop :=
  last (history r) = Some (mkHistoricalRecord (lastUpdated r) (currentBalance r)).

(** A page in order: no address string twice, every record with a bounded
    history that ends in its current balance, and the local cache holding
    the loaded collection. *)
Definition inOrder (w : World) : Prop :=
  NoDup (map address (wallets w)) /\
  Forall (fun r => boundedHistory r /\ refreshed r) (wallets w) /\
  default [] (localWallets (store w)) = wallets w.

(** The collection that a sync stores: [currentWallets.map(w => ...)]. *)
Definition syncedWallets (balancesMap : gmap string number) (nowISO : string)
    (currentWallets : list WalletData) : list WalletData :=
  map (fun w =>
         let newBal := default (currentBalance w) (balancesMap !! address w) in
         updateWalletHistory w newBal nowISO)
      currentWallets.

End Session.

(** ** Vocabulary for statements about whole runs *)

Module Runs.

Import Session.

(** The event is a request to the remote store. *)
Definition isRemote (e : Event) : bool :=
  match e with
  | RemoteSelectWallets | RemoteUpsertWallets _ | RemoteSelectLast | RemoteUpsertLast _ => true
  | _ => false
  end.

(** From [w] to [w'] no request went to the remote store and its rows are as
    they were. *)
Definition quiet (w w' : World) : Prop :=
  remoteWallets (store w') = remoteWallets (store w) /\
  remoteLast (store w') = remoteLast (store w) /\
  exists evs, trace w' = trace w ++ evs /\ Forall (fun e => isRemote e = false) evs.

Definition actionEnv (a : Action) : Env :=
  match a with
  | SyncNow env => env
  | Upload env _ => env
  | Delete _ env _ => env
  | Purge _ env => env
  end.

(** [m] sends nothing to the remote store, from whatever page it starts. *)
Definition quietM {A} (m : M A) : Prop := forall w, quiet w (snd (m w)).

End Runs.

(** ** Text as characters *)

Module Text.

(** Text as its characters; the panel's input is read as ASCII text, like
    the addresses it is searched for. *)
Definition chars (s : string) : list ascii := list_ascii_of_string s.
Definition text (l : list ascii) : string := string_of_list_ascii l.

(** The white space and line terminators of ASCII text: tab, line feed,
    vertical tab, form feed, carriage return, space. *)
Definition isWhite (c : ascii) : bool :=
  let n := nat_of_ascii c in
  ((9 <=? n) && (n <=? 13) || (n =? 32))%nat.

Fixpoint trimStart (l : list ascii) : list ascii :=
  match l with
  | c :: r => if isWhite c then trimStart r else l
  | [] => []
  end.

Definition trimEnd (l : list ascii) : list ascii := rev (trimStart (rev l)).

(** [s.trim()]. *)
Definition trim (l : list ascii) : list ascii := trimEnd (trimStart l).

(** [s.split(sep)] for a one-character separator: never an empty array. *)
Fixpoint split (sep : ascii) (l : list ascii) : list (list ascii) :=
  match l with
  | [] => [[]]
  | c :: r =>
      if Ascii.eqb c sep then [] :: split sep r
      else match split sep r with
           | cur :: rest => (c :: cur) :: rest
           | [] => [[c]]
           end
  end.

(** The text does not begin with white space. *)
Definition startsBlack (l : list ascii) : Prop :=
  match l with
  | c :: _ => isWhite c = false
  | [] => True
  end.

End Text.

(** ** The dashboard: the short form of an address
    (services/storageService.ts) *)

Module Dashboard.

Import Text.

(** [formatAddress]: [addr.slice(0, 6)], three dots, [addr.slice(-4)]. *)
Definition formatAddress (addr : string) : string :=
  let a := chars addr in
  if (length a <? 10)%nat then addr             (* !addr || addr.length < 10 *)
  else text (take 6 a ++ chars "..." ++ drop (length a - 4) a).

End Dashboard.

(** ** The RPC preference (services/storageService.ts, web3Service.ts,
    App.tsx, AdminPanel) *)

Module Rpc.

Import Text WalletStore.

(** The stored preference ([localStorage] under [RPC_KEY]), the URL of the
    transport of the viem client, the [rpcUrl] state of the page and the
    alerts shown. *)
Record RpcState := mkRpcState {
  rpcStored : option string;
  clientUrl : string;
  rpcUrl : string;
  rpcAlerts : list string
}.

Definition POLYGON_RPC : string := "https://polygon-rpc.com".

(** [localStorage.getItem(RPC_KEY) || POLYGON_RPC]. *)
Definition getRpcUrl (s : RpcState) : string :=
  match rpcStored s with
  | Some url => if truthy url then url else POLYGON_RPC
  | None => POLYGON_RPC
  end.

Definition saveRpcUrl (url : string) (s : RpcState) : RpcState :=
  mkRpcState (Some url) (clientUrl s) (rpcUrl s) (rpcAlerts s).

Definition reinitializeClient (s : RpcState) : RpcState :=
  mkRpcState (rpcStored s) (getRpcUrl s) (rpcUrl s) (rpcAlerts s).

Definition setRpcUrl (url : string) (s : RpcState) : RpcState :=
  mkRpcState (rpcStored s) (clientUrl s) url (rpcAlerts s).

(** [handleRpcUpdate] of [App]. *)
Definition handleRpcUpdate (newUrl : string) (s : RpcState) : RpcState :=
  reinitializeClient (setRpcUrl newUrl (saveRpcUrl newUrl s)).

(** [handleRpcSave] of the panel, with [onUpdateRpc] bound to
    [handleRpcUpdate]. *)
Definition handleRpcSave (rpcInput : string) (s : RpcState) : RpcState :=
  let trimmed := text (trim (chars rpcInput)) in
  if negb (truthy trimmed)
  then mkRpcState (rpcStored s) (clientUrl s) (rpcUrl s)
         (rpcAlerts s ++ ["RPC URL cannot be empty"])
  else handleRpcUpdate trimmed s.

(** The page as the modules leave it when they load: the client is built
    from the stored preference and [rpcUrl] starts as [getRpcUrl()]. *)
Definition loaded (stored : option string) : RpcState :=
  let s := mkRpcState stored "" "" [] in
  setRpcUrl (getRpcUrl s) (reinitializeClient s).

(** The inputs that [handleRpcSave] accepts, trimmed. *)
Definition accepted (inputs : list string) : list string :=
  List.filter truthy (map (fun i => text (trim (chars i))) inputs).

End Rpc.

(** ** AdminPanel: the address parser *)

Module Admin.

Import Text App.

(** [[a-fA-F0-9]]. *)
Definition isHex (c : ascii) : bool :=
  let n := nat_of_ascii c in
  ((48 <=? n) && (n <=? 57) || (65 <=? n) && (n <=? 70) || (97 <=? n) && (n <=? 102))%nat.

(** [/(0x[a-fA-F0-9]{40})/] matched at the start of [l]. *)
Definition matchHere (l : list ascii) : option (list ascii) :=
  match l with
  | c0 :: c1 :: r =>
      let digits := take 40 r in
      if Ascii.eqb c0 "0" && Ascii.eqb c1 "x"
         && (length digits =? 40)%nat && forallb isHex digits
      then Some (c0 :: c1 :: digits)
      else None
  | _ => None
  end.

(** [trimmed.match(addressRegex)]: the leftmost match, [match[0]]. *)
Fixpoint firstMatch (l : list ascii) : option (list ascii) :=
  match matchHere l with
  | Some a => Some a
  | None =>
      match l with
      | [] => None
      | _ :: r => firstMatch r
      end
  end.

Fixpoint startsWithChars (p l : list ascii) : bool :=
  match p, l with
  | [], _ => true
  | c :: p', d :: l' => Ascii.eqb c d && startsWithChars p' l'
  | _ :: _, [] => false
  end.

(** [s.replace(pat, '')] for a string [pat]: the first occurrence goes. *)
Fixpoint removeFirst (pat l : list ascii) : list ascii :=
  if startsWithChars pat l then drop (length pat) l
  else match l with
       | [] => []
       | c :: r => c :: removeFirst pat r
       end.

(** The members of the class of [/[,...]/g] beside the comma: the letters
    U+00EF, U+00BC and U+0152, each two bytes of the UTF-8 text. *)
Definition classLetter (c d : ascii) : bool :=
  let m := nat_of_ascii c in
  let n := nat_of_ascii d in
  ((m =? 195) && (n =? 175) || (m =? 194) && (n =? 188) || (m =? 197) && (n =? 146))%nat.

(** [s.replace(/[,...]/g, '')]: every comma and every letter of the class
    goes. *)
Fixpoint removeCommas (l : list ascii) : list ascii :=
  match l with
  | [] => []
  | c :: r =>
      if Ascii.eqb c ","%char then removeCommas r
      else
        match r with
        | d :: r' => if classLetter c d then removeCommas r' else c :: removeCommas r
        | [] => [c]
        end
  end.

(** The body of the loop of [handleUpload] for one line: [None] when the
    line is skipped. *)
Definition parseLine (line : list ascii) : option Entry :=
  let trimmed := trim line in
  match trimmed with
  | [] => None                                  (* if (!trimmed) continue *)
  | _ :: _ =>
      match firstMatch trimmed with
      | Some address =>
          let label := trim (removeCommas (removeFirst address trimmed)) in
          Some (mkEntry (text address) (text label))
      | None => None
      end
  end.

(** [parsedData] at the end of the loop. *)
Definition parsedData (inputText : string) : list Entry :=
  omap parseLine (split "010"%char (chars inputText)).

Definition noAddressNotice : string :=
  "No valid addresses found in input. Please use format: '0xAddress' or 'Label, 0xAddress'".

(** [handleUpload], with [onUpload] bound to [handleUploadAddresses] as
    [App] does. *)
Definition handleUpload (env : Env) (inputText : string) : M unit :=
  let parsed := parsedData inputText in
  if (0 <? length parsed)%nat then handleUploadAddresses env parsed
  else alert noAddressNotice.

(** *** Vocabulary for the statements about the parser *)

(** An address as the pattern wants it: [0x] and forty hexadecimal digits. *)
Definition wellFormed (a : list ascii) : Prop := matchHere a = Some a.

(** A line in the format that the notice documents. *)
Definition documented (e : Entry) : string :=
  if String.eqb (label e) "" then entryAddress e
  else String.append (label e) (String.append ", " (entryAddress e)).

Definition isAscii (c : ascii) : bool := (nat_of_ascii c <? 128)%nat.

(** A label that the documented format can carry: ASCII text, trimmed, on
    one line, without a comma and without anything that looks like an
    address. *)
Definition plainLabel (l : list ascii) : Prop :=
  forallb isAscii l = true /\
  trim l = l /\ (","%char ∉ l) /\ ("010"%char ∉ l) /\ firstMatch l = None.

(** The line feed as a separator. *)
Definition lineFeed : string := String "010"%char EmptyString.

(** An entry that the documented format can carry. *)
Definition carried (e : Entry) : Prop :=
  wellFormed (chars (entryAddress e)) /\ plainLabel (chars (label e)).

End Admin.

(** * Properties *)

Import HistoryLedger Web3 WalletStore App.

Set Warnings "-clear-no-such-hyp".

(** ** Strings *)

Lemma prefix_split_head (sep : ascii) (s : string) :
  String.prefix (split_head sep s) s = true.
Proof.
  induction s as [|c s IH]; simpl; [reflexivity|].
  destruct (Ascii.eqb c sep); simpl; [reflexivity|].
  destruct (ascii_dec c c); [exact IH | congruence].
Qed.

Lemma prefix_app_same_length (a b c : string) :
  String.length a = String.length b ->
  String.prefix a (String.append b c) = true <-> a = b.
Proof.
  revert b; induction a as [|x a IH]; intros [|y b] Hlen; simpl in *; try discriminate.
  - split; intros _; [reflexivity | destruct c; reflexivity].
  - injection Hlen as Hlen. destruct (ascii_dec x y) as [->|Hne].
    + rewrite (IH b Hlen). split; [intros ->; reflexivity | intros [= ->]; reflexivity].
    + split; [discriminate | intros [= -> _]; congruence].
Qed.

Lemma isDigit_not_T (c : ascii) : isDigit c = true -> Ascii.eqb c "T" = false.
Proof. destruct c as [[] [] [] [] [] [] [] []]; vm_compute; congruence. Qed.

Lemma shapeOf_cons (p : ascii) (pat s : string) :
  shapeOf (String p pat) s = true ->
  exists c s', s = String c s' /\
    (if Ascii.eqb p "d" then isDigit c else Ascii.eqb p c) = true /\ shapeOf pat s' = true.
Proof.
  destruct s as [|c s']; cbn [shapeOf]; [discriminate|].
  intros H. apply andb_prop in H. destruct H as [H1 H2]. eauto.
Qed.

Ltac peel_shape H :=
  let c := fresh "c" in let s := fresh "s" in let Hc := fresh "Hc" in
  apply shapeOf_cons in H; destruct H as (c & s & -> & Hc & H);
  match type of Hc with
  | (if ?t then ?A else ?B) = true =>
      let b := eval vm_compute in t in
      match b with
      | true => change (A = true) in Hc; apply isDigit_not_T in Hc
      | false => change (B = true) in Hc; apply Ascii.eqb_eq in Hc; subst c
      end
  end.

(** An ISO timestamp is a ten-character date, a [T], and the rest; its
    calendar date is the ten characters. *)
Lemma isoTimestamp_shape (s : string) :
  isoTimestamp s = true ->
  exists d rest, s = String.append d (String "T" rest) /\ String.length d = 10%nat /\
                 calendarDate s = d.
Proof.
  unfold isoTimestamp. intros H.
  do 11 peel_shape H.
  eexists (String _ (String _ (String _ (String _ (String _ (String _
            (String _ (String _ (String _ (String _ EmptyString)))))))))), _.
  split; [reflexivity|]. split; [reflexivity|].
  unfold calendarDate. cbn [split_head].
  repeat match goal with Hd : Ascii.eqb _ "T" = false |- _ => rewrite Hd; clear Hd end.
  reflexivity.
Qed.

(** Equal calendar dates always pass the prefix test of the fold. *)
Lemma sameDay_of_calendarDate (e : HistoricalRecord) (t : string) :
  calendarDate (date e) = calendarDate t -> sameDay e t = true.
Proof.
  unfold sameDay, startsWith, calendarDate. intros <-. apply prefix_split_head.
Qed.

(** On ISO timestamps the prefix test is equality of calendar dates. *)
Lemma sameDay_iso (e : HistoricalRecord) (t : string) :
  isoTimestamp (date e) = true -> isoTimestamp t = true ->
  sameDay e t = true <-> calendarDate (date e) = calendarDate t.
Proof.
  intros He Ht.
  destruct (isoTimestamp_shape _ He) as (d & rest & Hd & Hlen & Hcal).
  destruct (isoTimestamp_shape _ Ht) as (d' & rest' & Hd' & Hlen' & Hcal').
  unfold sameDay, startsWith. fold (calendarDate t). rewrite Hcal, Hcal'.
  rewrite Hd at 1. rewrite prefix_app_same_length by congruence.
  split; congruence.
Qed.

(** ** HistoryLedger *)

Section Fold.

Variables (w : WalletData) (b : number) (t : string).

Let obs := mkHistoricalRecord t b.

Lemma lastEntry_last (h : list HistoricalRecord) :
  (if bool_decide (0 < length h)%nat then h !! (length h - 1)%nat else None) = last h.
Proof.
  rewrite last_lookup, Nat.sub_1_r.
  case_bool_decide as Hlen; [reflexivity|].
  destruct h; [reflexivity | simpl in Hlen; lia].
Qed.

Lemma insert_last (h : list HistoricalRecord) (x : HistoricalRecord) :
  h <> [] -> <[(length h - 1)%nat := x]> h = take (length h - 1) h ++ [x].
Proof.
  intros Hne. assert (0 < length h)%nat by (destruct h; [congruence | simpl; lia]).
  rewrite insert_take_drop by lia.
  rewrite drop_ge by lia. reflexivity.
Qed.

Lemma updateWalletHistory_history :
  history (updateWalletHistory w b t) =
  if bool_decide (7 < length (folded b t (history w)))%nat
  then tail (folded b t (history w)) else folded b t (history w).
Proof.
  unfold updateWalletHistory, folded; cbn [history].
  rewrite lastEntry_last. fold obs.
  destruct (last (history w)) as [e|] eqn:Hlast; [|reflexivity].
  unfold sameDay. destruct (startsWith _ _); [|reflexivity].
  rewrite insert_last; [reflexivity|].
  intros Hnil; rewrite Hnil in Hlast; discriminate.
Qed.

Lemma folded_length (h : list HistoricalRecord) :
  length (folded b t h) =
  match last h with
  | Some e => if sameDay e t then length h else S (length h)
  | None => S (length h)
  end.
Proof.
  unfold folded. destruct (last h) as [e|] eqn:Hlast.
  - assert (0 < length h)%nat.
    { destruct h; [discriminate | simpl; lia]. }
    destruct (sameDay e t); rewrite length_app; cbn [length].
    + rewrite length_take. lia.
    + lia.
  - rewrite length_app; cbn [length]. lia.
Qed.

Lemma folded_last (h : list HistoricalRecord) : last (folded b t h) = Some obs.
Proof.
  unfold folded. destruct (last h); [destruct (sameDay _ _)|]; apply last_snoc.
Qed.

End Fold.

(** *** The fold on the heap *)

Lemma readArr_fresh (h : Mem.heap) (xs : list HistoricalRecord) :
  Mem.readArr (h ++ [Mem.Arr xs]) (length h) = Some xs.
Proof. unfold Mem.readArr. rewrite list_lookup_middle; reflexivity. Qed.

Lemma insert_fresh (h : Mem.heap) (c c' : Mem.cell) :
  <[length h := c']> (h ++ [c]) = h ++ [c'].
Proof.
  replace (length h) with (length h + 0)%nat at 1 by lia.
  rewrite insert_app_r. reflexivity.
Qed.

Lemma heap_fold_computes (h : Mem.heap) (wl : Mem.loc) (w : WalletData)
    (b : number) (t : string) :
  Mem.load h wl = Some w ->
  exists wo,
    Mem.readObj h wl = Some wo /\
    Mem.updateWalletHistory h wl b t =
      Some ((h ++ [Mem.Arr (history (updateWalletHistory w b t))]) ++
            [Mem.Obj {| address := address wo; owner := owner wo;
                        initialBalance := initialBalance wo;
                        initialBlock := initialBlock wo;
                        currentBalance := b; lastUpdated := t;
                        history := length h |}],
            S (length h)).
Proof.
  unfold Mem.load, Mem.updateWalletHistory.
  destruct (Mem.readObj h wl) as [wo|]; [|discriminate].
  destruct (Mem.readArr h (history wo)) as [src|]; [|discriminate].
  intros [= <-]. exists wo. split; [reflexivity|].
  unfold Mem.alloc, updateWalletHistory; cbn [history].
  unfold Mem.arr_length, Mem.arr_get. rewrite readArr_fresh.
  destruct (if bool_decide (0 < length src)%nat then src !! (length src - 1)%nat else None)
    as [e|]; [destruct (startsWith (date e) (split_head "T" t))|];
    unfold Mem.arr_set, Mem.arr_push, Mem.arr_shift;
    rewrite readArr_fresh, insert_fresh, readArr_fresh;
    case_bool_decide; rewrite ?readArr_fresh, ?insert_fresh, ?length_app;
    cbn [length]; do 3 f_equal; lia.
Qed.

(** The fold leaves every cell that existed before the call as it was; the
    object it returns denotes the value that the fold on values computes. *)
Lemma heap_fold_pure (h : Mem.heap) (wl : Mem.loc) (w : WalletData)
    (b : number) (t : string) :
  Mem.load h wl = Some w ->
  exists h' rl,
    Mem.updateWalletHistory h wl b t = Some (h', rl) /\
    Mem.load h' rl = Some (updateWalletHistory w b t) /\
    (forall l : Mem.loc, (l < length h)%nat -> h' !! l = h !! l) /\
    Mem.load h' wl = Some w.
Proof.
  intros Hload. destruct (heap_fold_computes h wl w b t Hload) as (wo & Hwo & Hrun).
  eexists _, _. split; [exact Hrun|].
  assert (Hframe : forall l : Mem.loc, (l < length h)%nat ->
            ((h ++ [Mem.Arr (history (updateWalletHistory w b t))]) ++
             [Mem.Obj {| address := address wo; owner := owner wo;
                         initialBalance := initialBalance wo;
                         initialBlock := initialBlock wo;
                         currentBalance := b; lastUpdated := t;
                         history := length h |}]) !! l = h !! l).
  { intros l Hl. rewrite lookup_app_l by (rewrite length_app; simpl; lia).
    rewrite lookup_app_l by lia. reflexivity. }
  split; [|split; [exact Hframe|]].
  - unfold Mem.load, Mem.readObj, Mem.readArr.
    replace (S (length h)) with (length (h ++ [Mem.Arr (history (updateWalletHistory w b t))]))
      by (rewrite length_app; simpl; lia).
    rewrite list_lookup_middle by reflexivity. cbn [history].
    rewrite lookup_app_l by (rewrite length_app; simpl; lia).
    rewrite list_lookup_middle by reflexivity.
    revert Hload. unfold Mem.load. rewrite Hwo.
    destruct (Mem.readArr h (history wo)); [|discriminate].
    intros [= <-]. reflexivity.
  - revert Hload. unfold Mem.load, Mem.readObj, Mem.readArr.
    destruct (h !! wl) as [c|] eqn:Hwl; [|discriminate].
    assert (wl < length h)%nat by (eapply lookup_lt_Some; eassumption).
    rewrite Hframe, Hwl by assumption.
    destruct c as [|wo']; [discriminate|].
    destruct (h !! history wo') as [c|] eqn:Harr; [|discriminate].
    assert (history wo' < length h)%nat by (eapply lookup_lt_Some; eassumption).
    rewrite Hframe, Harr by assumption. trivial.
Qed.

(** *** Lists *)

Lemma take_last_snoc {A} (l : list A) (x : A) :
  last l = Some x -> take (length l - 1) l ++ [x] = l.
Proof.
  destruct l as [|y l] using rev_ind; [discriminate|].
  rewrite last_snoc. intros [= ->].
  rewrite length_app; cbn [length].
  replace (length l + 1 - 1)%nat with (length l) by lia.
  rewrite take_app_length. reflexivity.
Qed.

Lemma tail_length {A} (l : list A) : length (tail l) = (length l - 1)%nat.
Proof. destruct l; simpl; lia. Qed.

Lemma last_tail {A} (l : list A) : (1 < length l)%nat -> last (tail l) = last l.
Proof. destruct l as [|x [|y l]]; simpl; intros; [lia | lia | reflexivity]. Qed.

Lemma fold_last (w : WalletData) (b : number) (t : string) :
  last (history (updateWalletHistory w b t)) = Some (mkHistoricalRecord t b).
Proof.
  rewrite updateWalletHistory_history.
  case_bool_decide; [rewrite last_tail by lia|]; apply folded_last.
Qed.

Lemma fold_length_le (w : WalletData) (b : number) (t : string) :
  boundedHistory w -> boundedHistory (updateWalletHistory w b t).
Proof.
  unfold boundedHistory. intros Hlen. rewrite updateWalletHistory_history.
  pose proof (folded_length b t (history w)) as Hf.
  case_bool_decide as Hgt.
  - rewrite tail_length. destruct (last (history w)); [destruct (sameDay _ _)|]; lia.
  - lia.
Qed.

Lemma wallet_ext (x y : WalletData) :
  address x = address y -> owner x = owner y ->
  initialBalance x = initialBalance y -> initialBlock x = initialBlock y ->
  currentBalance x = currentBalance y -> lastUpdated x = lastUpdated y ->
  history x = history y -> x = y.
Proof. destruct x, y; cbn; intros; subst; reflexivity. Qed.

(** ** Claims on the fold *)

(** C3. For every wallet record of the data model (at most seven entries),
    balance and observation timestamp, [updateWalletHistory] returns a record
    with [currentBalance] and [lastUpdated] set to the observation and the
    other fields kept; when the last entry passes the date test its place is
    taken by the observation and the length is unchanged; otherwise the
    observation is appended (after which a full history loses its oldest
    entry); on ISO timestamps the date test is equality of calendar dates;
    and run on the heap, the fold changes no cell that existed before it, so
    the input record and its history array are as they were. *)
Theorem fold_replaces_or_appends (w : WalletData) (b : number) (t : string) :
  boundedHistory w ->
  let r := updateWalletHistory w b t in
  let obs := mkHistoricalRecord t b in
  (currentBalance r = b /\ lastUpdated r = t /\ address r = address w /\
   owner r = owner w /\ initialBalance r = initialBalance w /\
   initialBlock r = initialBlock w) /\
  (forall e, last (history w) = Some e -> sameDay e t = true ->
     history r = take (length (history w) - 1) (history w) ++ [obs] /\
     length (history r) = length (history w)) /\
  (last (history w) = None \/ (exists e, last (history w) = Some e /\ sameDay e t = false) ->
     history r = if bool_decide (length (history w) < 7)%nat
                 then history w ++ [obs] else tail (history w ++ [obs])) /\
  (forall e, last (history w) = Some e ->
     isoTimestamp (date e) = true -> isoTimestamp t = true ->
     (sameDay e t = true <-> calendarDate (date e) = calendarDate t)) /\
  (forall (h : list Mem.cell) (wl : nat), Mem.load h wl = Some w ->
     exists h' rl,
       Mem.updateWalletHistory h wl b t = Some (h', rl) /\
       Mem.load h' rl = Some r /\
       (forall l : nat, (l < length h)%nat -> h' !! l = h !! l) /\
       Mem.load h' wl = Some w).
Proof.
  intros Hlen. unfold boundedHistory in Hlen. cbv zeta.
  split; [repeat split|]. split; [|split; [|split]].
  - intros e Hlast Hsame. rewrite updateWalletHistory_history.
    pose proof (folded_length b t (history w)) as Hf.
    unfold folded in *. rewrite Hlast, Hsame in *.
    rewrite bool_decide_eq_false_2 by lia. split; [reflexivity | exact Hf].
  - intros Hnew. rewrite updateWalletHistory_history.
    assert (Hf : folded b t (history w) = history w ++ [mkHistoricalRecord t b]).
    { unfold folded. destruct Hnew as [-> | (e & -> & ->)]; reflexivity. }
    rewrite Hf, length_app; cbn [length].
    repeat case_bool_decide; try lia; reflexivity.
  - intros e _ He Ht. apply sameDay_iso; assumption.
  - intros h wl Hload. apply heap_fold_pure; assumption.
Qed.

Lemma fold_replaces_or_appends_witness :
  boundedHistory Sample.fresh /\
  history (updateWalletHistory Sample.fresh 9%Q "2024-03-01T17:30:00.000Z")
    = [mkHistoricalRecord "2024-03-01T17:30:00.000Z" 9%Q] /\
  history (updateWalletHistory Sample.fresh 9%Q "2024-03-02T08:00:00.000Z")
    = [Sample.entry1; mkHistoricalRecord "2024-03-02T08:00:00.000Z" 9%Q].
Proof.
  assert (H : boundedHistory Sample.fresh) by (unfold boundedHistory; simpl; lia).
  split; [exact H|]. split.
  - exact (proj1 (proj1 (proj2 (fold_replaces_or_appends Sample.fresh 9%Q
             "2024-03-01T17:30:00.000Z" H)) Sample.entry1 eq_refl eq_refl)).
  - exact (proj1 (proj2 (proj2 (fold_replaces_or_appends Sample.fresh 9%Q
             "2024-03-02T08:00:00.000Z" H)))
             (or_intror (ex_intro _ Sample.entry1 (conj eq_refl eq_refl)))).
Defined.

(** C4. A wallet record with at most seven entries comes out of the fold with
    at most seven; on a history of exactly seven whose last entry fails the
    date test, the observation is appended and the first entry removed: the
    result is the old entries two to seven followed by the observation, its
    length is seven, and when the oldest entry's date occurs nowhere else no
    entry of the result carries that date. *)
Theorem fold_keeps_seven (w : WalletData) (b : number) (t : string) :
  boundedHistory w ->
  let r := updateWalletHistory w b t in
  let obs := mkHistoricalRecord t b in
  boundedHistory r /\
  (length (history w) = 7%nat ->
   forall e, last (history w) = Some e -> sameDay e t = false ->
     history r = tail (history w) ++ [obs] /\
     length (history r) = 7%nat /\
     forall oldest, head (history w) = Some oldest ->
       (forall i e', (0 < i)%nat -> history w !! i = Some e' -> date e' <> date oldest) ->
       date oldest <> t ->
       forall e', e' ∈ history r -> date e' <> date oldest).
Proof.
  intros Hlen. cbv zeta. split; [apply fold_length_le; exact Hlen|].
  intros H7 e Hlast Hsame.
  assert (Hr : history (updateWalletHistory w b t)
               = tail (history w) ++ [mkHistoricalRecord t b]).
  { rewrite updateWalletHistory_history.
    assert (Hf : folded b t (history w) = history w ++ [mkHistoricalRecord t b]).
    { unfold folded. rewrite Hlast, Hsame. reflexivity. }
    rewrite Hf, length_app; cbn [length].
    rewrite bool_decide_eq_true_2 by lia.
    destruct (history w); [discriminate H7 | reflexivity]. }
  split; [exact Hr|]. split.
  - rewrite Hr, length_app, tail_length; cbn [length]. lia.
  - intros oldest Hhead Hdistinct Hobs e' Hin. rewrite Hr in Hin.
    apply elem_of_app in Hin. destruct Hin as [Hin | Hin].
    + destruct (history w) as [|x l] eqn:Hh; [discriminate Hhead|].
      cbn [tail] in Hin. apply list_elem_of_lookup in Hin. destruct Hin as [i Hi].
      apply (Hdistinct (S i) e'); [lia | exact Hi].
    + apply list_elem_of_singleton in Hin. subst e'. cbn [date]. congruence.
Qed.

Lemma fold_keeps_seven_witness :
  boundedHistory Sample.week /\
  length (history (updateWalletHistory Sample.week 12%Q "2024-03-08T08:00:00.000Z")) = 7%nat /\
  head (history (updateWalletHistory Sample.week 12%Q "2024-03-08T08:00:00.000Z"))
    = Some (mkHistoricalRecord "2024-03-02T08:00:00.000Z" 6%Q).
Proof.
  assert (H : boundedHistory Sample.week) by (unfold boundedHistory; simpl; lia).
  split; [exact H|].
  pose proof (proj2 (fold_keeps_seven Sample.week 12%Q "2024-03-08T08:00:00.000Z" H)
                eq_refl _ eq_refl eq_refl) as (Hr & Hl & _).
  split; [exact Hl|]. rewrite Hr. reflexivity.
Defined.

(** C10. On a wallet record of the data model (at most seven entries) the
    fold is idempotent for a fixed observation. *)
Theorem fold_idempotent (w : WalletData) (b : number) (t : string) :
  boundedHistory w ->
  updateWalletHistory (updateWalletHistory w b t) b t = updateWalletHistory w b t.
Proof.
  intros Hlen.
  pose proof (fold_length_le w b t Hlen) as Hle. unfold boundedHistory in Hle.
  pose proof (fold_last w b t) as Hlast.
  pose proof (updateWalletHistory_history (updateWalletHistory w b t) b t) as Hh.
  assert (Hf : folded b t (history (updateWalletHistory w b t))
               = history (updateWalletHistory w b t)).
  { unfold folded. rewrite Hlast.
    assert (Hs : sameDay (mkHistoricalRecord t b) t = true)
      by (apply sameDay_of_calendarDate; reflexivity).
    rewrite Hs. apply take_last_snoc. exact Hlast. }
  rewrite Hf in Hh. rewrite bool_decide_eq_false_2 in Hh by lia.
  apply wallet_ext; try reflexivity. exact Hh.
Qed.

Lemma fold_idempotent_witness :
  boundedHistory Sample.week /\
  updateWalletHistory (updateWalletHistory Sample.week 12%Q "2024-03-08T08:00:00.000Z")
      12%Q "2024-03-08T08:00:00.000Z"
  = updateWalletHistory Sample.week 12%Q "2024-03-08T08:00:00.000Z".
Proof.
  assert (H : boundedHistory Sample.week) by (unfold boundedHistory; simpl; lia).
  split; [exact H | exact (fold_idempotent Sample.week 12%Q "2024-03-08T08:00:00.000Z" H)].
Defined.

(** ** ChainBalanceReader *)

(** *** The chunks *)

Lemma slicesFrom_lookup (calls : list Call3) (fuel i j : nat) :
  (length calls - i <= fuel)%nat ->
  (i + CHUNK_SIZE * j < length calls)%nat ->
  slicesFrom fuel i calls !! j = Some (take CHUNK_SIZE (drop (i + CHUNK_SIZE * j) calls)).
Proof.
  revert i j. induction fuel as [|fuel IH]; intros i j Hfuel Hlt; [lia|].
  cbn [slicesFrom]. rewrite bool_decide_eq_true_2 by lia.
  destruct j as [|j].
  - cbn [lookup list_lookup]. do 3 f_equal. lia.
  - cbn [lookup list_lookup]. unfold CHUNK_SIZE in *.
    change (slicesFrom fuel (i + 100) calls !! j = Some (take 100 (drop (i + 100 * S j) calls))).
    replace (i + 100 * S j)%nat with ((i + 100) + 100 * j)%nat by lia.
    apply (IH (i + 100)%nat j); lia.
Qed.

Lemma slicesFrom_lookup_ge (calls : list Call3) (fuel i j : nat) :
  (length calls <= i + CHUNK_SIZE * j)%nat -> slicesFrom fuel i calls !! j = None.
Proof.
  revert i j. induction fuel as [|fuel IH]; intros i j Hge; [reflexivity|].
  cbn [slicesFrom]. case_bool_decide; [|reflexivity].
  destruct j as [|j]; [unfold CHUNK_SIZE in *; lia|].
  cbn [lookup list_lookup]. apply (IH (i + CHUNK_SIZE)%nat j). unfold CHUNK_SIZE in *. lia.
Qed.

Lemma chunks_lookup (calls : list Call3) (j : nat) :
  (CHUNK_SIZE * j < length calls)%nat ->
  chunks calls !! j = Some (take CHUNK_SIZE (drop (CHUNK_SIZE * j) calls)).
Proof. intros H. unfold chunks. rewrite slicesFrom_lookup by lia. reflexivity. Qed.

Lemma chunks_lookup_ge (calls : list Call3) (j : nat) :
  (length calls <= CHUNK_SIZE * j)%nat -> chunks calls !! j = None.
Proof. intros H. unfold chunks. apply slicesFrom_lookup_ge. lia. Qed.

Lemma chunks_length (calls : list Call3) (j : nat) :
  (j < length (chunks calls))%nat <-> (CHUNK_SIZE * j < length calls)%nat.
Proof.
  split; intros H.
  - destruct (decide (CHUNK_SIZE * j < length calls)%nat) as [|Hge]; [assumption|].
    apply lookup_lt_is_Some in H. rewrite chunks_lookup_ge in H by lia.
    destruct H; discriminate.
  - apply lookup_lt_is_Some. rewrite chunks_lookup by assumption. eauto.
Qed.

Lemma chunks_take_S (calls : list Call3) (j : nat) :
  (CHUNK_SIZE * j < length calls)%nat ->
  take (S j) (chunks calls) =
  take j (chunks calls) ++ [take CHUNK_SIZE (drop (CHUNK_SIZE * j) calls)].
Proof. intros H. apply take_S_r. apply chunks_lookup. exact H. Qed.




(** *** The loop *)

Lemma withTrace_id (w : World) : withTrace w (trace w) = w.
Proof. destruct w; reflexivity. Qed.

Lemma logEvent_withTrace (e : Event) (w : World) :
  logEvent e w = withTrace w (trace w ++ [e]).
Proof. reflexivity. Qed.

Lemma forEachIndex_some (f : gmap string number -> nat -> option (gmap string number))
    (g : gmap string number -> nat -> gmap string number) (L : list nat)
    (m : gmap string number) :
  (forall idx, idx ∈ L -> forall m0, f m0 idx = Some (g m0 idx)) ->
  forEachIndex f L m = Some (fold_left g L m).
Proof.
  revert m. induction L as [|x L IH]; intros m Hf; [reflexivity|].
  cbn [forEachIndex fold_left]. rewrite Hf by apply list_elem_of_here.
  apply IH. intros idx Hin. apply Hf. apply list_elem_of_further. exact Hin.
Qed.

Lemma forEachIndex_inv (f : gmap string number -> nat -> option (gmap string number))
    (L : list nat) (m m1 : gmap string number) :
  forEachIndex f L m = Some m1 ->
  forall idx, idx ∈ L -> exists m0, is_Some (f m0 idx).
Proof.
  revert m. induction L as [|x L IH]; intros m Hrun idx Hin.
  - apply not_elem_of_nil in Hin. contradiction.
  - cbn [forEachIndex] in Hrun. destruct (f m x) as [m'|] eqn:Hfx; [|discriminate].
    apply elem_of_cons in Hin. destruct Hin as [-> | Hin].
    + exists m. rewrite Hfx. eauto.
    + eapply IH; eassumption.
Qed.

Lemma fold_left_seq_shift {A} (g : A -> nat -> A) (i s n : nat) (a : A) :
  fold_left (fun a idx => g a (i + idx)%nat) (seq s n) a = fold_left g (seq (i + s) n) a.
Proof.
  revert s a. induction n as [|n IH]; intros s a; [reflexivity|].
  cbn [seq fold_left]. rewrite IH. replace (i + S s)%nat with (S (i + s)) by lia.
  reflexivity.
Qed.

Lemma storeResult_valueOf (addresses : list string) (results : list Result3)
    (i : nat) (m : gmap string number) (idx : nat) :
  storeResult addresses results i m idx =
  match results !! idx, addresses !! (i + idx)%nat with
  | Some r, Some a => (fun v => <[a := v]> m) <$> valueOf r
  | _, _ => None
  end.
Proof.
  unfold storeResult, valueOf.
  destruct (results !! idx) as [r|]; [|reflexivity].
  destruct (addresses !! (i + idx)%nat) as [a|]; [|reflexivity].
  destruct (success r); [|reflexivity].
  destruct (decodeUint256 (returnData r)); reflexivity.
Qed.

Section Loop.

Variables (env : Env) (addresses : list string) (tr0 : list Event).

Hypothesis Hvalid : encodeCalls env addresses = Some (map balanceOfCall addresses).

Let calls := map balanceOfCall addresses.

Lemma calls_length : length calls = length addresses.
Proof. apply length_map. Qed.

Lemma subcallResult_in_chunk (j idx : nat) :
  (idx < CHUNK_SIZE)%nat ->
  subcallResult env tr0 addresses (CHUNK_SIZE * j + idx) =
  chunkReply env tr0 addresses j ≫= (fun results => results !! idx).
Proof.
  intros Hidx. unfold subcallResult, CHUNK_SIZE in *.
  replace ((100 * j + idx) / 100)%nat with j
    by (apply Nat.div_unique with idx; lia).
  replace ((100 * j + idx) mod 100)%nat with idx
    by (apply Nat.mod_unique with j; lia).
  destruct (chunkReply env tr0 addresses j); reflexivity.
Qed.

(** One round of the loop, in terms of the answer to call [j]. *)
Lemma chunkLoop_step (fuel j : nat) (m : gmap string number) (w : World) :
  (CHUNK_SIZE * j < length addresses)%nat ->
  trace w = traceAt tr0 addresses j ->
  chunkLoop env addresses calls (S fuel) (CHUNK_SIZE * j) m w =
  match chunkReply env tr0 addresses j with
  | Some results =>
      match forEachIndex (storeResult addresses results (CHUNK_SIZE * j))
              (seq 0 (length (take CHUNK_SIZE (drop (CHUNK_SIZE * j) calls)))) m with
      | Some m1 =>
          chunkLoop env addresses calls fuel (CHUNK_SIZE * S j) m1
            (withTrace w (traceAt tr0 addresses (S j)))
      | None => (Exn, withTrace w (traceAt tr0 addresses (S j)))
      end
  | None => (Exn, withTrace w (traceAt tr0 addresses (S j)))
  end.
Proof.
  intros Hlt Htr. cbn [chunkLoop].
  rewrite bool_decide_eq_true_2 by (rewrite calls_length; exact Hlt).
  unfold bind, readContract, chunkReply. rewrite Hvalid. fold calls.
  rewrite chunks_lookup by (rewrite calls_length; exact Hlt).
  rewrite Htr, logEvent_withTrace, Htr.
  assert (Hnext : traceAt tr0 addresses j ++
                    [Aggregate3 (take CHUNK_SIZE (drop (CHUNK_SIZE * j) calls))]
                  = traceAt tr0 addresses (S j)).
  { unfold traceAt. fold calls.
    rewrite chunks_take_S by (rewrite calls_length; exact Hlt).
    rewrite map_app, app_assoc. reflexivity. }
  rewrite Hnext.
  destruct (aggregate3 env (traceAt tr0 addresses j) _) as [results|]; [|reflexivity].
  destruct (forEachIndex _ _ m) as [m1|]; [|reflexivity].
  replace (CHUNK_SIZE * j + CHUNK_SIZE)%nat with (CHUNK_SIZE * S j)%nat by lia.
  reflexivity.
Qed.

Lemma chunk_length (j : nat) :
  length (take CHUNK_SIZE (drop (CHUNK_SIZE * j) calls))
  = Nat.min CHUNK_SIZE (length addresses - CHUNK_SIZE * j).
Proof. rewrite length_take, length_drop, calls_length. reflexivity. Qed.

(** What the [forEach] over the answer to call [j] does. *)
Lemma forEach_chunk (j : nat) (results : list Result3) (m : gmap string number) :
  chunkReply env tr0 addresses j = Some results ->
  let n := Nat.min CHUNK_SIZE (length addresses - CHUNK_SIZE * j) in
  ((forall k, (CHUNK_SIZE * j <= k < CHUNK_SIZE * j + n)%nat -> subcallOK env tr0 addresses k) ->
   forEachIndex (storeResult addresses results (CHUNK_SIZE * j)) (seq 0 n) m
   = Some (fold_left (store1 env tr0 addresses) (seq (CHUNK_SIZE * j) n) m)) /\
  (forall m1,
     forEachIndex (storeResult addresses results (CHUNK_SIZE * j)) (seq 0 n) m = Some m1 ->
     forall k, (CHUNK_SIZE * j <= k < CHUNK_SIZE * j + n)%nat -> subcallOK env tr0 addresses k).
Proof.
  intros Hreply n. split.
  - intros Hok.
    pose proof (fold_left_seq_shift (store1 env tr0 addresses) (CHUNK_SIZE * j) 0 n m) as Hs.
    rewrite Nat.add_0_r in Hs. rewrite <- Hs. clear Hs.
    apply forEachIndex_some. intros idx Hin m0.
    apply elem_of_seq in Hin.
    destruct (Hok (CHUNK_SIZE * j + idx)%nat) as (r & v & Hr & Hv); [lia|].
    destruct (lookup_lt_is_Some_2 addresses (CHUNK_SIZE * j + idx)) as [a Ha]; [lia|].
    rewrite storeResult_valueOf. unfold store1. rewrite Ha, Hr.
    rewrite subcallResult_in_chunk, Hreply in Hr by lia.
    change (results !! idx = Some r) in Hr.
    change (Some r ≫= valueOf) with (valueOf r). rewrite Hr, Hv. reflexivity.
  - intros m1 Hrun k Hk.
    destruct (forEachIndex_inv _ _ _ _ Hrun (k - CHUNK_SIZE * j)%nat) as [m0 [m0' Hf]].
    { apply elem_of_seq. lia. }
    rewrite storeResult_valueOf in Hf.
    destruct (results !! (k - CHUNK_SIZE * j)%nat) as [r|] eqn:Hr; [|discriminate].
    destruct (addresses !! _); [|discriminate].
    destruct (valueOf r) as [v|] eqn:Hv; [|discriminate].
    exists r, v. split; [|exact Hv].
    replace k with (CHUNK_SIZE * j + (k - CHUNK_SIZE * j))%nat at 1 by lia.
    rewrite subcallResult_in_chunk, Hreply by lia. exact Hr.
Qed.

(** The loop from call [j] on: it returns a map exactly when every sub-call
    still to come has a result that decodes, and then the map is the one the
    [set]s build in order and every chunk has been requested. *)
Lemma chunkLoop_spec (fuel j : nat) (m : gmap string number) (w : World) :
  (length addresses - CHUNK_SIZE * j <= fuel)%nat ->
  trace w = traceAt tr0 addresses j ->
  ((forall k, (CHUNK_SIZE * j <= k < length addresses)%nat -> subcallOK env tr0 addresses k) ->
   chunkLoop env addresses calls fuel (CHUNK_SIZE * j) m w =
   (Val (balancesFrom env tr0 addresses (CHUNK_SIZE * j) m),
    withTrace w (tr0 ++ map Aggregate3 (chunks calls)))) /\
  (forall m' w', chunkLoop env addresses calls fuel (CHUNK_SIZE * j) m w = (Val m', w') ->
   forall k, (CHUNK_SIZE * j <= k < length addresses)%nat -> subcallOK env tr0 addresses k).
Proof.
  revert j m w. induction fuel as [|fuel IH]; intros j m w Hfuel Htr.
  - split.
    + intros _. cbn [chunkLoop]. unfold ret, balancesFrom.
      replace (length addresses - CHUNK_SIZE * j)%nat with 0%nat by lia. cbn [seq fold_left].
      rewrite <- (withTrace_id w) at 1. rewrite Htr. unfold traceAt. fold calls.
      rewrite take_ge; [reflexivity|].
      destruct (decide (length (chunks calls) <= j)%nat) as [|Hn]; [assumption|].
      assert (Hj : (j < length (chunks calls))%nat) by lia.
      apply chunks_length in Hj. rewrite calls_length in Hj. lia.
    + intros m' w' _ k Hk. lia.
  - destruct (decide (CHUNK_SIZE * j < length addresses)%nat) as [Hlt | Hge].
    + rewrite (chunkLoop_step fuel j m w Hlt Htr).
      pose proof (chunk_length j) as Hn. rewrite Hn.
      set (n := Nat.min CHUNK_SIZE (length addresses - CHUNK_SIZE * j)) in *.
      assert (Hsplit : forall m0,
                balancesFrom env tr0 addresses (CHUNK_SIZE * j) m0 =
                balancesFrom env tr0 addresses (CHUNK_SIZE * S j)
                  (fold_left (store1 env tr0 addresses) (seq (CHUNK_SIZE * j) n) m0)).
      { intros m0. unfold balancesFrom. rewrite <- fold_left_app. f_equal.
        destruct (decide (length addresses - CHUNK_SIZE * S j = 0)%nat) as [Hz | Hnz].
        - rewrite Hz. cbn [seq]. rewrite app_nil_r. f_equal. unfold CHUNK_SIZE in *. lia.
        - replace (CHUNK_SIZE * S j)%nat with (CHUNK_SIZE * j + n)%nat
            by (unfold CHUNK_SIZE in *; lia).
          rewrite <- seq_app. f_equal. unfold CHUNK_SIZE in *. lia. }
      destruct (chunkReply env tr0 addresses j) as [results|] eqn:Hreply.
      * destruct (forEach_chunk j results m Hreply) as [Hfwd Hbwd]. fold n in Hfwd, Hbwd.
        destruct (IH (S j)
                    (fold_left (store1 env tr0 addresses) (seq (CHUNK_SIZE * j) n) m)
                    (withTrace w (traceAt tr0 addresses (S j))))
          as [IHfwd IHbwd]; [unfold CHUNK_SIZE in *; lia | reflexivity |].
        split.
        -- intros Hok. rewrite Hfwd by (intros k Hk; apply Hok; lia).
           rewrite IHfwd by (intros k Hk; apply Hok; unfold CHUNK_SIZE in *; lia).
           rewrite <- Hsplit. reflexivity.
        -- intros m' w' Hrun k Hk.
           destruct (forEachIndex _ _ m) as [m1|] eqn:Hfe; [|discriminate].
           pose proof (Hbwd m1 eq_refl) as Hchunk.
           destruct (decide (k < CHUNK_SIZE * j + n)%nat) as [Hin | Hout];
             [apply Hchunk; lia|].
           assert (Hm1 : m1 = fold_left (store1 env tr0 addresses) (seq (CHUNK_SIZE * j) n) m).
           { pose proof (Hfwd Hchunk) as Hm1. congruence. }
           subst m1. eapply IHbwd; [exact Hrun|]. unfold CHUNK_SIZE in *. lia.
      * split.
        -- intros Hok. destruct (Hok (CHUNK_SIZE * j)%nat) as (r & v & Hr & _); [lia|].
           replace (CHUNK_SIZE * j)%nat with (CHUNK_SIZE * j + 0)%nat in Hr by lia.
           rewrite subcallResult_in_chunk, Hreply in Hr by (unfold CHUNK_SIZE; lia).
           discriminate.
        -- intros m' w' Hrun. discriminate.
    + cbn [chunkLoop]. rewrite bool_decide_eq_false_2 by (rewrite calls_length; lia).
      split.
      * intros _. unfold ret, balancesFrom.
        replace (length addresses - CHUNK_SIZE * j)%nat with 0%nat by lia. cbn [seq fold_left].
        rewrite <- (withTrace_id w) at 1. rewrite Htr. unfold traceAt. fold calls.
        rewrite take_ge; [reflexivity|].
        destruct (decide (length (chunks calls) <= j)%nat) as [|Hn]; [assumption|].
        assert (Hj : (j < length (chunks calls))%nat) by lia.
        apply chunks_length in Hj. rewrite calls_length in Hj. lia.
      * intros m' w' _ k Hk. lia.
Qed.

(** Whatever the outcome, the loop only adds aggregator requests to the
    trace, one per chunk and in order, and touches nothing else. *)
Lemma chunkLoop_frame (fuel j : nat) (m : gmap string number) (w : World) :
  trace w = traceAt tr0 addresses j ->
  exists n, snd (chunkLoop env addresses calls fuel (CHUNK_SIZE * j) m w)
            = withTrace w (traceAt tr0 addresses n).
Proof.
  revert j m w. induction fuel as [|fuel IH]; intros j m w Htr.
  - exists j. cbn. rewrite <- Htr. symmetry. apply withTrace_id.
  - destruct (decide (CHUNK_SIZE * j < length addresses)%nat) as [Hlt | Hge].
    + rewrite (chunkLoop_step fuel j m w Hlt Htr).
      destruct (chunkReply env tr0 addresses j) as [results|]; [|exists (S j); reflexivity].
      destruct (forEachIndex _ _ m) as [m1|]; [|exists (S j); reflexivity].
      destruct (IH (S j) m1 (withTrace w (traceAt tr0 addresses (S j))) eq_refl) as [n Hn].
      exists n. rewrite Hn. reflexivity.
    + exists j. cbn [chunkLoop].
      rewrite bool_decide_eq_false_2 by (rewrite calls_length; lia).
      cbn. rewrite <- Htr. symmetry. apply withTrace_id.
Qed.

End Loop.

(** *** The fetch as a whole *)

Lemma traceAt_0 (tr : list Event) (addresses : list string) : traceAt tr addresses 0 = tr.
Proof. unfold traceAt. cbn. apply app_nil_r. Qed.

(** The calls are built exactly when viem accepts every address. *)
Lemma encodeCalls_cases (env : Env) (addresses : list string) :
  encodeCalls env addresses =
  if forallb (isAddress env) addresses then Some (map balanceOfCall addresses) else None.
Proof.
  induction addresses as [|a r IH]; [reflexivity|].
  cbn [encodeCalls forallb map]. unfold encodeFunctionData.
  destruct (isAddress env a); [|reflexivity]. rewrite IH.
  destruct (forallb (isAddress env) r); reflexivity.
Qed.

Lemma encodeCalls_inv (env : Env) (addresses : list string) (calls : list Call3) :
  encodeCalls env addresses = Some calls -> calls = map balanceOfCall addresses.
Proof.
  rewrite encodeCalls_cases. destruct (forallb (isAddress env) addresses); congruence.
Qed.

Lemma fetch_spec (env : Env) (addresses : list string) (w : World) :
  ((forall k, (k < length addresses)%nat -> subcallOK env (trace w) addresses k) ->
   fetchBalancesBatch env addresses w =
   (Val (balancesFrom env (trace w) addresses 0 ∅),
    withTrace w (trace w ++ map Aggregate3 (chunks (map balanceOfCall addresses))))) /\
  (forall m' w', fetchBalancesBatch env addresses w = (Val m', w') ->
   forall k, (k < length addresses)%nat -> subcallOK env (trace w) addresses k).
Proof.
  unfold fetchBalancesBatch. case_bool_decide as Hlen.
  - destruct addresses; [|discriminate Hlen]. split.
    + intros _. unfold ret. cbn. rewrite app_nil_r, withTrace_id. reflexivity.
    + intros m' w' _ k Hk. cbn in Hk. lia.
  - destruct (encodeCalls env addresses) as [calls|] eqn:Henc.
    + pose proof (encodeCalls_inv _ _ _ Henc) as ->.
      destruct (chunkLoop_spec env addresses (trace w) Henc
                  (length (map balanceOfCall addresses)) 0 ∅ w) as [Hfwd Hbwd].
      * rewrite length_map. lia.
      * symmetry. apply traceAt_0.
      * change (CHUNK_SIZE * 0)%nat with 0%nat in *. split.
        -- intros Hok. apply Hfwd. intros k Hk. apply Hok. lia.
        -- intros m' w' Hrun k Hk. eapply Hbwd; [exact Hrun | lia].
    + split; [|intros m' w' Hrun; discriminate Hrun].
      intros Hok. exfalso.
      destruct (Hok 0%nat) as (r & v & Hr & _);
        [destruct addresses; [contradiction Hlen; reflexivity | cbn; lia]|].
      unfold subcallResult, chunkReply in Hr. rewrite Henc in Hr. discriminate Hr.
Qed.

Lemma fetch_frame (env : Env) (addresses : list string) (w : World) :
  exists n, snd (fetchBalancesBatch env addresses w)
            = withTrace w (traceAt (trace w) addresses n).
Proof.
  unfold fetchBalancesBatch. case_bool_decide as Hlen.
  - exists 0%nat. cbn. rewrite traceAt_0. symmetry. apply withTrace_id.
  - destruct (encodeCalls env addresses) as [calls|] eqn:Henc.
    + pose proof (encodeCalls_inv _ _ _ Henc) as ->.
      apply (chunkLoop_frame env addresses (trace w) Henc _ 0 ∅ w). symmetry. apply traceAt_0.
    + exists 0%nat. cbn. rewrite traceAt_0. symmetry. apply withTrace_id.
Qed.

(** An address that viem rejects makes the fetch throw before any request. *)
Lemma fetch_rejected_address (env : Env) (addresses : list string) (w : World) (a : string) :
  a ∈ addresses -> isAddress env a = false ->
  fetchBalancesBatch env addresses w = (Exn, w).
Proof.
  intros Hin Hrej. unfold fetchBalancesBatch.
  rewrite bool_decide_eq_false_2 by (destruct addresses; [inversion Hin | discriminate]).
  rewrite encodeCalls_cases.
  destruct (forallb (isAddress env) addresses) eqn:Hall; [|reflexivity].
  rewrite forallb_forall in Hall. apply list_elem_of_In in Hin.
  rewrite (Hall a Hin) in Hrej. discriminate.
Qed.

(** *** The map that the [set]s build *)

Section Balances.

Variables (env : Env) (tr : list Event) (addresses : list string).

Lemma fold_store1_snoc (i n : nat) (m : gmap string number) :
  fold_left (store1 env tr addresses) (seq i (S n)) m =
  store1 env tr addresses (fold_left (store1 env tr addresses) (seq i n) m) (i + n).
Proof. rewrite seq_S, fold_left_app. reflexivity. Qed.

(** The last sub-call for an address decides the amount stored for it. *)
Lemma fold_store1_lookup (i n : nat) (m : gmap string number) (k : nat) (a : string) :
  (i + n <= length addresses)%nat ->
  (i <= k < i + n)%nat ->
  addresses !! k = Some a ->
  (forall k', (k < k' < i + n)%nat -> addresses !! k' <> Some a) ->
  fold_left (store1 env tr addresses) (seq i n) m !! a
  = Some (default 0%Q (subcallResult env tr addresses k ≫= valueOf)).
Proof.
  induction n as [|n IH]; intros Hlen Hk Ha Hlast; [lia|].
  rewrite fold_store1_snoc. unfold store1 at 1.
  destruct (decide (k = i + n)%nat) as [-> | Hne].
  - rewrite Ha. change (default "" (Some a)) with a. apply lookup_insert_eq.
  - destruct (lookup_lt_is_Some_2 addresses (i + n)) as [a' Ha']; [lia|].
    rewrite Ha'. change (default "" (Some a')) with a'.
    rewrite lookup_insert_ne.
    + apply IH; [lia | lia | exact Ha |]. intros k' Hk'. apply Hlast. lia.
    + intros ->. apply (Hlast (i + n)%nat); [lia | exact Ha'].
Qed.

Lemma fold_store1_dom (i n : nat) (m : gmap string number) :
  (i + n <= length addresses)%nat ->
  dom (fold_left (store1 env tr addresses) (seq i n) m)
  = dom m ∪ list_to_set (take n (drop i addresses)).
Proof.
  induction n as [|n IH]; intros Hlen.
  - cbn. set_solver.
  - rewrite fold_store1_snoc. unfold store1 at 1.
    destruct (lookup_lt_is_Some_2 addresses (i + n)) as [a Ha]; [lia|].
    rewrite Ha. change (default "" (Some a)) with a. rewrite dom_insert_L, IH by lia.
    rewrite (take_S_r _ _ a) by (rewrite lookup_drop; exact Ha).
    rewrite list_to_set_app_L. set_solver.
Qed.

Lemma balancesFrom_dom :
  dom (balancesFrom env tr addresses 0 ∅) = list_to_set addresses.
Proof.
  unfold balancesFrom. rewrite fold_store1_dom by lia.
  rewrite Nat.sub_0_r, drop_0, firstn_all. set_solver.
Qed.

End Balances.

(** ** Claims on the balance fetch *)

Lemma valueOf_cases (r : Result3) (v : number) :
  valueOf r = Some v ->
  (success r = true -> exists n, decodeUint256 (returnData r) = Some n /\ v = formatUnits18 n) /\
  (success r = false -> v = 0%Q).
Proof.
  unfold valueOf. destruct (success r).
  - destruct (decodeUint256 (returnData r)) as [n|]; [|discriminate].
    intros [= <-]. split; [eauto | discriminate].
  - intros [= <-]. split; [discriminate | reflexivity].
Qed.

(** C6, as the code has it.  A successful [fetchBalancesBatch] returns a map
    defined on exactly the input addresses; on the empty list it returns the
    empty map and leaves the world, trace included, as it was; and for every
    address the result of its last sub-call decides the value: the decoded
    18-decimal amount when that sub-call succeeded, zero when it failed. *)
Theorem fetch_mapping (env : Env) (addresses : list string) (w w' : World)
    (m : gmap string number) :
  fetchBalancesBatch env addresses w = (Val m, w') ->
  dom m = list_to_set addresses /\
  (addresses = [] -> m = ∅ /\ w' = w) /\
  (forall k a,
     addresses !! k = Some a ->
     (forall k', (k < k')%nat -> addresses !! k' <> Some a) ->
     exists r, subcallResult env (trace w) addresses k = Some r /\
       (success r = true ->
          exists n, decodeUint256 (returnData r) = Some n /\ m !! a = Some (formatUnits18 n)) /\
       (success r = false -> m !! a = Some 0%Q)).
Proof.
  intros Hrun. destruct (fetch_spec env addresses w) as [Hfwd Hbwd].
  pose proof (Hbwd m w' Hrun) as Hok.
  rewrite (Hfwd Hok) in Hrun. injection Hrun as <- <-.
  split; [apply balancesFrom_dom|]. split.
  - intros ->. split; [reflexivity|]. cbn. rewrite app_nil_r. apply withTrace_id.
  - intros k a Ha Hlast.
    assert (Hk : (k < length addresses)%nat) by (eapply lookup_lt_Some; exact Ha).
    destruct (Hok k Hk) as (r & v & Hr & Hv). exists r. split; [exact Hr|].
    assert (Hm : balancesFrom env (trace w) addresses 0 ∅ !! a = Some v).
    { unfold balancesFrom.
      rewrite (fold_store1_lookup env (trace w) addresses 0 _ ∅ k a);
        [| lia | lia | exact Ha | intros k' Hk'; apply Hlast; lia].
      rewrite Hr. change (Some r ≫= valueOf) with (valueOf r). rewrite Hv. reflexivity. }
    destruct (valueOf_cases r v Hv) as [Hs Hf]. split.
    + intros Hsucc. destruct (Hs Hsucc) as (n & Hn & ->). eauto.
    + intros Hfail. rewrite (Hf Hfail) in Hm. exact Hm.
Qed.

Lemma fetch_mapping_witness :
  let run := fetchBalancesBatch Sample.scenarioEnv [Sample.addrA; Sample.addrB] Sample.world0 in
  exists m, fst run = Val m /\
    dom m = list_to_set [Sample.addrA; Sample.addrB] /\
    m !! Sample.addrA = Some 1%Q /\ m !! Sample.addrB = Some 0%Q.
Proof.
  intros run.
  set (m := match fst run with Val m => m | Exn => ∅ end).
  assert (Hrun : run = (Val m, snd run)) by (vm_compute; reflexivity).
  exists m. split; [rewrite Hrun; reflexivity|].
  destruct (fetch_mapping Sample.scenarioEnv [Sample.addrA; Sample.addrB]
              Sample.world0 (snd run) m Hrun) as (Hdom & _ & Hval).
  split; [exact Hdom|]. split.
  - destruct (Hval 0%nat Sample.addrA eq_refl) as (r & Hr & Hs & _).
    + intros [|[|k']] Hk'; [lia | vm_compute; discriminate | vm_compute; discriminate].
    + vm_compute in Hr. injection Hr as <-.
      destruct (Hs eq_refl) as (n & Hn & Hm). vm_compute in Hn. injection Hn as <-.
      exact Hm.
  - destruct (Hval 1%nat Sample.addrB eq_refl) as (r & Hr & _ & Hf).
    + intros [|[|k']] Hk'; [lia | lia | vm_compute; discriminate].
    + vm_compute in Hr. injection Hr as <-. exact (Hf eq_refl).
Defined.

(** C6 as stated fails on a repeated address: the first sub-call for [addrA]
    succeeds with one DAI, the second fails, and the map holds zero. *)
Lemma fetch_repeated_address_counterexample :
  exists m w',
    fetchBalancesBatch Sample.scenarioEnv [Sample.addrA; Sample.addrA] Sample.world0
      = (Val m, w') /\
    subcallResult Sample.scenarioEnv (trace Sample.world0) [Sample.addrA; Sample.addrA] 0
      = Some Sample.oneDai /\
    success Sample.oneDai = true /\
    formatUnits18 <$> decodeUint256 (returnData Sample.oneDai) = Some 1%Q /\
    m !! Sample.addrA = Some 0%Q /\
    m !! Sample.addrA <> Some 1%Q.
Proof.
  eexists _, _. split; [vm_compute; reflexivity|].
  repeat split; try (vm_compute; reflexivity). vm_compute. discriminate.
Qed.

(** The same with the two sub-calls in different aggregator calls. *)
Example fetch_repeated_across_chunks :
  let run := fetchBalancesBatch Sample.secondChunkFailsEnv Sample.repeatedFar Sample.world0 in
  exists m a,
    fst run = Val m /\
    Sample.repeatedFar !! 0%nat = Some a /\ Sample.repeatedFar !! 100%nat = Some a /\
    subcallResult Sample.secondChunkFailsEnv [] Sample.repeatedFar 0 = Some Sample.oneDai /\
    subcallResult Sample.secondChunkFailsEnv [] Sample.repeatedFar 100 = Some Sample.failed /\
    m !! a = Some 0%Q.
Proof.
  intros run. set (m := match fst run with Val m => m | Exn => ∅ end).
  exists m, "0x0000000000000000000000000000000000000000".
  repeat split; vm_compute; reflexivity.
Qed.

Lemma fetch_exn (env : Env) (addresses : list string) (w : World) (j : nat) :
  (j < length (chunks (map balanceOfCall addresses)))%nat ->
  chunkReply env (trace w) addresses j = None ->
  exists n, fetchBalancesBatch env addresses w
            = (Exn, withTrace w (traceAt (trace w) addresses n)).
Proof.
  intros Hj Hnone. apply chunks_length in Hj. rewrite length_map in Hj.
  destruct (fetch_frame env addresses w) as [n Hn]. exists n.
  destruct (fetchBalancesBatch env addresses w) as [[m|] w1] eqn:Hrun.
  - destruct (fetch_spec env addresses w) as [_ Hbwd].
    destruct (Hbwd m w1 Hrun (CHUNK_SIZE * j)%nat) as (r & v & Hr & _); [lia|].
    replace (CHUNK_SIZE * j)%nat with (CHUNK_SIZE * j + 0)%nat in Hr by lia.
    rewrite subcallResult_in_chunk, Hnone in Hr by (unfold CHUNK_SIZE; lia).
    discriminate.
  - cbn in Hn. rewrite Hn. reflexivity.
Qed.


(** The 250-address scenario run: three requests of 100, 100 and 50 calls;
    the failing sub-call gives zero, the other 249 addresses their amount. *)
Example fetch_chunking_example :
  let addresses := Sample.addrA :: tail Sample.manyAddresses in
  let run := fetchBalancesBatch Sample.oneFailingEnv addresses Sample.world0 in
  length addresses = 250%nat /\
  map (fun e => match e with Aggregate3 c => length c | _ => 0%nat end) (trace (snd run))
    = [100; 100; 50]%nat /\
  exists m, fst run = Val m /\
    m !! Sample.addrA = Some 0%Q /\
    Forall (fun a => m !! a = Some 1%Q) (tail Sample.manyAddresses).
Proof.
  intros addresses run. split; [reflexivity|]. split; [vm_compute; reflexivity|].
  set (m := match fst run with Val m => m | Exn => ∅ end).
  exists m. split; [vm_compute; reflexivity|]. split; [vm_compute; reflexivity|].
  apply (bool_decide_unpack _). vm_compute. reflexivity.
Qed.

(** ** Claims on the orchestrator: a failing chunk *)

(** Whatever makes the fetch throw, the sync stops there: it raises its
    notice and persists nothing. *)
Lemma sync_aborts_on_fetch_error (env : Env) (currentWallets : list WalletData)
    (w w1 : World) :
  currentWallets <> [] ->
  fetchBalancesBatch env (map address currentWallets) (setIsLoading true w) = (Exn, w1) ->
  handleSyncBalances env currentWallets w
  = (Val tt, setIsLoading false (logEvent (Alert syncFailedNotice) w1)).
Proof.
  intros Hne Hfetch. unfold handleSyncBalances.
  rewrite bool_decide_eq_false_2 by (destruct currentWallets; [congruence | discriminate]).
  unfold bind, modify, finally, try_catch. rewrite Hfetch. reflexivity.
Qed.

(** C5. When the endpoint fails on the [j]-th chunk request of a balance
    fetch (the answer it gives once the [j] chunks before have been
    requested), [fetchBalancesBatch] throws and returns no map, whatever the
    earlier chunks gave; [handleSyncBalances] catches the error, raises its
    notice, and leaves the stores (wallet collection and last-sync timestamp,
    local and remote) and the loaded state as they were: its trace holds
    aggregator requests and the notice only. *)
Theorem chunk_failure_aborts_sync (env : Env) (currentWallets : list WalletData)
    (w : World) (j : nat) :
  (j < length (chunks (map balanceOfCall (map address currentWallets))))%nat ->
  chunkReply env (trace w) (map address currentWallets) j = None ->
  fst (fetchBalancesBatch env (map address currentWallets) w) = Exn /\
  fst (handleSyncBalances env currentWallets w) = Val tt /\
  store (snd (handleSyncBalances env currentWallets w)) = store w /\
  wallets (snd (handleSyncBalances env currentWallets w)) = wallets w /\
  lastUpdate (snd (handleSyncBalances env currentWallets w)) = lastUpdate w /\
  exists n, trace (snd (handleSyncBalances env currentWallets w))
            = traceAt (trace w) (map address currentWallets) n ++ [Alert syncFailedNotice].
Proof.
  intros Hj Hnone.
  destruct (fetch_exn env (map address currentWallets) w j Hj Hnone) as [n0 Hfetch0].
  split; [rewrite Hfetch0; reflexivity|].
  destruct (fetch_exn env (map address currentWallets) (setIsLoading true w) j Hj Hnone)
    as [n Hfetch].
  assert (Hne : currentWallets <> []).
  { apply chunks_length in Hj. rewrite !length_map in Hj.
    destruct currentWallets; [cbn in Hj; lia | discriminate]. }
  rewrite (sync_aborts_on_fetch_error env currentWallets w _ Hne Hfetch).
  cbn. repeat split. exists n. reflexivity.
Qed.

Lemma chunk_failure_aborts_sync_witness :
  fst (fetchBalancesBatch Sample.downEnv (map address [Sample.week]) Sample.world0) = Exn /\
  store (snd (handleSyncBalances Sample.downEnv [Sample.week] Sample.world0))
    = store Sample.world0.
Proof.
  assert (Hj : (0 < length (chunks (map balanceOfCall (map address [Sample.week]))))%nat)
    by (vm_compute; lia).
  assert (Hnone : chunkReply Sample.downEnv (trace Sample.world0)
                    (map address [Sample.week]) 0 = None) by reflexivity.
  destruct (chunk_failure_aborts_sync Sample.downEnv [Sample.week] Sample.world0 0 Hj Hnone)
    as (Hfetch & _ & Hstore & _).
  split; [exact Hfetch | exact Hstore].
Defined.

(** ** Claims on the wallet store *)

(** [saveWallets] never throws. *)
Lemma saveWallets_returns (env : Env) (ws : list WalletData) (w : World) :
  fst (saveWallets env ws w) = Val tt.
Proof.
  unfold saveWallets, bind, localSetWallets, modify, try_catch, remoteUpsertWallets, ret.
  cbn. destruct (supabase env); cbn; [|reflexivity].
  destruct (remoteReply env (trace w ++ [LocalSetWallets ws])); reflexivity.
Qed.

(** C8. [saveWallets] writes the local cache first and then, when the remote
    store is configured, issues one upsert of the same collection; whatever
    the remote store answers (served, an error response, a rejected promise)
    the call returns normally, the local cache holds the saved collection,
    and no second request is made; the remote row changes only when the
    upsert is served. *)
Theorem save_local_first (env : Env) (ws : list WalletData) (w : World) :
  let r := saveWallets env ws w in
  fst r = Val tt /\
  localWallets (store (snd r)) = Some ws /\
  trace (snd r) =
    trace w ++ LocalSetWallets ws :: (if supabase env then [RemoteUpsertWallets ws] else []) /\
  remoteWallets (store (snd r)) =
    (if supabase env
     then match remoteReply env (trace w ++ [LocalSetWallets ws]) with
          | Served => Some ws
          | _ => remoteWallets (store w)
          end
     else remoteWallets (store w)) /\
  localLast (store (snd r)) = localLast (store w) /\
  remoteLast (store (snd r)) = remoteLast (store w) /\
  wallets (snd r) = wallets w /\ lastUpdate (snd r) = lastUpdate w /\
  isLoading (snd r) = isLoading w.
Proof.
  unfold saveWallets, bind, localSetWallets, modify, try_catch, remoteUpsertWallets, ret.
  cbn. destruct (supabase env); cbn.
  - destruct (remoteReply env (trace w ++ [LocalSetWallets ws])); cbn;
      rewrite <- ?app_assoc; repeat split.
  - repeat split.
Qed.

(** The earlier revision issues the remote upsert first and writes the local
    cache last; the local cache holds the saved collection all the same. *)
Remark earlier_save_remote_first (env : Env) (ws : list WalletData) (w : World) :
  let r := Earlier.saveWallets env ws w in
  fst r = Val tt /\
  localWallets (store (snd r)) = Some ws /\
  trace (snd r) =
    trace w ++ (if supabase env then [RemoteUpsertWallets ws] else []) ++ [LocalSetWallets ws].
Proof.
  unfold Earlier.saveWallets, bind, localSetWallets, modify, try_catch,
    remoteUpsertWallets, ret.
  destruct (supabase env); cbn.
  - destruct (remoteReply env (trace w)); cbn; rewrite <- ?app_assoc; repeat split.
  - repeat split.
Qed.

(** The earlier revision of the load returns the same collection but, when
    no local record is appended, leaves a stale local cache as it is. *)
Remark earlier_load_keeps_stale_cache :
  fst (Earlier.getWallets Sample.cloudEnv Sample.staleCache)
    = Val [Sample.walletA; Sample.walletB] /\
  localWallets (store (snd (Earlier.getWallets Sample.cloudEnv Sample.staleCache)))
    = Some [Sample.staleB] /\
  localWallets (store (snd (getWallets Sample.cloudEnv Sample.staleCache)))
    = Some [Sample.walletA; Sample.walletB].
Proof. repeat split; vm_compute; reflexivity. Qed.

(** *** Reconciliation *)

Lemma mergeLocal_spec (cloudMap : gmap string WalletData) (L acc : list WalletData)
    (has : bool) :
  fold_left
    (fun '(cloudWallets, hasNewData) localW =>
       if bool_decide (is_Some (cloudMap !! toLowerCase (address localW)))
       then (cloudWallets, hasNewData)
       else (cloudWallets ++ [localW], true))
    L (acc, has)
  = (acc ++ List.filter
              (fun l => negb (bool_decide (is_Some (cloudMap !! toLowerCase (address l))))) L,
     has || negb (bool_decide
                    (List.filter
                       (fun l => negb (bool_decide
                                         (is_Some (cloudMap !! toLowerCase (address l))))) L
                     = []))).
Proof.
  revert acc has. induction L as [|l L IH]; intros acc has.
  - cbn. rewrite app_nil_r, orb_false_r. reflexivity.
  - cbn [fold_left List.filter].
    destruct (bool_decide (is_Some (cloudMap !! toLowerCase (address l)))); cbn [negb].
    + apply IH.
    + rewrite IH, <- app_assoc. cbn [app]. f_equal.
      rewrite (bool_decide_eq_false_2 (l :: _ = [])) by (intros ?; discriminate).
      rewrite orb_true_r. reflexivity.
Qed.

Lemma cloudMap_has (R : list WalletData) (k : string) :
  is_Some ((list_to_map (reverse (map (fun w => (toLowerCase (address w), w)) R))
              : gmap string WalletData) !! k)
  <-> k ∈ map (fun r => toLowerCase (address r)) R.
Proof.
  rewrite <- elem_of_dom, dom_list_to_map_L, elem_of_list_to_set.
  rewrite fmap_reverse, elem_of_reverse.
  replace ((map (fun w => (toLowerCase (address w), w)) R).*1)
    with (map (fun r => toLowerCase (address r)) R); [reflexivity|].
  induction R as [|r R IH]; [reflexivity|]. cbn. f_equal. exact IH.
Qed.

Lemma mergeLocal_reconciled (R L : list WalletData) :
  mergeLocal (list_to_map (reverse (map (fun w => (toLowerCase (address w), w)) R))) L R
  = (reconciled R L, negb (bool_decide (List.filter (absentFrom R) L = []))).
Proof.
  unfold mergeLocal. rewrite mergeLocal_spec. cbn [orb].
  assert (Hf : List.filter
                 (fun l => negb (bool_decide (is_Some
                    ((list_to_map (reverse (map (fun w => (toLowerCase (address w), w)) R))
                        : gmap string WalletData) !! toLowerCase (address l))))) L
               = List.filter (absentFrom R) L).
  { apply List.filter_ext. intros l. unfold absentFrom. f_equal.
    apply bool_decide_ext. apply cloudMap_has. }
  rewrite Hf. reflexivity.
Qed.

(** What a load does once the fetch of the remote collection has come back
    with [data], the collection [R] being [data?.value || []]. *)
Lemma load_answered (env : Env) (w : World) (data : option (list WalletData)) :
  supabase env = true ->
  remoteSelectWallets env w = (Val data, logEvent RemoteSelectWallets w) ->
  let R := default [] data in
  let L := default [] (localWallets (store w)) in
  let appended := List.filter (absentFrom R) L in
  let merged := R ++ appended in
  let r := getWallets env w in
  fst r = Val merged /\
  localWallets (store (snd r)) = Some merged /\
  trace (snd r) =
    trace w ++ RemoteSelectWallets ::
      (if bool_decide (appended = []) then []
       else [LocalSetWallets merged; RemoteUpsertWallets merged]) ++
      [LocalSetWallets merged] /\
  remoteWallets (store (snd r)) =
    (if bool_decide (appended = []) then remoteWallets (store w)
     else match remoteReply env (trace w ++ [RemoteSelectWallets; LocalSetWallets merged]) with
          | Served => Some merged
          | _ => remoteWallets (store w)
          end).
Proof.
  intros Hsup Hsel R L appended merged r. subst r merged appended L R.
  unfold getWallets. rewrite Hsup. unfold try_catch, bind. rewrite Hsel.
  unfold localGetWallets, gets.
  cbn [store trace logEvent setStore fst snd].
  generalize (default [] data). intros R.
  destruct (localWallets (store w)) as [L|] eqn:HL; cbn [from_option]; unfold id.
  - case_bool_decide as Hlen.
    + rewrite mergeLocal_reconciled. unfold reconciled.
      destruct (List.filter (absentFrom R) L) as [|x xs] eqn:Hf.
      * rewrite bool_decide_eq_true_2 by reflexivity. cbn.
        rewrite <- app_assoc. repeat split.
      * rewrite (bool_decide_eq_false_2 (x :: xs = [])) by (intros ?; discriminate).
        cbn [negb]. unfold saveWallets, bind, localSetWallets, modify, try_catch,
          remoteUpsertWallets, ret. rewrite Hsup.
        cbn [store trace logEvent setStore fst snd localWallets localLast remoteWallets
             remoteLast wallets lastUpdate isLoading].
        rewrite <- !app_assoc. cbn [app].
        destruct (remoteReply env
                    (trace w ++ [RemoteSelectWallets; LocalSetWallets (R ++ x :: xs)]));
          cbn; rewrite <- ?app_assoc; repeat split.
    + destruct L; [|cbn in Hlen; lia]. cbn. rewrite app_nil_r, <- app_assoc.
      repeat split.
  - cbn. rewrite app_nil_r, <- app_assoc. repeat split.
Qed.

(** C2, as the code has it.  With the remote store configured, what
    [getWallets] does is decided by how the fetch of the remote collection
    ends.  When it is answered, the load takes as [R] the remote collection
    ("not found" counting as the empty collection) if the answer carries no
    error, and the empty collection if it carries one; it returns [R]
    followed by
    exactly the local records whose lower-cased address no record of [R]
    has, the records of [R] staying as they are; it writes the merged
    collection back (local cache, then one remote upsert) exactly when some
    local record was appended; and it ends by writing the merged collection
    to the local cache.  When the fetch throws, the load returns the local
    cache and writes nothing. *)
Theorem load_reconciles (env : Env) (w : World) :
  supabase env = true ->
  let L := default [] (localWallets (store w)) in
  let r := getWallets env w in
  (remoteReply env (trace w) = Threw -> r = (Val L, logEvent RemoteSelectWallets w)) /\
  (remoteReply env (trace w) <> Threw ->
   let R := match remoteReply env (trace w) with
            | Served => default [] (remoteWallets (store w))
            | _ => []
            end in
   let appended := List.filter (absentFrom R) L in
   let merged := R ++ appended in
   fst r = Val merged /\
   (forall l, In l appended <->
              In l L /\ toLowerCase (address l) ∉ map (fun x => toLowerCase (address x)) R) /\
   localWallets (store (snd r)) = Some merged /\
   trace (snd r) =
     trace w ++ RemoteSelectWallets ::
       (if bool_decide (appended = []) then []
        else [LocalSetWallets merged; RemoteUpsertWallets merged]) ++
       [LocalSetWallets merged] /\
   remoteWallets (store (snd r)) =
     (if bool_decide (appended = []) then remoteWallets (store w)
      else match remoteReply env (trace w ++ [RemoteSelectWallets; LocalSetWallets merged]) with
           | Served => Some merged
           | _ => remoteWallets (store w)
           end)).
Proof.
  intros Hsup L r. split.
  - intros Hthrew. subst r L. unfold getWallets. rewrite Hsup.
    unfold try_catch, bind, remoteSelectWallets, localGetWallets, gets, ret.
    rewrite Hthrew. reflexivity.
  - intros Hanswered R appended merged.
    assert (Hchar : forall l, In l appended <->
              In l L /\ toLowerCase (address l) ∉ map (fun x => toLowerCase (address x)) R).
    { intros l. subst appended. rewrite List.filter_In. unfold absentFrom.
      rewrite negb_true_iff, bool_decide_eq_false. reflexivity. }
    assert (Hsel : remoteSelectWallets env w
                   = (Val match remoteReply env (trace w) with
                          | Served => remoteWallets (store w)
                          | _ => None
                          end, logEvent RemoteSelectWallets w)).
    { unfold remoteSelectWallets. destruct (remoteReply env (trace w));
        [reflexivity | reflexivity | congruence]. }
    destruct (load_answered env w _ Hsup Hsel) as (H1 & H2 & H3 & H4).
    assert (HR : default [] match remoteReply env (trace w) with
                            | Served => remoteWallets (store w)
                            | _ => None
                            end = R).
    { subst R. destruct (remoteReply env (trace w)); reflexivity. }
    rewrite HR in H1, H2, H3, H4.
    split; [exact H1|]. split; [exact Hchar|]. split; [exact H2|].
    split; [exact H3 | exact H4].
Qed.

Lemma load_reconciles_witness :
  fst (getWallets Sample.cloudEnv Sample.twoCopies)
    = Val [Sample.walletA; Sample.walletB; Sample.walletC] /\
  localWallets (store (snd (getWallets Sample.cloudEnv Sample.twoCopies)))
    = Some [Sample.walletA; Sample.walletB; Sample.walletC] /\
  remoteWallets (store (snd (getWallets Sample.cloudEnv Sample.twoCopies)))
    = Some [Sample.walletA; Sample.walletB; Sample.walletC].
Proof.
  destruct (proj2 (load_reconciles Sample.cloudEnv Sample.twoCopies eq_refl))
    as (Hret & _ & Hlocal & _ & Hremote); [discriminate|].
  split; [exact Hret|]. split; [exact Hlocal | exact Hremote].
Defined.

(** C2 as stated fails when the fetch of the remote collection comes back
    as an error response (no exception): with the remote store configured,
    holding A and B, and a local cache of a stale B and C, the load does not
    return A, B, C but the two local records, and it writes them over the
    remote row, the stale B in the place of the remote B. *)
Lemma load_error_response_counterexample :
  let env := Sample.errorOnceEnv in
  let w := Sample.twoCopies in
  supabase env = true /\
  remoteWallets (store w) = Some [Sample.walletA; Sample.walletB] /\
  localWallets (store w) = Some [Sample.staleB; Sample.walletC] /\
  reconciled [Sample.walletA; Sample.walletB] [Sample.staleB; Sample.walletC]
    = [Sample.walletA; Sample.walletB; Sample.walletC] /\
  fst (getWallets env w) = Val [Sample.staleB; Sample.walletC] /\
  fst (getWallets env w)
    <> Val (reconciled [Sample.walletA; Sample.walletB] [Sample.staleB; Sample.walletC]) /\
  remoteWallets (store (snd (getWallets env w))) = Some [Sample.staleB; Sample.walletC].
Proof.
  cbv zeta. split; [reflexivity|]. split; [reflexivity|]. split; [reflexivity|].
  split; [vm_compute; reflexivity|]. split; [vm_compute; reflexivity|].
  split; [vm_compute; discriminate | vm_compute; reflexivity].
Qed.

(** ** Claims on the orchestrator: the start-up refresh *)

Lemma getWallets_total (env : Env) (w : World) :
  exists loaded w1, getWallets env w = (Val loaded, w1).
Proof.
  unfold getWallets, try_catch, bind, remoteSelectWallets, localGetWallets, gets, ret.
  destruct (supabase env) eqn:Hsup; [|eauto].
  destruct (remoteReply env (trace w)); [| |eauto].
  - cbn [store trace logEvent setStore fst snd].
    destruct (localWallets (store w)) as [L|]; [|cbn; eauto].
    case_bool_decide; [|cbn; eauto].
    destruct (mergeLocal _ L _) as [cw [|]].
    + pose proof (saveWallets_returns env cw (logEvent RemoteSelectWallets w)) as Hs.
      destruct (saveWallets env cw (logEvent RemoteSelectWallets w)) as [[[]|] ws];
        [cbn; eauto | discriminate Hs].
    + cbn. eauto.
  - cbn [store trace logEvent setStore fst snd].
    destruct (localWallets (store w)) as [L|]; [|cbn; eauto].
    case_bool_decide; [|cbn; eauto].
    destruct (mergeLocal _ L _) as [cw [|]].
    + pose proof (saveWallets_returns env cw (logEvent RemoteSelectWallets w)) as Hs.
      destruct (saveWallets env cw (logEvent RemoteSelectWallets w)) as [[[]|] ws];
        [cbn; eauto | discriminate Hs].
    + cbn. eauto.
Qed.

Lemma getLastUpdateTime_total (env : Env) (w : World) :
  exists last w1, getLastUpdateTime env w = (Val last, w1).
Proof.
  unfold getLastUpdateTime, try_catch, bind, remoteSelectLast, localGetLast, gets, ret.
  destruct (supabase env); [|eauto].
  destruct (remoteReply env (trace w)); eauto.
Qed.

Lemma hoursDiff_gt (now lastDate : Z) :
  (24 < hoursDiff now lastDate)%Q <-> 24 * 3600000 < Z.abs (now - lastDate).
Proof.
  unfold hoursDiff, Qlt, Qdiv, Qmult, Qinv, Qabs, inject_Z. cbn. lia.
Qed.

Lemma autoSyncDue_iff (env : Env) (last : option string) :
  autoSyncDue env last = true <->
  exists s lastDate, last = Some s /\ s <> "" /\ dateGetTime env s = Some lastDate /\
                     24 * 3600000 < Z.abs (now env - lastDate).
Proof.
  unfold autoSyncDue, truthy. split.
  - destruct last as [s|]; [|discriminate].
    destruct (String.eqb s "") eqn:Hs; [discriminate|]. cbn [negb].
    destruct (dateGetTime env s) as [lastDate|] eqn:Hd; [|discriminate].
    destruct (Qlt_le_dec 24 (hoursDiff (now env) lastDate)) as [Hlt|]; [|discriminate].
    intros _. exists s, lastDate. apply String.eqb_neq in Hs. apply hoursDiff_gt in Hlt.
    repeat split; assumption.
  - intros (s & lastDate & -> & Hs & Hd & Hlt).
    apply String.eqb_neq in Hs. rewrite Hs, Hd. cbn [negb].
    destruct (Qlt_le_dec 24 (hoursDiff (now env) lastDate)) as [|Hle]; [reflexivity|].
    apply hoursDiff_gt in Hlt. exfalso. exact (Qlt_not_le _ _ Hlt Hle).
Qed.

(** C1, as the code has it.  On start the page loads the collection and the
    last-sync timestamp (neither step fails) and then runs [handleSyncBalances]
    on the freshly loaded collection exactly when a timestamp is stored, is
    not the empty string, parses, and lies more than 24 hours away from the
    current time; otherwise, and so when no timestamp is stored, it does
    nothing more. *)
Theorem auto_sync_when_stale (env : Env) (w : World) :
  exists loaded w1 last w2,
    getWallets env w = (Val loaded, w1) /\
    getLastUpdateTime env (snd (setWallets loaded w1)) = (Val last, w2) /\
    initData env w =
      (if autoSyncDue env last
       then handleSyncBalances env loaded (snd (setLastUpdate last w2))
       else (Val tt, snd (setLastUpdate last w2))) /\
    (autoSyncDue env last = true <->
     exists s lastDate, last = Some s /\ s <> "" /\ dateGetTime env s = Some lastDate /\
                        24 * 3600000 < Z.abs (now env - lastDate)) /\
    (last = None -> autoSyncDue env last = false).
Proof.
  destruct (getWallets_total env w) as (loaded & w1 & Hload).
  destruct (getLastUpdateTime_total env (snd (setWallets loaded w1))) as (last & w2 & Hlast).
  exists loaded, w1, last, w2.
  split; [exact Hload|]. split; [exact Hlast|]. split; [|split].
  - unfold initData, bind. rewrite Hload.
    change (setWallets loaded w1) with (Val tt, snd (setWallets loaded w1)).
    cbn iota. rewrite Hlast.
    change (setLastUpdate last w2) with (Val tt, snd (setLastUpdate last w2)).
    cbn iota. destruct (autoSyncDue env last); reflexivity.
  - apply autoSyncDue_iff.
  - intros ->. reflexivity.
Qed.

(** C1 as stated fails: with a cached collection and no stored timestamp the
    start-up effect only loads; it issues no request and writes nothing,
    where a refresh of the loaded collection would have done both. *)
Lemma no_timestamp_no_refresh_counterexample :
  localLast (store Sample.cachedWeek) = None /\
  initData Sample.localEnv Sample.cachedWeek
    = (Val tt, mkWorld (store Sample.cachedWeek) [] [Sample.week] None false) /\
  trace (snd (handleSyncBalances Sample.localEnv [Sample.week]
                (mkWorld (store Sample.cachedWeek) [] [Sample.week] None false)))
    = [Aggregate3 [balanceOfCall (address Sample.week)];
       LocalSetWallets [updateWalletHistory Sample.week 1%Q "2024-03-08T08:00:00.000Z"];
       LocalSetLast "2024-03-08T08:00:00.000Z"].
Proof.
  split; [reflexivity|]. split; vm_compute; reflexivity.
Qed.

(** With a timestamp two days old the refresh runs on start. *)
Example stale_timestamp_refreshes :
  trace (snd (initData Sample.staleEnv Sample.cachedStale))
    = [Aggregate3 [balanceOfCall (address Sample.week)];
       LocalSetWallets [updateWalletHistory Sample.week 1%Q "2024-03-08T08:00:00.000Z"];
       LocalSetLast "2024-03-08T08:00:00.000Z"].
Proof. vm_compute. reflexivity. Qed.

(** ** Claims on the orchestrator: registration *)

(** *** The insertion-ordered map *)

Lemma jsmap_set_keys {V : Type} (k : string) (v : V) (m : list (string * V)) :
  map fst (jsmap_set k v m)
  = if bool_decide (k ∈ map fst m) then map fst m else map fst m ++ [k].
Proof.
  induction m as [|[k' v'] m IH]; cbn [jsmap_set map fst].
  - rewrite bool_decide_eq_false_2 by apply not_elem_of_nil. reflexivity.
  - destruct (String.eqb k' k) eqn:Hk.
    + apply String.eqb_eq in Hk. subst k'.
      rewrite bool_decide_eq_true_2 by apply list_elem_of_here. reflexivity.
    + apply String.eqb_neq in Hk. cbn [map fst]. rewrite IH.
      rewrite (bool_decide_ext (k ∈ k' :: map fst m) (k ∈ map fst m)).
      * case_bool_decide; reflexivity.
      * rewrite elem_of_cons. split; [intros [?|?]; [congruence | assumption] | auto].
Qed.

Lemma jsmap_set_NoDup {V : Type} (k : string) (v : V) (m : list (string * V)) :
  NoDup (map fst m) -> NoDup (map fst (jsmap_set k v m)).
Proof.
  intros Hnd. rewrite jsmap_set_keys. case_bool_decide as Hin; [exact Hnd|].
  apply NoDup_app. split; [exact Hnd|]. split.
  - intros x Hx Hxk. apply list_elem_of_singleton in Hxk. subst x. contradiction.
  - apply NoDup_singleton.
Qed.

Lemma jsmap_set_keyed (w : WalletData) (m : list (string * WalletData)) :
  keyed m -> keyed (jsmap_set (address w) w m).
Proof.
  unfold keyed. induction m as [|[k' v'] m IH]; intros Hm; cbn [jsmap_set].
  - constructor; [reflexivity | constructor].
  - inversion Hm as [|? ? Hhd Htl]; subst.
    destruct (String.eqb k' (address w)) eqn:Hk.
    + apply String.eqb_eq in Hk. constructor; [exact Hk | exact Htl].
    + constructor; [exact Hhd | apply IH; exact Htl].
Qed.

Lemma fold_set_invariant (ws : list WalletData) (m : list (string * WalletData)) :
  NoDup (map fst m) -> keyed m ->
  NoDup (map fst (fold_left (fun m w => jsmap_set (address w) w m) ws m)) /\
  keyed (fold_left (fun m w => jsmap_set (address w) w m) ws m).
Proof.
  revert m. induction ws as [|w ws IH]; intros m Hnd Hk; [split; assumption|].
  cbn [fold_left]. apply IH; [apply jsmap_set_NoDup | apply jsmap_set_keyed]; assumption.
Qed.

Lemma keyed_values (m : list (string * WalletData)) :
  keyed m -> map address (jsmap_values m) = map fst m.
Proof.
  unfold keyed, jsmap_values. induction 1 as [|[k v] m Hkv _ IH]; [reflexivity|].
  cbn in *. rewrite IH, Hkv. reflexivity.
Qed.

(** The collection that an upload stores never holds an address string
    twice. *)
Lemma dedupByAddress_NoDup (ws news : list WalletData) :
  NoDup (map address (dedupByAddress ws news)).
Proof.
  unfold dedupByAddress.
  destruct (fold_set_invariant ws []) as [Hnd Hk]; [constructor | constructor |].
  destruct (fold_set_invariant news _ Hnd Hk) as [Hnd' Hk'].
  rewrite keyed_values by exact Hk'. exact Hnd'.
Qed.

Lemma jsmap_set_fresh {V : Type} (k : string) (v : V) (m : list (string * V)) :
  k ∉ map fst m -> jsmap_set k v m = m ++ [(k, v)].
Proof.
  induction m as [|[k' v'] m IH]; intros Hk; [reflexivity|].
  cbn [jsmap_set]. cbn [map fst] in Hk. apply not_elem_of_cons in Hk. destruct Hk as [Hne Hk].
  destruct (String.eqb k' k) eqn:Heq.
  - apply String.eqb_eq in Heq. congruence.
  - rewrite IH by exact Hk. reflexivity.
Qed.

(** Old wallets with pairwise different addresses go into the map as they
    are, in order. *)
Lemma fold_set_NoDup_id (ws : list WalletData) (m : list (string * WalletData)) :
  NoDup (map fst m ++ map address ws) ->
  fold_left (fun m w => jsmap_set (address w) w m) ws m
  = m ++ map (fun w => (address w, w)) ws.
Proof.
  revert m. induction ws as [|w ws IH]; intros m Hnd.
  - cbn. rewrite app_nil_r. reflexivity.
  - cbn [fold_left map]. cbn [map] in Hnd.
    rewrite jsmap_set_fresh.
    + rewrite IH.
      * rewrite <- app_assoc. reflexivity.
      * rewrite map_app, <- app_assoc. exact Hnd.
    + apply NoDup_app in Hnd. destruct Hnd as (_ & Hdisj & _).
      intros Hin. apply (Hdisj _ Hin). apply list_elem_of_here.
Qed.

Lemma filter_address_none (X : string) (m : list (string * WalletData)) :
  keyed m -> X ∉ map fst m ->
  List.filter (fun w => String.eqb (address w) X) (jsmap_values m) = [].
Proof.
  unfold keyed, jsmap_values. induction 1 as [|[k v] m Hkv _ IH]; intros Hnot; [reflexivity|].
  cbn in *. apply not_elem_of_cons in Hnot. destruct Hnot as [Hne Hnot].
  rewrite <- Hkv. apply not_eq_sym in Hne. apply String.eqb_neq in Hne. rewrite Hne.
  apply IH. exact Hnot.
Qed.

(** After [set(X, r)] exactly one value of the map has address [X]: [r]. *)
Lemma jsmap_set_filter (X : string) (r : WalletData) (m : list (string * WalletData)) :
  address r = X -> NoDup (map fst m) -> keyed m ->
  List.filter (fun w => String.eqb (address w) X) (jsmap_values (jsmap_set X r m)) = [r].
Proof.
  intros Hr. induction m as [|[k v] m IH]; intros Hnd Hk.
  - cbn. rewrite Hr, String.eqb_refl. reflexivity.
  - cbn [jsmap_set]. cbn [map fst] in Hnd. apply NoDup_cons in Hnd.
    destruct Hnd as [Hnotin Hnd]. inversion Hk as [|? ? Hkv Hk']; subst. cbn [fst snd] in Hkv.
    destruct (String.eqb k (address r)) eqn:Heq.
    + apply String.eqb_eq in Heq.
      unfold jsmap_values. cbn [map snd List.filter]. rewrite String.eqb_refl.
      f_equal. apply (filter_address_none _ m Hk'). rewrite <- Heq. exact Hnotin.
    + unfold jsmap_values. cbn [map snd List.filter].
      rewrite <- Hkv, Heq. apply IH; assumption.
Qed.

(** *** One upload *)

Ltac case_replies :=
  repeat match goal with
         | |- context [match remoteReply ?env ?t with _ => _ end] =>
             destruct (remoteReply env t)
         end.

(** What an upload leaves: when the fetch throws, the notice and nothing else;
    when it returns, the deduplicated collection, loaded and in the local
    cache. *)
Lemma upload_cases (env : Env) (newEntries : list Entry) (w : World) :
  match fetchBalancesBatch env (map entryAddress newEntries)
          (logEvent GetBlockNumber (setIsLoading true w)) with
  | (Val balancesMap, w2) =>
      let unique :=
        dedupByAddress (wallets w)
          (newWalletsOf (wallets w) (default 0 (getBlockNumber env (trace w)))
             balancesMap (nowISO env) newEntries) in
      wallets (snd (handleUploadAddresses env newEntries w)) = unique /\
      localWallets (store (snd (handleUploadAddresses env newEntries w))) = Some unique
  | (Exn, w2) =>
      snd (handleUploadAddresses env newEntries w)
      = setIsLoading false (logEvent (Alert uploadFailedNotice) w2)
  end.
Proof.
  unfold handleUploadAddresses, bind, gets, modify, finally, try_catch, fetchBlockNumber.
  cbn [fst snd trace setIsLoading].
  destruct (fetchBalancesBatch env (map entryAddress newEntries)
              (logEvent GetBlockNumber (setIsLoading true w))) as [[balancesMap|] w2];
    [|reflexivity].
  unfold setWallets, setLastUpdate, saveWallets, setLastUpdateTime, bind, modify,
    try_catch, localSetWallets, localSetLast, remoteUpsertWallets, remoteUpsertLast,
    ret, alert.
  cbn. destruct (supabase env); cbn; case_replies; cbn; split; reflexivity.
Qed.

Lemma upload_keeps_unique (env : Env) (newEntries : list Entry) (w : World) :
  NoDup (map address (wallets w)) ->
  (forall ws, localWallets (store w) = Some ws -> NoDup (map address ws)) ->
  NoDup (map address (wallets (snd (handleUploadAddresses env newEntries w)))) /\
  (forall ws, localWallets (store (snd (handleUploadAddresses env newEntries w))) = Some ws ->
              NoDup (map address ws)).
Proof.
  intros Hw Hs. pose proof (upload_cases env newEntries w) as Hcases.
  destruct (fetch_frame env (map entryAddress newEntries)
              (logEvent GetBlockNumber (setIsLoading true w))) as [n Hframe].
  destruct (fetchBalancesBatch env (map entryAddress newEntries)
              (logEvent GetBlockNumber (setIsLoading true w))) as [[balancesMap|] w2].
  - destruct Hcases as [-> ->]. split; [apply dedupByAddress_NoDup|].
    intros ws [= <-]. apply dedupByAddress_NoDup.
  - rewrite Hcases. cbn [snd] in Hframe. subst w2. cbn. split; assumption.
Qed.

Lemma registerAll_keeps_unique (ops : list (Env * list Entry)) (w : World) :
  NoDup (map address (wallets w)) ->
  (forall ws, localWallets (store w) = Some ws -> NoDup (map address ws)) ->
  NoDup (map address (wallets (registerAll ops w))) /\
  (forall ws, localWallets (store (registerAll ops w)) = Some ws -> NoDup (map address ws)).
Proof.
  revert w. induction ops as [|[env entries] ops IH]; intros w Hw Hs; [split; assumption|].
  cbn [registerAll]. destruct (upload_keeps_unique env entries w Hw Hs) as [Hw' Hs'].
  apply IH; assumption.
Qed.

(** Registering a single labelled entry for [X] on a collection without
    repeated address strings. *)
Lemma relabel (env : Env) (X lbl : string) (w : World) (balancesMap : gmap string number)
    (w2 : World) :
  NoDup (map address (wallets w)) ->
  lbl <> "" ->
  fetchBalancesBatch env [X] (logEvent GetBlockNumber (setIsLoading true w))
    = (Val balancesMap, w2) ->
  exists r,
    List.filter (fun x => String.eqb (address x) X)
      (wallets (snd (handleUploadAddresses env [mkEntry X lbl] w))) = [r] /\
    address r = X /\ owner r = lbl /\
    length (wallets (snd (handleUploadAddresses env [mkEntry X lbl] w)))
    = (if bool_decide (X ∈ map address (wallets w)) then length (wallets w)
       else S (length (wallets w))).
Proof.
  intros Hnd Hlbl Hfetch. pose proof (upload_cases env [mkEntry X lbl] w) as Hcases.
  cbn [map entryAddress] in Hcases. rewrite Hfetch in Hcases. destruct Hcases as [Hw _].
  rewrite Hw. clear Hw.
  unfold newWalletsOf, dedupByAddress. cbn [imap label entryAddress fold_left address].
  apply String.eqb_neq in Hlbl. unfold truthy. rewrite Hlbl. cbn [negb].
  rewrite fold_set_NoDup_id by exact Hnd. cbn [app].
  match goal with
  | |- context [jsmap_set X ?r0 ?m0] => set (r := r0); set (m := m0)
  end.
  assert (Hkeys : map fst m = map address (wallets w)).
  { subst m. rewrite map_map. reflexivity. }
  assert (Hkeyed : keyed m).
  { unfold keyed. apply Forall_forall. intros kv Hin.
    apply list_elem_of_fmap in Hin. destruct Hin as (w0 & -> & _). reflexivity. }
  exists r. split; [|split; [reflexivity | split; [reflexivity|]]].
  - apply jsmap_set_filter; [reflexivity | rewrite Hkeys; exact Hnd | exact Hkeyed].
  - unfold jsmap_values. rewrite length_map.
    rewrite <- (length_map fst), jsmap_set_keys, Hkeys.
    assert (Hlen : length (map address (wallets w)) = length (wallets w))
      by apply length_map.
    case_bool_decide; [|rewrite length_app; cbn [length]]; rewrite Hlen; lia.
Qed.

Lemma jsmap_set_keys_incl {V : Type} (k k' : string) (v : V) (m : list (string * V)) :
  k' ∈ map fst m \/ k' = k -> k' ∈ map fst (jsmap_set k v m).
Proof.
  rewrite jsmap_set_keys. case_bool_decide as Hin.
  - intros [H | ->]; assumption.
  - rewrite elem_of_app, list_elem_of_singleton. tauto.
Qed.

Lemma fold_set_keys_incl (ws : list WalletData) (m : list (string * WalletData)) (k : string) :
  k ∈ map fst m \/ k ∈ map address ws ->
  k ∈ map fst (fold_left (fun m w => jsmap_set (address w) w m) ws m).
Proof.
  revert m. induction ws as [|w ws IH]; intros m Hk; cbn [fold_left].
  - destruct Hk as [Hk | Hk]; [exact Hk|]. cbn in Hk. apply not_elem_of_nil in Hk. contradiction.
  - apply IH. cbn [map] in Hk. rewrite elem_of_cons in Hk.
    destruct Hk as [Hk | [-> | Hk]].
    + left. apply jsmap_set_keys_incl. left. exact Hk.
    + left. apply jsmap_set_keys_incl. right. reflexivity.
    + right. exact Hk.
Qed.

(** The deduplicated collection holds every address string of the old and of
    the new records, as it is. *)
Lemma dedupByAddress_addresses (ws news : list WalletData) (k : string) :
  k ∈ map address ws \/ k ∈ map address news ->
  k ∈ map address (dedupByAddress ws news).
Proof.
  intros Hk. unfold dedupByAddress.
  destruct (fold_set_invariant ws []) as [Hnd Hkd]; [constructor | constructor |].
  destruct (fold_set_invariant news _ Hnd Hkd) as [_ Hkd'].
  rewrite keyed_values by exact Hkd'.
  apply fold_set_keys_incl. destruct Hk as [Hk | Hk]; [left | right; exact Hk].
  apply fold_set_keys_incl. right. exact Hk.
Qed.

Lemma map_address_imap (f : nat -> Entry -> WalletData) (entries : list Entry) :
  (forall idx e, address (f idx e) = entryAddress e) ->
  map address (imap f entries) = map entryAddress entries.
Proof.
  revert f. induction entries as [|e entries IH]; intros f Hf; [reflexivity|].
  cbn [imap map]. rewrite Hf. f_equal. apply IH. intros idx e'. apply Hf.
Qed.

Lemma newWalletsOf_addresses (ws : list WalletData) (blk : Z) (m : gmap string number)
    (iso : string) (entries : list Entry) :
  map address (newWalletsOf ws blk m iso entries) = map entryAddress entries.
Proof. unfold newWalletsOf. apply map_address_imap. reflexivity. Qed.

(** C9, as the code has it.  Registration stores each address string as it
    was entered.  Started on a collection (loaded and cached) without
    repeated address strings, any sequence of uploads leaves one without
    repeated address strings; and a further upload of one labelled entry for
    [X] whose fetch succeeds leaves exactly one record with address string
    [X], carrying the new label, the collection growing by one record only if
    [X] was not in it; every address string of that upload is in the stored
    collection as entered. *)
Theorem registration_unique_strings (ops : list (Env * list Entry)) (w : World) :
  NoDup (map address (wallets w)) ->
  (forall ws, localWallets (store w) = Some ws -> NoDup (map address ws)) ->
  let w' := registerAll ops w in
  (NoDup (map address (wallets w')) /\
   (forall ws, localWallets (store w') = Some ws -> NoDup (map address ws))) /\
  (forall env X lbl balancesMap w2,
     lbl <> "" ->
     fetchBalancesBatch env [X] (logEvent GetBlockNumber (setIsLoading true w'))
       = (Val balancesMap, w2) ->
     let w'' := snd (handleUploadAddresses env [mkEntry X lbl] w') in
     (exists r,
        List.filter (fun x => String.eqb (address x) X) (wallets w'') = [r] /\
        address r = X /\ owner r = lbl) /\
     length (wallets w'') =
       (if bool_decide (X ∈ map address (wallets w')) then length (wallets w')
        else S (length (wallets w'))) /\
     localWallets (store w'') = Some (wallets w'')) /\
  (forall env entries balancesMap w2,
     fetchBalancesBatch env (map entryAddress entries)
       (logEvent GetBlockNumber (setIsLoading true w')) = (Val balancesMap, w2) ->
     forall e, e ∈ entries ->
       entryAddress e ∈ map address (wallets (snd (handleUploadAddresses env entries w')))).
Proof.
  intros Hw Hs w'. destruct (registerAll_keeps_unique ops w Hw Hs) as [Hw' Hs'].
  fold w' in Hw', Hs'. split; [split; assumption|]. split.
  - intros env X lbl balancesMap w2 Hlbl Hfetch w''.
    destruct (relabel env X lbl w' balancesMap w2 Hw' Hlbl Hfetch)
      as (r & Hfilter & Haddr & Hown & Hlen).
    split; [exists r; repeat split; assumption|]. split; [exact Hlen|].
    pose proof (upload_cases env [mkEntry X lbl] w') as Hcases.
    cbn [map entryAddress] in Hcases. rewrite Hfetch in Hcases.
    destruct Hcases as [Hwal Hloc]. subst w''. rewrite Hloc, Hwal. reflexivity.
  - intros env entries balancesMap w2 Hfetch e He.
    pose proof (upload_cases env entries w') as Hcases. rewrite Hfetch in Hcases.
    destruct Hcases as [-> _]. apply dedupByAddress_addresses. right.
    rewrite newWalletsOf_addresses. apply list_elem_of_fmap. exists e. split; [reflexivity | exact He].
Qed.

Lemma registration_unique_strings_witness :
  let w' := registerAll [(Sample.localEnv, [mkEntry Sample.addrX "A"])] Sample.world0 in
  let w'' := snd (handleUploadAddresses Sample.localEnv [mkEntry Sample.addrX "B"] w') in
  NoDup (map address (wallets w')) /\
  (exists r, List.filter (fun x => String.eqb (address x) Sample.addrX) (wallets w'') = [r] /\
             address r = Sample.addrX /\ owner r = "B") /\
  length (wallets w'') = 1%nat.
Proof.
  intros w' w''.
  assert (Hw : NoDup (map address (wallets Sample.world0))) by constructor.
  assert (Hs : forall ws, localWallets (store Sample.world0) = Some ws -> NoDup (map address ws))
    by (intros ws H; discriminate H).
  destruct (registration_unique_strings
              [(Sample.localEnv, [mkEntry Sample.addrX "A"])] Sample.world0 Hw Hs)
    as ((Hnd & _) & Hrelabel & _).
  split; [exact Hnd|].
  set (run := fetchBalancesBatch Sample.localEnv [Sample.addrX]
                (logEvent GetBlockNumber (setIsLoading true w'))).
  assert (Hfetch : run = (Val (match fst run with Val m => m | Exn => ∅ end), snd run))
    by (vm_compute; reflexivity).
  assert (Hlbl : "B" <> "") by discriminate.
  destruct (Hrelabel Sample.localEnv Sample.addrX "B" _ _ Hlbl Hfetch) as (Hone & Hlen & _).
  split; [exact Hone|]. etransitivity; [exact Hlen | vm_compute; reflexivity].
Defined.

(** C9 as stated fails on the first sentence: an address entered in mixed
    case is stored in mixed case; and the same account entered once in mixed
    case and once in lower case is stored twice. *)
Lemma mixed_case_address_counterexample :
  let w' := registerAll [(Sample.localEnv, [mkEntry Sample.addrX "A"])] Sample.world0 in
  let w'' := registerAll [(Sample.localEnv, [mkEntry (toLowerCase Sample.addrX) "B"])] w' in
  map address (wallets w') = [Sample.addrX] /\
  localWallets (store w') = Some (wallets w') /\
  toLowerCase Sample.addrX <> Sample.addrX /\
  map address (wallets w'') = [Sample.addrX; toLowerCase Sample.addrX] /\
  map owner (wallets w'') = ["A"; "B"].
Proof.
  repeat split; try (vm_compute; reflexivity). vm_compute. discriminate.
Qed.

(** * Further properties *)

Import Days.

(** ** The fold within one day and across days *)

Lemma sameDay_same_date (e : HistoricalRecord) (t t' : string) :
  calendarDate t = calendarDate t' -> sameDay e t = sameDay e t'.
Proof. unfold sameDay, calendarDate. intros ->. reflexivity. Qed.

Lemma take_pred_snoc {A} (l : list A) (x : A) :
  take (length (l ++ [x]) - 1) (l ++ [x]) = l.
Proof.
  rewrite length_app. cbn [length].
  replace (length l + 1 - 1)%nat with (length l) by lia. apply take_app_length.
Qed.

Lemma last_Some_snoc {A} (l : list A) (x : A) :
  last l = Some x -> exists l', l = l' ++ [x].
Proof.
  destruct l as [|y l] using rev_ind; [discriminate|].
  rewrite last_snoc. intros [= ->]. eauto.
Qed.

(** What the fold keeps of the old history depends on the observation's
    calendar date only; the observation goes behind it. *)
Lemma fold_history_kept (w : WalletData) (t t' : string) :
  boundedHistory w ->
  calendarDate t = calendarDate t' ->
  exists kept,
    (forall b, history (updateWalletHistory w b t) = kept ++ [mkHistoricalRecord t b]) /\
    (forall b, history (updateWalletHistory w b t') = kept ++ [mkHistoricalRecord t' b]).
Proof.
  unfold boundedHistory. intros Hlen Hday.
  destruct (last (history w)) as [e|] eqn:Hlast.
  - destruct (last_Some_snoc _ _ Hlast) as [l' Hl'].
    assert (Hn : (length (history w) = length l' + 1)%nat)
      by (rewrite Hl', length_app; reflexivity).
    destruct (sameDay e t) eqn:Hs.
    + exists l'. split; intros b; rewrite updateWalletHistory_history;
        pose proof (folded_length b t (history w)) as Hl1;
        pose proof (folded_length b t' (history w)) as Hl2;
        unfold folded in *; rewrite Hlast in *;
        rewrite <- ?(sameDay_same_date e t t' Hday) in *; rewrite Hs in *;
        rewrite bool_decide_eq_false_2 by lia;
        rewrite Hl', take_pred_snoc; reflexivity.
    + exists (if bool_decide (7 < length (history w) + 1)%nat
              then tail (history w) else history w).
      split; intros b; rewrite updateWalletHistory_history;
        pose proof (folded_length b t (history w)) as Hl1;
        pose proof (folded_length b t' (history w)) as Hl2;
        unfold folded in *; rewrite Hlast in *;
        rewrite <- ?(sameDay_same_date e t t' Hday) in *; rewrite Hs in *;
        (case_bool_decide as Hgt;
         [ rewrite bool_decide_eq_true_2 by lia;
           destruct (history w); [discriminate Hl' || (destruct l'; discriminate Hl') | reflexivity]
         | rewrite bool_decide_eq_false_2 by lia; reflexivity ]).
  - assert (Hnil : history w = []).
    { destruct (history w) as [|x l] using rev_ind; [reflexivity|].
      rewrite last_snoc in Hlast. discriminate. }
    exists []. split; intros b; rewrite updateWalletHistory_history;
      unfold folded; rewrite Hnil; reflexivity.
Qed.

(** X1. On a wallet record of the data model, a second observation on the
    same calendar date takes the place of the first: folding [b] at [t] and
    then [b'] at [t'] gives the record that folding [b'] at [t'] alone gives. *)
Theorem fold_same_day_last_wins (w : WalletData) (b b' : number) (t t' : string) :
  boundedHistory w ->
  calendarDate t = calendarDate t' ->
  updateWalletHistory (updateWalletHistory w b t) b' t' = updateWalletHistory w b' t'.
Proof.
  intros Hlen Hday.
  destruct (fold_history_kept w t t' Hlen Hday) as (kept & H1 & H2).
  pose proof (fold_length_le w b t Hlen) as Hle. unfold boundedHistory in Hle.
  apply wallet_ext; try reflexivity.
  rewrite (updateWalletHistory_history (updateWalletHistory w b t) b' t'), H2.
  pose proof (folded_length b' t' (history (updateWalletHistory w b t))) as Hfl.
  unfold folded in *. rewrite H1 in *. rewrite last_snoc in *.
  assert (Hs : sameDay (mkHistoricalRecord t b) t' = true).
  { rewrite <- (sameDay_same_date _ t t' Hday).
    apply sameDay_of_calendarDate. reflexivity. }
  rewrite Hs in *. rewrite bool_decide_eq_false_2 by lia.
  rewrite take_pred_snoc. reflexivity.
Qed.

Lemma fold_same_day_last_wins_witness :
  boundedHistory Sample.week /\
  updateWalletHistory
    (updateWalletHistory Sample.week 12%Q "2024-03-08T08:00:00.000Z")
    13%Q "2024-03-08T19:45:10.250Z"
  = updateWalletHistory Sample.week 13%Q "2024-03-08T19:45:10.250Z".
Proof.
  assert (H : boundedHistory Sample.week) by (unfold boundedHistory; simpl; lia).
  split; [exact H|].
  exact (fold_same_day_last_wins Sample.week 12%Q 13%Q "2024-03-08T08:00:00.000Z"
           "2024-03-08T19:45:10.250Z" H eq_refl).
Defined.

Lemma adjacent_snoc (l : list HistoricalRecord) (x : HistoricalRecord) :
  adjacentDaysDiffer (l ++ [x]) <->
  adjacentDaysDiffer l /\
  (forall e, last l = Some e -> calendarDate (date e) <> calendarDate (date x)).
Proof.
  induction l as [|e1 l IH].
  - cbn. split; [intros _; split; [exact I | discriminate] | intros _; split; exact I].
  - destruct l as [|e2 l].
    + cbn. split.
      * intros [H _]. split; [split; exact I|]. intros e [= <-]. exact H.
      * intros [_ H]. split; [apply H; reflexivity | split; exact I].
    + change ((e1 :: e2 :: l) ++ [x]) with (e1 :: ((e2 :: l) ++ [x])).
      change (last (e1 :: e2 :: l)) with (last (e2 :: l)).
      cbn [adjacentDaysDiffer app] in *. rewrite IH. tauto.
Qed.

Lemma adjacent_tail (l : list HistoricalRecord) :
  adjacentDaysDiffer l -> adjacentDaysDiffer (tail l).
Proof. destruct l as [|e l]; cbn; [trivial | intros [_ H]; exact H]. Qed.

(** X2. On ISO timestamps the fold keeps the history free of neighbours on
    the same calendar date: if every entry is dated by an ISO timestamp and
    no two neighbouring entries share a calendar date, the same holds after
    folding an observation with an ISO timestamp. *)
Theorem fold_keeps_days_apart (w : WalletData) (b : number) (t : string) :
  isoDated (history w) ->
  isoTimestamp t = true ->
  adjacentDaysDiffer (history w) ->
  isoDated (history (updateWalletHistory w b t)) /\
  adjacentDaysDiffer (history (updateWalletHistory w b t)).
Proof.
  unfold isoDated. intros Hiso Ht Hadj.
  rewrite updateWalletHistory_history.
  assert (Hf : Forall (fun e => isoTimestamp (date e) = true) (folded b t (history w)) /\
               adjacentDaysDiffer (folded b t (history w))).
  { unfold folded. destruct (last (history w)) as [e|] eqn:Hlast.
    - destruct (last_Some_snoc _ _ Hlast) as [l' Hl']. rewrite Hl' in *.
      apply Forall_app in Hiso. destruct Hiso as [Hiso' He].
      apply (proj1 (Forall_singleton _ _)) in He.
      apply adjacent_snoc in Hadj. destruct Hadj as [Hadj' Hprev].
      destruct (sameDay e t) eqn:Hs.
      + rewrite take_pred_snoc. split.
        * apply Forall_app. split; [exact Hiso' | apply Forall_singleton; exact Ht].
        * apply adjacent_snoc. split; [exact Hadj'|].
          intros e' He'. cbn [date].
          apply (sameDay_iso e t He Ht) in Hs. rewrite <- Hs. apply Hprev. exact He'.
      + split.
        * apply Forall_app. split; [|apply Forall_singleton; exact Ht].
          apply Forall_app. split; [exact Hiso' | apply Forall_singleton; exact He].
        * apply adjacent_snoc. split.
          -- apply adjacent_snoc. split; assumption.
          -- intros e' He'. rewrite last_snoc in He'. injection He' as <-. cbn [date].
             intros Heq. apply (sameDay_iso e t He Ht) in Heq. congruence.
    - assert (Hnil : history w = []).
      { destruct (history w) as [|x l] using rev_ind; [reflexivity|].
        rewrite last_snoc in Hlast. discriminate. }
      rewrite Hnil. cbn. split; [apply Forall_singleton; exact Ht | split; exact I]. }
  destruct Hf as [Hf1 Hf2]. case_bool_decide.
  - split; [|apply adjacent_tail; exact Hf2].
    destruct (folded b t (history w)); [exact Hf1|]. cbn. eapply Forall_cons_1. exact Hf1.
  - split; assumption.
Qed.

Lemma fold_keeps_days_apart_witness :
  adjacentDaysDiffer
    (history (updateWalletHistory Sample.week 12%Q "2024-03-07T21:00:00.000Z")) /\
  adjacentDaysDiffer
    (history (updateWalletHistory Sample.week 12%Q "2024-03-08T08:00:00.000Z")).
Proof.
  assert (Hiso : isoDated (history Sample.week))
    by (repeat constructor).
  assert (Hadj : adjacentDaysDiffer (history Sample.week))
    by (cbn; repeat split; discriminate).
  split.
  - exact (proj2 (fold_keeps_days_apart Sample.week 12%Q "2024-03-07T21:00:00.000Z"
                    Hiso eq_refl Hadj)).
  - exact (proj2 (fold_keeps_days_apart Sample.week 12%Q "2024-03-08T08:00:00.000Z"
                    Hiso eq_refl Hadj)).
Defined.

(** ** The sync, when the fetch returns *)

Import Session.

(** What a sync leaves: when the fetch throws, the notice and nothing else;
    when it returns, the folded collection, loaded and in the local cache,
    and the new timestamp. *)
Lemma sync_cases (env : Env) (currentWallets : list WalletData) (w : World) :
  currentWallets <> [] ->
  match fetchBalancesBatch env (map address currentWallets) (setIsLoading true w) with
  | (Val balancesMap, w1) =>
      let updated := syncedWallets balancesMap (nowISO env) currentWallets in
      fst (handleSyncBalances env currentWallets w) = Val tt /\
      wallets (snd (handleSyncBalances env currentWallets w)) = updated /\
      localWallets (store (snd (handleSyncBalances env currentWallets w))) = Some updated /\
      localLast (store (snd (handleSyncBalances env currentWallets w))) = Some (nowISO env) /\
      lastUpdate (snd (handleSyncBalances env currentWallets w)) = Some (nowISO env)
  | (Exn, w1) =>
      handleSyncBalances env currentWallets w
      = (Val tt, setIsLoading false (logEvent (Alert syncFailedNotice) w1))
  end.
Proof.
  intros Hne.
  destruct (fetchBalancesBatch env (map address currentWallets) (setIsLoading true w))
    as [[balancesMap|] w1] eqn:Hfetch;
    [|apply sync_aborts_on_fetch_error; assumption].
  unfold handleSyncBalances.
  rewrite bool_decide_eq_false_2 by (destruct currentWallets; [congruence | discriminate]).
  unfold bind, modify, finally, try_catch. rewrite Hfetch.
  unfold syncedWallets, setWallets, setLastUpdate, saveWallets, setLastUpdateTime, bind,
    modify, try_catch, localSetWallets, localSetLast, remoteUpsertWallets,
    remoteUpsertLast, ret, alert.
  cbn. destruct (supabase env); cbn; case_replies; cbn; repeat split; reflexivity.
Qed.

Lemma syncedWallets_lookup (m : gmap string number) (iso : string)
    (ws : list WalletData) (k : nat) :
  syncedWallets m iso ws !! k
  = (fun x => updateWalletHistory x (default (currentBalance x) (m !! address x)) iso)
      <$> ws !! k.
Proof. unfold syncedWallets. apply list_lookup_fmap. Qed.

(** X3. When every sub-call of the fetch has a result that decodes, a sync
    of a non-empty collection without repeated address strings returns
    normally and stores, at each position, the old record folded with the
    amount of the sub-call for its address (zero if that sub-call failed,
    never the previous balance) at the one timestamp of the run; the result
    is loaded, written to the local cache, and the timestamp recorded. *)
Theorem sync_stores_fetched_balances (env : Env) (currentWallets : list WalletData)
    (w : World) :
  currentWallets <> [] ->
  NoDup (map address currentWallets) ->
  (forall k, (k < length currentWallets)%nat ->
     subcallOK env (trace w) (map address currentWallets) k) ->
  let r := handleSyncBalances env currentWallets w in
  fst r = Val tt /\
  length (wallets (snd r)) = length currentWallets /\
  localWallets (store (snd r)) = Some (wallets (snd r)) /\
  localLast (store (snd r)) = Some (nowISO env) /\
  lastUpdate (snd r) = Some (nowISO env) /\
  (forall k x, currentWallets !! k = Some x ->
     exists res v,
       subcallResult env (trace w) (map address currentWallets) k = Some res /\
       valueOf res = Some v /\
       (success res = false -> v = 0%Q) /\
       wallets (snd r) !! k = Some (updateWalletHistory x v (nowISO env))).
Proof.
  intros Hne Hnd Hok r.
  pose proof (sync_cases env currentWallets w Hne) as Hcases.
  destruct (fetch_spec env (map address currentWallets) (setIsLoading true w)) as [Hfwd _].
  rewrite Hfwd in Hcases by (intros k Hk; apply Hok; rewrite length_map in Hk; exact Hk).
  destruct Hcases as (Hret & Hw & Hloc & Hlast & Hupd). fold r in Hret, Hw, Hloc, Hlast, Hupd.
  split; [exact Hret|]. split; [rewrite Hw; apply length_map|].
  split; [rewrite Hloc, Hw; reflexivity|]. split; [exact Hlast|]. split; [exact Hupd|].
  intros k x Hx.
  assert (Hk : (k < length currentWallets)%nat) by (eapply lookup_lt_Some; exact Hx).
  destruct (Hok k Hk) as (res & v & Hres & Hv). exists res, v.
  split; [exact Hres|]. split; [exact Hv|]. split.
  { intros Hfail. unfold valueOf in Hv. rewrite Hfail in Hv. congruence. }
  rewrite Hw, syncedWallets_lookup, Hx. cbn [fmap option_fmap option_map]. do 2 f_equal.
  unfold balancesFrom. cbn [trace setIsLoading].
  rewrite (fold_store1_lookup env (trace w) (map address currentWallets) 0 _ ∅ k (address x)).
  - rewrite Hres. change (Some res ≫= valueOf) with (valueOf res). rewrite Hv. reflexivity.
  - lia.
  - rewrite length_map. lia.
  - rewrite list_lookup_fmap, Hx. reflexivity.
  - intros k' Hk' Hdup.
    apply (NoDup_lookup _ k k' (address x)) in Hnd; [lia | | exact Hdup].
    rewrite list_lookup_fmap, Hx. reflexivity.
Qed.

Lemma sync_stores_fetched_balances_witness :
  let r := handleSyncBalances Sample.localEnv [Sample.week] Sample.cachedWeek in
  fst r = Val tt /\
  wallets (snd r) = [updateWalletHistory Sample.week 1%Q "2024-03-08T08:00:00.000Z"] /\
  localLast (store (snd r)) = Some "2024-03-08T08:00:00.000Z".
Proof.
  intros r.
  assert (Hne : [Sample.week] <> []) by discriminate.
  assert (Hnd : NoDup (map address [Sample.week])) by (repeat constructor; apply not_elem_of_nil).
  assert (Hok : forall k, (k < length [Sample.week])%nat ->
            subcallOK Sample.localEnv (trace Sample.cachedWeek) (map address [Sample.week]) k).
  { intros [|k] Hk; [|cbn in Hk; lia].
    exists Sample.oneDai, 1%Q. split; vm_compute; reflexivity. }
  destruct (sync_stores_fetched_balances Sample.localEnv [Sample.week] Sample.cachedWeek
              Hne Hnd Hok) as (Hret & Hlen & _ & Hlast & _ & Hrec).
  split; [exact Hret|]. split; [|exact Hlast].
  destruct (Hrec 0%nat Sample.week eq_refl) as (res & v & Hres & Hv & _ & Hk).
  vm_compute in Hres. injection Hres as <-. vm_compute in Hv. injection Hv as <-.
  fold r in Hlen, Hk. destruct (wallets (snd r)) as [|x [|y l]]; try discriminate Hlen.
  cbn in Hk. injection Hk as ->. reflexivity.
Defined.

(** ** What the handlers never do *)

Lemma syncedWallets_fields (m : gmap string number) (iso : string) (ws : list WalletData) :
  map address (syncedWallets m iso ws) = map address ws /\
  map owner (syncedWallets m iso ws) = map owner ws /\
  map initialBalance (syncedWallets m iso ws) = map initialBalance ws /\
  map initialBlock (syncedWallets m iso ws) = map initialBlock ws.
Proof.
  unfold syncedWallets. rewrite !map_map. repeat split; apply map_ext; reflexivity.
Qed.

Lemma fetch_keeps_state (env : Env) (addresses : list string) (w : World) :
  store (snd (fetchBalancesBatch env addresses w)) = store w /\
  wallets (snd (fetchBalancesBatch env addresses w)) = wallets w /\
  lastUpdate (snd (fetchBalancesBatch env addresses w)) = lastUpdate w /\
  isLoading (snd (fetchBalancesBatch env addresses w)) = isLoading w.
Proof.
  destruct (fetch_frame env addresses w) as [n Hn]. rewrite Hn. repeat split.
Qed.

(** X4. Whatever the endpoint and the remote store answer, a sync never
    adds, drops or reorders records and never changes an address, an owner,
    an initial balance or an initial block: the loaded collection afterwards
    is either the one loaded before or the synced one, record for record. *)
Theorem sync_keeps_membership (env : Env) (currentWallets : list WalletData) (w : World) :
  let w' := snd (handleSyncBalances env currentWallets w) in
  wallets w' = wallets w \/
  (map address (wallets w') = map address currentWallets /\
   map owner (wallets w') = map owner currentWallets /\
   map initialBalance (wallets w') = map initialBalance currentWallets /\
   map initialBlock (wallets w') = map initialBlock currentWallets).
Proof.
  intros w'. subst w'.
  destruct currentWallets as [|x ws] eqn:Hws; [left; reflexivity|]. rewrite <- Hws.
  assert (Hne : currentWallets <> []) by (rewrite Hws; discriminate).
  pose proof (sync_cases env currentWallets w Hne) as Hcases.
  pose proof (fetch_keeps_state env (map address currentWallets) (setIsLoading true w))
    as (_ & Hkeep & _).
  destruct (fetchBalancesBatch env (map address currentWallets) (setIsLoading true w))
    as [[balancesMap|] w1].
  - right. destruct Hcases as (_ & -> & _). apply syncedWallets_fields.
  - left. rewrite Hcases. cbn in *. exact Hkeep.
Qed.

Lemma try_catch_alert_returns (m : M unit) (msg : string) (w : World) :
  fst (try_catch m (alert msg) w) = Val tt.
Proof.
  unfold try_catch. destruct (m w) as [[[]|] w1]; reflexivity.
Qed.

(** X5. The two network handlers always settle: [handleSyncBalances] and
    [handleUploadAddresses] return normally whatever the endpoint and the
    remote store do (every error ends in the catch clause), and they leave
    the loading flag cleared; a sync of the empty collection does nothing at
    all. *)
Theorem handlers_always_settle (env : Env) (currentWallets : list WalletData)
    (newEntries : list Entry) (w : World) :
  fst (handleSyncBalances env currentWallets w) = Val tt /\
  (currentWallets <> [] -> isLoading (snd (handleSyncBalances env currentWallets w)) = false) /\
  (currentWallets = [] -> snd (handleSyncBalances env currentWallets w) = w) /\
  fst (handleUploadAddresses env newEntries w) = Val tt /\
  isLoading (snd (handleUploadAddresses env newEntries w)) = false.
Proof.
  split; [|split; [|split; [|split]]].
  - unfold handleSyncBalances. case_bool_decide; [reflexivity|].
    unfold bind at 1. unfold modify at 1. unfold finally.
    match goal with
    | |- context [try_catch ?m (alert ?msg) ?w0] =>
        pose proof (try_catch_alert_returns m msg w0) as Hret;
        destruct (try_catch m (alert msg) w0) as [res w1]
    end.
    exact Hret.
  - intros Hne. unfold handleSyncBalances.
    rewrite bool_decide_eq_false_2 by (destruct currentWallets; [congruence | discriminate]).
    unfold bind at 1. unfold modify at 1. unfold finally.
    match goal with
    | |- context [try_catch ?m (alert ?msg) ?w0] =>
        destruct (try_catch m (alert msg) w0) as [res w1]
    end.
    reflexivity.
  - intros ->. reflexivity.
  - unfold handleUploadAddresses. unfold bind at 1. unfold gets at 1.
    unfold bind at 1. unfold modify at 1. unfold finally.
    match goal with
    | |- context [try_catch ?m (alert ?msg) ?w0] =>
        pose proof (try_catch_alert_returns m msg w0) as Hret;
        destruct (try_catch m (alert msg) w0) as [res w1]
    end.
    exact Hret.
  - unfold handleUploadAddresses. unfold bind at 1. unfold gets at 1.
    unfold bind at 1. unfold modify at 1. unfold finally.
    match goal with
    | |- context [try_catch ?m (alert ?msg) ?w0] =>
        destruct (try_catch m (alert msg) w0) as [res w1]
    end.
    reflexivity.
Qed.

(** X6. When the balance fetch of an upload throws, nothing is registered:
    the handler returns normally, its last act is the notice, and the stores
    (collection and timestamp, local and remote), the loaded collection and
    the displayed timestamp are as before. *)
Theorem upload_failure_registers_nothing (env : Env) (newEntries : list Entry) (w : World) :
  fst (fetchBalancesBatch env (map entryAddress newEntries)
         (logEvent GetBlockNumber (setIsLoading true w))) = Exn ->
  let r := handleUploadAddresses env newEntries w in
  fst r = Val tt /\
  store (snd r) = store w /\
  wallets (snd r) = wallets w /\
  lastUpdate (snd r) = lastUpdate w /\
  last (trace (snd r)) = Some (Alert uploadFailedNotice).
Proof.
  intros Hexn r.
  pose proof (upload_cases env newEntries w) as Hcases.
  pose proof (fetch_keeps_state env (map entryAddress newEntries)
                (logEvent GetBlockNumber (setIsLoading true w))) as (Hs & Hw & Hl & _).
  destruct (fetchBalancesBatch env (map entryAddress newEntries)
              (logEvent GetBlockNumber (setIsLoading true w))) as [[m|] w1];
    [discriminate Hexn|].
  split.
  { unfold r, handleUploadAddresses. unfold bind at 1. unfold gets at 1.
    unfold bind at 1. unfold modify at 1. unfold finally.
    match goal with
    | |- context [try_catch ?m (alert ?msg) ?w0] =>
        pose proof (try_catch_alert_returns m msg w0) as Hret;
        destruct (try_catch m (alert msg) w0) as [res w2]
    end.
    exact Hret. }
  subst r. rewrite Hcases. cbn in *. repeat split; try assumption. apply last_snoc.
Qed.

Lemma upload_failure_registers_nothing_witness :
  store (snd (handleUploadAddresses Sample.downEnv [mkEntry Sample.addrX "A"] Sample.cachedWeek))
    = store Sample.cachedWeek /\
  wallets (snd (handleUploadAddresses Sample.downEnv [mkEntry Sample.addrX "A"] Sample.cachedWeek))
    = wallets Sample.cachedWeek.
Proof.
  assert (Hexn : fst (fetchBalancesBatch Sample.downEnv (map entryAddress [mkEntry Sample.addrX "A"])
                        (logEvent GetBlockNumber (setIsLoading true Sample.cachedWeek))) = Exn)
    by (vm_compute; reflexivity).
  destruct (upload_failure_registers_nothing Sample.downEnv [mkEntry Sample.addrX "A"]
              Sample.cachedWeek Hexn) as (_ & Hs & Hw & _).
  split; [exact Hs | exact Hw].
Defined.

(** ** What an upload registers *)

Lemma jsmap_set_filter_other (X : string) (x : WalletData) (m : list (string * WalletData)) :
  address x <> X -> keyed m ->
  List.filter (fun r => String.eqb (address r) X) (jsmap_values (jsmap_set (address x) x m))
  = List.filter (fun r => String.eqb (address r) X) (jsmap_values m).
Proof.
  intros Hne. unfold keyed, jsmap_values.
  assert (Hx : String.eqb (address x) X = false) by (apply String.eqb_neq; exact Hne).
  induction 1 as [|[k v] m Hkv _ IH]; cbn [jsmap_set map snd List.filter].
  - rewrite Hx. reflexivity.
  - cbn [fst snd] in Hkv. destruct (String.eqb k (address x)) eqn:Hk.
    + apply String.eqb_eq in Hk. cbn [map snd List.filter].
      rewrite Hx. rewrite <- Hkv, Hk, Hx. reflexivity.
    + cbn [map snd List.filter]. rewrite IH. reflexivity.
Qed.

Lemma fold_set_filter_other (X : string) (news : list WalletData)
    (m : list (string * WalletData)) :
  Forall (fun x => address x <> X) news -> keyed m ->
  List.filter (fun r => String.eqb (address r) X)
    (jsmap_values (fold_left (fun m w => jsmap_set (address w) w m) news m))
  = List.filter (fun r => String.eqb (address r) X) (jsmap_values m).
Proof.
  intros Hall. revert m. induction Hall as [|x news Hx _ IH]; intros m Hk; [reflexivity|].
  cbn [fold_left]. rewrite IH by (apply jsmap_set_keyed; exact Hk).
  apply jsmap_set_filter_other; assumption.
Qed.

(** Of the records set under one address string, the last one stays. *)
Lemma dedupByAddress_last_wins (ws news : list WalletData) (i : nat) (x : WalletData) :
  news !! i = Some x ->
  (forall i' y, (i < i')%nat -> news !! i' = Some y -> address y <> address x) ->
  List.filter (fun r => String.eqb (address r) (address x)) (dedupByAddress ws news) = [x].
Proof.
  intros Hi Hlater. unfold dedupByAddress.
  rewrite <- (take_drop_middle news i x Hi), fold_left_app. cbn [fold_left].
  destruct (fold_set_invariant ws []) as [Hnd Hk]; [constructor | constructor |].
  destruct (fold_set_invariant (take i news) _ Hnd Hk) as [Hnd1 Hk1].
  rewrite fold_set_filter_other.
  - apply jsmap_set_filter; [reflexivity | exact Hnd1 | exact Hk1].
  - apply Forall_forall. intros y Hy. apply list_elem_of_lookup in Hy.
    destruct Hy as [j Hj]. rewrite lookup_drop in Hj.
    apply (Hlater (S i + j)%nat y); [lia | exact Hj].
  - apply jsmap_set_keyed. exact Hk1.
Qed.

(** X7. After an upload whose fetch returned, exactly one stored record
    carries the address string of an entry, and it is the one built from the
    last entry with that address: owner the entry's label (or, for an empty
    label, "Wallet #" and the count of old records plus the entry's position
    plus one), initial and current balance the fetched amount (zero if the
    map has none), initial block the reported height (zero if the call for
    it threw), and a history of the single observation. *)
Theorem upload_seeds_records (env : Env) (newEntries : list Entry) (w w2 : World)
    (balancesMap : gmap string number) :
  fetchBalancesBatch env (map entryAddress newEntries)
    (logEvent GetBlockNumber (setIsLoading true w)) = (Val balancesMap, w2) ->
  forall i e,
    newEntries !! i = Some e ->
    (forall i' e', (i < i')%nat -> newEntries !! i' = Some e' ->
                   entryAddress e' <> entryAddress e) ->
    List.filter (fun r => String.eqb (address r) (entryAddress e))
      (wallets (snd (handleUploadAddresses env newEntries w)))
    = [ {| address := entryAddress e;
           owner := if truthy (label e) then label e
                    else String.append "Wallet #" (natToString (length (wallets w) + i + 1));
           initialBalance := default 0%Q (balancesMap !! entryAddress e);
           initialBlock := default 0 (getBlockNumber env (trace w));
           currentBalance := default 0%Q (balancesMap !! entryAddress e);
           lastUpdated := nowISO env;
           history := [mkHistoricalRecord (nowISO env)
                         (default 0%Q (balancesMap !! entryAddress e))] |} ].
Proof.
  intros Hfetch i e Hi Hlater.
  pose proof (upload_cases env newEntries w) as Hcases. rewrite Hfetch in Hcases.
  destruct Hcases as [-> _].
  match goal with |- _ = [?x0] => set (x := x0) end.
  change (entryAddress e) with (address x).
  apply (dedupByAddress_last_wins _ _ i).
  - unfold newWalletsOf. rewrite list_lookup_imap, Hi. reflexivity.
  - intros i' y Hlt Hy. unfold newWalletsOf in Hy. rewrite list_lookup_imap in Hy.
    destruct (newEntries !! i') as [e'|] eqn:He'; [|discriminate].
    cbn in Hy. injection Hy as <-. cbn [address]. subst x. cbn [address].
    apply (Hlater i' e' Hlt He').
Qed.

Lemma upload_seeds_records_witness :
  List.filter (fun r => String.eqb (address r) Sample.addrX)
    (wallets (snd (handleUploadAddresses Sample.localEnv [mkEntry Sample.addrX ""]
                     Sample.cachedWeek)))
  = [ {| address := Sample.addrX; owner := "Wallet #1";
         initialBalance := 1%Q; initialBlock := 54000000;
         currentBalance := 1%Q; lastUpdated := "2024-03-08T08:00:00.000Z";
         history := [mkHistoricalRecord "2024-03-08T08:00:00.000Z" 1%Q] |} ].
Proof.
  set (run := fetchBalancesBatch Sample.localEnv (map entryAddress [mkEntry Sample.addrX ""])
                (logEvent GetBlockNumber (setIsLoading true Sample.cachedWeek))).
  assert (Hfetch : run = (Val (match fst run with Val m => m | Exn => ∅ end), snd run))
    by (vm_compute; reflexivity).
  assert (Hlater : forall i' e', (0 < i')%nat ->
            [mkEntry Sample.addrX ""] !! i' = Some e' ->
            entryAddress e' <> entryAddress (mkEntry Sample.addrX ""))
    by (intros [|i'] e' Hlt He'; [lia | discriminate He']).
  pose proof (upload_seeds_records Sample.localEnv [mkEntry Sample.addrX ""]
                Sample.cachedWeek _ _ Hfetch 0%nat (mkEntry Sample.addrX "") eq_refl Hlater)
    as H.
  etransitivity; [exact H | vm_compute; reflexivity].
Defined.

(** ** Deleting, purging, and whole sessions *)

Lemma saveWallets_frame (env : Env) (ws : list WalletData) (w : World) :
  localWallets (store (snd (saveWallets env ws w))) = Some ws /\
  localLast (store (snd (saveWallets env ws w))) = localLast (store w) /\
  remoteLast (store (snd (saveWallets env ws w))) = remoteLast (store w) /\
  wallets (snd (saveWallets env ws w)) = wallets w /\
  lastUpdate (snd (saveWallets env ws w)) = lastUpdate w.
Proof.
  unfold saveWallets, bind, localSetWallets, modify, try_catch, remoteUpsertWallets, ret.
  cbn. destruct (supabase env); cbn; case_replies; repeat split.
Qed.

Lemma delete_cases (confirmed : bool) (env : Env) (addr : string) (w : World) :
  if confirmed then
    wallets (snd (handleDeleteWallet true env addr w))
      = List.filter (fun r => negb (String.eqb (address r) addr)) (wallets w) /\
    localWallets (store (snd (handleDeleteWallet true env addr w)))
      = Some (List.filter (fun r => negb (String.eqb (address r) addr)) (wallets w)) /\
    localLast (store (snd (handleDeleteWallet true env addr w))) = localLast (store w) /\
    lastUpdate (snd (handleDeleteWallet true env addr w)) = lastUpdate w
  else handleDeleteWallet false env addr w = (Val tt, w).
Proof.
  destruct confirmed; [|reflexivity].
  unfold handleDeleteWallet, bind, gets, setWallets, modify. cbn [negb fst snd wallets].
  match goal with
  | |- context [saveWallets env ?ws ?w0] =>
      pose proof (saveWallets_frame env ws w0) as (H1 & H2 & _ & H4 & H5)
  end.
  repeat split; assumption.
Qed.

Lemma purge_cases (env : Env) (w : World) :
  wallets (snd (handlePurge true env w)) = [] /\
  localWallets (store (snd (handlePurge true env w))) = Some [] /\
  localLast (store (snd (handlePurge true env w))) = Some "" /\
  lastUpdate (snd (handlePurge true env w)) = None.
Proof.
  unfold handlePurge, setWallets, setLastUpdate, saveWallets, setLastUpdateTime, bind,
    modify, try_catch, localSetWallets, localSetLast, remoteUpsertWallets,
    remoteUpsertLast, ret.
  cbn. destruct (supabase env); cbn; case_replies; cbn; repeat split; reflexivity.
Qed.

Lemma NoDup_map_filter {A B} (f : A -> B) (p : A -> bool) (l : list A) :
  NoDup (map f l) -> NoDup (map f (List.filter p l)).
Proof.
  induction l as [|x l IH]; cbn [map List.filter]; intros Hnd; [exact Hnd|].
  apply NoDup_cons in Hnd. destruct Hnd as [Hnot Hnd].
  destruct (p x); [|apply IH; exact Hnd].
  cbn [map]. apply NoDup_cons. split; [|apply IH; exact Hnd].
  intros Hin. apply Hnot. apply list_elem_of_fmap in Hin. destruct Hin as (y & Hy & Hin).
  apply list_elem_of_fmap. exists y. split; [exact Hy|].
  apply list_elem_of_In. apply list_elem_of_In in Hin. apply List.filter_In in Hin. tauto.
Qed.

Lemma jsmap_set_values_incl {V} (k : string) (v x : V) (m : list (string * V)) :
  x ∈ jsmap_values (jsmap_set k v m) -> x = v \/ x ∈ jsmap_values m.
Proof.
  unfold jsmap_values. induction m as [|[k' v'] m IH]; cbn [jsmap_set map snd].
  - intros Hin. apply list_elem_of_singleton in Hin. left. exact Hin.
  - destruct (String.eqb k' k); cbn [map snd]; rewrite !elem_of_cons.
    + tauto.
    + intros [-> | Hin]; [right; left; reflexivity|].
      destruct (IH Hin) as [-> | Hin']; [left; reflexivity | right; right; exact Hin'].
Qed.

Lemma dedupByAddress_incl (ws news : list WalletData) (x : WalletData) :
  x ∈ dedupByAddress ws news -> x ∈ ws \/ x ∈ news.
Proof.
  unfold dedupByAddress.
  assert (Hgen : forall l m, x ∈ jsmap_values
                   (fold_left (fun m w => jsmap_set (address w) w m) l m) ->
                 x ∈ l \/ x ∈ jsmap_values m).
  { induction l as [|y l IH]; intros m Hin; [right; exact Hin|].
    cbn [fold_left] in Hin. destruct (IH _ Hin) as [Hl | Hm].
    - left. apply list_elem_of_further. exact Hl.
    - destruct (jsmap_set_values_incl _ _ _ _ Hm) as [-> | Hm'].
      + left. apply list_elem_of_here.
      + right. exact Hm'. }
  intros Hin. destruct (Hgen _ _ Hin) as [Hn | Hm]; [right; exact Hn|].
  destruct (Hgen _ _ Hm) as [Hw | Hnil]; [left; exact Hw|].
  cbn in Hnil. apply not_elem_of_nil in Hnil. contradiction.
Qed.

Lemma newWalletsOf_fresh (ws : list WalletData) (blk : Z) (m : gmap string number)
    (iso : string) (entries : list Entry) (x : WalletData) :
  x ∈ newWalletsOf ws blk m iso entries -> boundedHistory x /\ refreshed x.
Proof.
  intros Hin. apply list_elem_of_lookup in Hin. destruct Hin as [i Hi].
  unfold newWalletsOf in Hi. rewrite list_lookup_imap in Hi.
  destruct (entries !! i) as [e|]; [|discriminate]. cbn in Hi. injection Hi as <-.
  split; [unfold boundedHistory; cbn; lia | reflexivity].
Qed.

Lemma fold_refreshed (w : WalletData) (b : number) (t : string) :
  refreshed (updateWalletHistory w b t).
Proof. unfold refreshed. apply fold_last. Qed.

Lemma act_keeps_order (a : Action) (w : World) : inOrder w -> inOrder (snd (act a w)).
Proof.
  intros (Hnd & Hall & Hcache). destruct a as [env | env entries | confirmed env addr | confirmed env];
    cbn [act].
  - (* sync *)
    unfold bind, gets. cbn [fst snd].
    destruct (decide (wallets w = [])) as [Hnil | Hne].
    { replace (snd (handleSyncBalances env (wallets w) w)) with w
        by (rewrite Hnil; reflexivity).
      repeat split; assumption. }
    pose proof (sync_cases env (wallets w) w Hne) as Hcases.
    pose proof (fetch_keeps_state env (map address (wallets w)) (setIsLoading true w))
      as (Hs & Hw & _).
    destruct (fetchBalancesBatch env (map address (wallets w)) (setIsLoading true w))
      as [[m|] w1].
    + destruct Hcases as (_ & Hw' & Hloc & _). unfold inOrder. rewrite Hloc, Hw'.
      split; [|split; [|reflexivity]].
      * destruct (syncedWallets_fields m (nowISO env) (wallets w)) as [-> _]. exact Hnd.
      * unfold syncedWallets. apply Forall_forall. intros r Hr.
        apply list_elem_of_fmap in Hr. destruct Hr as (x & -> & Hx).
        rewrite Forall_forall in Hall. destruct (Hall x Hx) as [Hb _].
        split; [apply fold_length_le; exact Hb | apply fold_refreshed].
    + rewrite Hcases. cbn in *. unfold inOrder. cbn. rewrite Hs, Hw.
      repeat split; assumption.
  - (* upload *)
    pose proof (upload_cases env entries w) as Hcases.
    pose proof (fetch_keeps_state env (map entryAddress entries)
                  (logEvent GetBlockNumber (setIsLoading true w))) as (Hs & Hw & _).
    destruct (fetchBalancesBatch env (map entryAddress entries)
                (logEvent GetBlockNumber (setIsLoading true w))) as [[m|] w1].
    + destruct Hcases as [Hw' Hloc]. unfold inOrder. rewrite Hloc, Hw'.
      split; [apply dedupByAddress_NoDup|]. split; [|reflexivity].
      apply Forall_forall. intros r Hr. destruct (dedupByAddress_incl _ _ _ Hr) as [Hold | Hnew].
      * rewrite Forall_forall in Hall. apply Hall. exact Hold.
      * eapply newWalletsOf_fresh. exact Hnew.
    + rewrite Hcases. cbn in *. unfold inOrder. cbn. rewrite Hs, Hw.
      repeat split; assumption.
  - (* delete *)
    pose proof (delete_cases confirmed env addr w) as Hcases. destruct confirmed.
    + destruct Hcases as (Hw' & Hloc & _). unfold inOrder. rewrite Hloc, Hw'.
      split; [apply NoDup_map_filter; exact Hnd|]. split; [|reflexivity].
      apply Forall_forall. intros r Hr. rewrite Forall_forall in Hall. apply Hall.
      apply list_elem_of_In. apply list_elem_of_In in Hr. apply List.filter_In in Hr. tauto.
    + rewrite Hcases. repeat split; assumption.
  - (* purge *)
    destruct confirmed; [|repeat split; assumption].
    destruct (purge_cases env w) as (Hw' & Hloc & _). unfold inOrder. rewrite Hloc, Hw'.
    repeat split; constructor.
Qed.

(** X8. Whatever a user does on a page in order (syncing, uploading,
    deleting, purging, confirmed or not) and whatever the endpoint and the
    remote store answer, the page stays in order: no address string occurs
    twice, every record has at most seven history entries the last of which
    carries its current balance and last-updated timestamp, and the local
    cache holds the loaded collection. *)
Theorem session_keeps_order (acts : list Action) (w : World) :
  inOrder w -> inOrder (session acts w).
Proof.
  revert w. induction acts as [|a acts IH]; intros w Hw; [exact Hw|].
  cbn [session]. apply IH. apply act_keeps_order. exact Hw.
Qed.

Lemma session_keeps_order_witness :
  inOrder (session [Upload Sample.localEnv [mkEntry Sample.addrX "A"; mkEntry Sample.addrA ""];
                    SyncNow Sample.localEnv;
                    Delete true Sample.localEnv Sample.addrA;
                    Upload Sample.downEnv [mkEntry Sample.addrB "B"]]
             Sample.world0).
Proof.
  apply session_keeps_order. repeat split; constructor.
Defined.

(** ** Loading and saving, composed *)

(** The load when the fetch of the remote collection is answered, field by
    field. *)
Lemma load_served (env : Env) (w : World) :
  supabase env = true ->
  remoteReply env (trace w) = Served ->
  let R := default [] (remoteWallets (store w)) in
  let L := default [] (localWallets (store w)) in
  let appended := List.filter (absentFrom R) L in
  let r := getWallets env w in
  fst r = Val (R ++ appended) /\
  localWallets (store (snd r)) = Some (R ++ appended) /\
  remoteWallets (store (snd r)) =
    (if bool_decide (appended = []) then remoteWallets (store w)
     else match remoteReply env
                  (trace w ++ [RemoteSelectWallets; LocalSetWallets (R ++ appended)]) with
          | Served => Some (R ++ appended)
          | _ => remoteWallets (store w)
          end) /\
  trace (snd r) =
    trace w ++ RemoteSelectWallets ::
      (if bool_decide (appended = []) then []
       else [LocalSetWallets (R ++ appended); RemoteUpsertWallets (R ++ appended)]) ++
      [LocalSetWallets (R ++ appended)] /\
  localLast (store (snd r)) = localLast (store w) /\
  remoteLast (store (snd r)) = remoteLast (store w) /\
  wallets (snd r) = wallets w /\ lastUpdate (snd r) = lastUpdate w /\
  isLoading (snd r) = isLoading w.
Proof.
  intros Hsup Hserved R L appended r. subst r appended L.
  unfold getWallets. rewrite Hsup.
  unfold try_catch, bind, remoteSelectWallets, localGetWallets, gets. rewrite Hserved.
  cbn [store trace logEvent setStore fst snd].
  fold R. generalize R. clear R. intros R.
  destruct (localWallets (store w)) as [L|] eqn:HL; cbn [from_option]; unfold id.
  - case_bool_decide as Hlen.
    + rewrite mergeLocal_reconciled. unfold reconciled.
      destruct (List.filter (absentFrom R) L) as [|x xs] eqn:Hf.
      * rewrite bool_decide_eq_true_2 by reflexivity. cbn.
        rewrite <- app_assoc. repeat split.
      * rewrite (bool_decide_eq_false_2 (x :: xs = [])) by (intros ?; discriminate).
        cbn [negb]. unfold saveWallets, bind, localSetWallets, modify, try_catch,
          remoteUpsertWallets, ret. rewrite Hsup.
        cbn [store trace logEvent setStore fst snd localWallets localLast remoteWallets
             remoteLast wallets lastUpdate isLoading].
        rewrite <- !app_assoc. cbn [app].
        destruct (remoteReply env
                    (trace w ++ [RemoteSelectWallets; LocalSetWallets (R ++ x :: xs)]));
          cbn; rewrite <- ?app_assoc; repeat split.
    + destruct L; [|cbn in Hlen; lia]. cbn. rewrite app_nil_r, <- app_assoc.
      repeat split.
  - cbn. rewrite app_nil_r, <- app_assoc. repeat split.
Qed.

Lemma absentFrom_self (R : list WalletData) (x : WalletData) :
  x ∈ R -> absentFrom R x = false.
Proof.
  intros Hin. unfold absentFrom. rewrite bool_decide_eq_true_2; [reflexivity|].
  apply list_elem_of_fmap. exists x. split; [reflexivity | exact Hin].
Qed.

Lemma filter_absent_self (R L : list WalletData) :
  (forall x, x ∈ L -> x ∈ R) -> List.filter (absentFrom R) L = [].
Proof.
  induction L as [|y L IH]; intros Hsub; [reflexivity|].
  cbn [List.filter]. rewrite absentFrom_self by (apply Hsub; apply list_elem_of_here).
  apply IH. intros x Hx. apply Hsub. apply list_elem_of_further. exact Hx.
Qed.

Lemma filter_filter_same {A} (p : A -> bool) (l : list A) :
  List.filter p (List.filter p l) = List.filter p l.
Proof.
  induction l as [|x l IH]; [reflexivity|]. cbn [List.filter].
  destruct (p x) eqn:Hp; [|exact IH]. cbn [List.filter]. rewrite Hp, IH. reflexivity.
Qed.

(** X9. With the remote store answering, a second load returns what the
    first load returned: loading is idempotent in its result, also when the
    write-back of the first load was refused. *)
Theorem load_twice_same_result (env env' : Env) (w : World) :
  supabase env = true -> supabase env' = true ->
  remoteReply env (trace w) = Served ->
  remoteReply env' (trace (snd (getWallets env w))) = Served ->
  fst (getWallets env' (snd (getWallets env w))) = fst (getWallets env w).
Proof.
  intros Hsup Hsup' Hs Hs'.
  destruct (load_served env w Hsup Hs) as (Hret & Hloc & Hrem & _).
  destruct (load_served env' (snd (getWallets env w)) Hsup' Hs') as (Hret' & _).
  rewrite Hret', Hret, Hloc. clear Hret' Hret Hloc. f_equal.
  change (default [] (Some ?x)) with x.
  set (R := default [] (remoteWallets (store w))) in *.
  set (L := default [] (localWallets (store w))) in *.
  set (appended := List.filter (absentFrom R) L) in *.
  assert (Hself : List.filter (absentFrom (R ++ appended)) (R ++ appended) = [])
    by (apply filter_absent_self; auto).
  assert (Hagain : List.filter (absentFrom R) (R ++ appended) = appended).
  { rewrite List.filter_app, (filter_absent_self R R) by auto.
    subst appended. cbn [app]. apply filter_filter_same. }
  assert (HR' : default [] (remoteWallets (store (snd (getWallets env w)))) = R \/
                default [] (remoteWallets (store (snd (getWallets env w)))) = R ++ appended).
  { rewrite Hrem. case_bool_decide; [left; reflexivity|].
    case_replies; [right; reflexivity | left; reflexivity | left; reflexivity]. }
  destruct HR' as [-> | ->].
  - rewrite Hagain. reflexivity.
  - rewrite Hself. apply app_nil_r.
Qed.

Lemma load_twice_same_result_witness :
  fst (getWallets Sample.cloudEnv (snd (getWallets Sample.cloudEnv Sample.twoCopies)))
  = Val [Sample.walletA; Sample.walletB; Sample.walletC].
Proof.
  etransitivity.
  - exact (load_twice_same_result Sample.cloudEnv Sample.cloudEnv Sample.twoCopies
             eq_refl eq_refl eq_refl eq_refl).
  - vm_compute. reflexivity.
Defined.

(** X10. What is saved is what the next load returns: in local mode, and in
    cloud mode when the upsert of the save and the fetch of the load are
    served; the load then writes nothing back to the remote store. *)
Theorem save_then_load (env env' : Env) (ws : list WalletData) (w : World) :
  supabase env' = supabase env ->
  (supabase env = true ->
   remoteReply env (trace w ++ [LocalSetWallets ws]) = Served /\
   remoteReply env' (trace w ++ [LocalSetWallets ws; RemoteUpsertWallets ws]) = Served) ->
  let w1 := snd (saveWallets env ws w) in
  fst (getWallets env' w1) = Val ws /\
  localWallets (store (snd (getWallets env' w1))) = Some ws /\
  Forall (fun e => forall x, e <> RemoteUpsertWallets x)
    (drop (length (trace w1)) (trace (snd (getWallets env' w1)))).
Proof.
  intros Hflag Hreplies w1. subst w1.
  destruct (supabase env) eqn:Hsup.
  - destruct (Hreplies eq_refl) as [Hup Hsel].
    assert (Hw1 : snd (saveWallets env ws w)
                  = mkWorld (mkStore (Some ws) (localLast (store w)) (Some ws)
                               (remoteLast (store w)))
                      (trace w ++ [LocalSetWallets ws; RemoteUpsertWallets ws])
                      (wallets w) (lastUpdate w) (isLoading w)).
    { unfold saveWallets, bind, localSetWallets, modify, try_catch, remoteUpsertWallets, ret.
      rewrite Hsup. cbn. rewrite Hup. unfold setStore, logEvent. cbn.
      rewrite <- app_assoc. reflexivity. }
    rewrite Hw1.
    match goal with |- context [getWallets env' ?w0] => set (w1 := w0) end.
    destruct (load_served env' w1 Hflag Hsel) as (Hret & Hloc & _ & Htr & _).
    cbn [w1 store trace remoteWallets localWallets from_option] in Hret, Hloc, Htr.
    unfold id in *. rewrite (filter_absent_self ws ws) in * by auto.
    rewrite app_nil_r in *. rewrite bool_decide_eq_true_2 in Htr by reflexivity.
    split; [exact Hret|]. split; [exact Hloc|].
    rewrite Htr. cbn [w1 trace]. rewrite drop_app_length.
    repeat constructor; discriminate.
  - unfold saveWallets, getWallets, bind, localSetWallets, localGetWallets, gets, modify, ret.
    rewrite Hflag, Hsup. cbn. rewrite drop_all. repeat split. constructor.
Qed.

Lemma save_then_load_witness :
  fst (getWallets Sample.cloudEnv
         (snd (saveWallets Sample.cloudEnv [Sample.walletA; Sample.walletC] Sample.twoCopies)))
  = Val [Sample.walletA; Sample.walletC].
Proof.
  refine (proj1 (save_then_load Sample.cloudEnv Sample.cloudEnv
                   [Sample.walletA; Sample.walletC] Sample.twoCopies eq_refl _)).
  intros _. split; reflexivity.
Defined.

(** X11. A load with the remote store answering loses no address: every
    remote record is in the result, in place, and for every local record the
    result holds a record with the same address up to case; and if neither
    collection holds an address twice up to case, neither does the result. *)
Theorem load_loses_no_address (env : Env) (w : World) (loaded : list WalletData) :
  supabase env = true ->
  remoteReply env (trace w) = Served ->
  fst (getWallets env w) = Val loaded ->
  let R := default [] (remoteWallets (store w)) in
  let L := default [] (localWallets (store w)) in
  take (length R) loaded = R /\
  (forall l, l ∈ L ->
     exists x, x ∈ loaded /\ toLowerCase (address x) = toLowerCase (address l)) /\
  (NoDup (map (fun x => toLowerCase (address x)) R) ->
   NoDup (map (fun x => toLowerCase (address x)) L) ->
   NoDup (map (fun x => toLowerCase (address x)) loaded)).
Proof.
  intros Hsup Hs Hloaded R L.
  destruct (load_served env w Hsup Hs) as (Hret & _). fold R L in Hret.
  rewrite Hret in Hloaded. injection Hloaded as <-.
  split; [apply take_app_length|]. split.
  - intros l Hl. destruct (absentFrom R l) eqn:Habs.
    + exists l. split; [|reflexivity]. apply elem_of_app. right.
      apply list_elem_of_In, List.filter_In. split; [apply list_elem_of_In; exact Hl | exact Habs].
    + unfold absentFrom in Habs. apply negb_false_iff, bool_decide_eq_true in Habs.
      apply list_elem_of_fmap in Habs. destruct Habs as (x & Hx & Hin).
      exists x. split; [apply elem_of_app; left; exact Hin | symmetry; exact Hx].
  - intros HR HL. rewrite map_app. apply NoDup_app. split; [exact HR|]. split.
    + intros k HkR HkA. apply list_elem_of_fmap in HkA. destruct HkA as (l & -> & Hl).
      apply list_elem_of_In, List.filter_In in Hl. destruct Hl as [_ Habs].
      unfold absentFrom in Habs. apply negb_true_iff, bool_decide_eq_false in Habs.
      contradiction.
    + apply NoDup_map_filter. exact HL.
Qed.

Lemma load_loses_no_address_witness :
  exists x, x ∈ [Sample.walletA; Sample.walletB; Sample.walletC] /\
            toLowerCase (address x) = toLowerCase (address Sample.staleB).
Proof.
  refine (proj1 (proj2 (load_loses_no_address Sample.cloudEnv Sample.twoCopies
                          [Sample.walletA; Sample.walletB; Sample.walletC]
                          eq_refl eq_refl _)) Sample.staleB _).
  - vm_compute. reflexivity.
  - apply list_elem_of_here.
Defined.

(** X12. When the fetch of the remote collection throws, the load degrades
    to the local cache: it returns the cached collection (the empty one if
    nothing is cached), writes nothing, and its only act is the attempted
    fetch. *)
Theorem load_falls_back_to_cache (env : Env) (w : World) :
  supabase env = true ->
  remoteReply env (trace w) = Threw ->
  getWallets env w
  = (Val (default [] (localWallets (store w))), logEvent RemoteSelectWallets w).
Proof.
  intros Hsup Hthrew. unfold getWallets. rewrite Hsup.
  unfold try_catch, bind, remoteSelectWallets, localGetWallets, gets, ret.
  rewrite Hthrew. reflexivity.
Qed.

Lemma load_falls_back_to_cache_witness :
  fst (getWallets (Sample.envOf true (fun _ => Threw) (fun _ => None)) Sample.twoCopies)
  = Val [Sample.staleB; Sample.walletC].
Proof.
  rewrite (load_falls_back_to_cache (Sample.envOf true (fun _ => Threw) (fun _ => None))
             Sample.twoCopies eq_refl eq_refl).
  reflexivity.
Defined.

(** ** The last-sync timestamp *)

Import Runs.

(** X13. The timestamp that is set is the timestamp that is read back: in
    local mode, and in cloud mode when the upsert and the select are served;
    setting it then returns normally. *)
Theorem timestamp_round_trip (env env' : Env) (iso : string) (w : World) :
  iso <> "" ->
  supabase env' = supabase env ->
  (supabase env = true ->
   remoteReply env (trace w ++ [LocalSetLast iso]) = Served /\
   remoteReply env' (trace w ++ [LocalSetLast iso; RemoteUpsertLast iso]) = Served) ->
  fst (setLastUpdateTime env iso w) = Val tt /\
  fst (getLastUpdateTime env' (snd (setLastUpdateTime env iso w))) = Val (Some iso).
Proof.
  intros Hiso Hflag Hreplies.
  assert (Ht : truthy iso = true).
  { unfold truthy. apply negb_true_iff. apply String.eqb_neq. exact Hiso. }
  unfold setLastUpdateTime, getLastUpdateTime, bind, localSetLast, localGetLast, modify,
    gets, try_catch, remoteUpsertLast, remoteSelectLast, ret, orNull.
  rewrite Hflag. destruct (supabase env).
  - destruct (Hreplies eq_refl) as [Hup Hsel]. cbn. rewrite Hup. cbn.
    rewrite <- app_assoc. cbn [app]. rewrite Hsel. cbn. rewrite Ht. split; reflexivity.
  - cbn. split; reflexivity.
Qed.

Lemma timestamp_round_trip_witness :
  fst (getLastUpdateTime Sample.cloudEnv
         (snd (setLastUpdateTime Sample.cloudEnv "2024-03-08T08:00:00.000Z" Sample.twoCopies)))
  = Val (Some "2024-03-08T08:00:00.000Z").
Proof.
  refine (proj2 (timestamp_round_trip Sample.cloudEnv Sample.cloudEnv
                   "2024-03-08T08:00:00.000Z" Sample.twoCopies _ eq_refl _)).
  - discriminate.
  - intros _. split; reflexivity.
Defined.

(** X14. In cloud mode an error response to the read of the last-sync
    timestamp counts as "no timestamp", whatever the local cache and the
    remote row hold (only a thrown error falls back to the local value); the
    start-up effect then loads the collection and refreshes nothing. *)
Theorem start_skips_refresh_on_error_response (env : Env) (w : World) :
  supabase env = true ->
  remoteReply env (trace (snd (getWallets env w))) = Rejected ->
  exists loaded w1,
    getWallets env w = (Val loaded, w1) /\
    fst (getLastUpdateTime env w1) = Val None /\
    initData env w
    = (Val tt, mkWorld (store w1) (trace w1 ++ [RemoteSelectLast]) loaded None (isLoading w1)).
Proof.
  intros Hsup Hrej.
  destruct (getWallets_total env w) as (loaded & w1 & Hload). rewrite Hload in Hrej.
  cbn [snd] in Hrej. exists loaded, w1. split; [exact Hload|].
  unfold initData, getLastUpdateTime, bind, try_catch, remoteSelectLast, ret.
  rewrite Hload, Hsup. cbn. rewrite Hrej. cbn. split; reflexivity.
Qed.

Lemma start_skips_refresh_on_error_response_witness :
  let env := Sample.envOf true
               (fun tr => match tr with [] => Served | _ => Rejected end)
               (fun calls => Some (map (fun _ => Sample.oneDai) calls)) in
  trace (snd (initData env Sample.staleCache))
  = [RemoteSelectWallets; LocalSetWallets [Sample.walletA; Sample.walletB]; RemoteSelectLast].
Proof.
  intros env.
  destruct (start_skips_refresh_on_error_response env Sample.staleCache eq_refl eq_refl)
    as (loaded & w1 & Hload & _ & Hinit).
  rewrite Hinit. cbn [snd trace].
  assert (Hw1 : w1 = snd (getWallets env Sample.staleCache)) by (rewrite Hload; reflexivity).
  rewrite Hw1. vm_compute. reflexivity.
Defined.

(** ** Purging and deleting, then loading *)

(** X15. After a confirmed purge with the remote store answering (or none
    configured), the next start loads the empty collection, finds no usable
    timestamp and refreshes nothing: it issues no aggregator request. *)
Theorem purge_then_start (env env' : Env) (w : World) :
  supabase env' = supabase env ->
  (forall tr, remoteReply env tr = Served) ->
  (forall tr, remoteReply env' tr = Served) ->
  let w' := snd (initData env' (snd (handlePurge true env w))) in
  wallets w' = [] /\
  lastUpdate w' = (if supabase env then None else Some "") /\
  localWallets (store w') = Some [] /\
  Forall (fun e => forall calls, e <> Aggregate3 calls)
    (drop (length (trace w)) (trace w')).
Proof.
  intros Hflag Hs Hs' w'. subst w'.
  unfold initData, handlePurge, getWallets, getLastUpdateTime, handleSyncBalances, autoSyncDue,
    setWallets, setLastUpdate, saveWallets, setLastUpdateTime, bind, modify, gets, try_catch,
    localSetWallets, localSetLast, localGetWallets, localGetLast, remoteUpsertWallets,
    remoteUpsertLast, remoteSelectWallets, remoteSelectLast, ret, orNull.
  rewrite Hflag.
  destruct (supabase env);
    repeat first
      [ progress cbn
      | rewrite Hs
      | rewrite Hs'
      | match goal with
        | |- context [@bool_decide ?P ?d] => destruct (@bool_decide P d)
        end ];
    rewrite <- ?app_assoc; rewrite ?drop_app_length; cbn [app];
    (split; [reflexivity|]); (split; [reflexivity|]); (split; [reflexivity|]);
    repeat first [apply List.Forall_nil | apply List.Forall_cons; [intros ?; discriminate|]].
Qed.

Lemma purge_then_start_witness :
  wallets (snd (initData Sample.cloudEnv (snd (handlePurge true Sample.cloudEnv Sample.twoCopies))))
  = [].
Proof.
  refine (proj1 (purge_then_start Sample.cloudEnv Sample.cloudEnv Sample.twoCopies
                   eq_refl _ _)); intros tr; reflexivity.
Defined.




(** ** Local mode *)

Lemma quiet_refl (w : World) : quiet w w.
Proof.
  split; [reflexivity|]. split; [reflexivity|].
  exists []. split; [symmetry; apply app_nil_r | constructor].
Qed.

Lemma quiet_trans (w1 w2 w3 : World) : quiet w1 w2 -> quiet w2 w3 -> quiet w1 w3.
Proof.
  intros (Hw & Hl & evs & Ht & Hevs) (Hw' & Hl' & evs' & Ht' & Hevs').
  split; [congruence|]. split; [congruence|].
  exists (evs ++ evs'). split.
  - rewrite Ht', Ht. symmetry. apply app_assoc.
  - apply Forall_app. split; assumption.
Qed.

Lemma quiet_step (w w' : World) (evs : list Event) :
  store w' = store w -> trace w' = trace w ++ evs ->
  Forall (fun e => isRemote e = false) evs -> quiet w w'.
Proof.
  intros Hs Ht Hevs. unfold quiet. rewrite Hs. split; [reflexivity|].
  split; [reflexivity|]. exists evs. split; assumption.
Qed.

Lemma quiet_local (f : Store -> Store) (e : Event) (w : World) :
  (forall s, remoteWallets (f s) = remoteWallets s /\ remoteLast (f s) = remoteLast s) ->
  isRemote e = false -> quiet w (logEvent e (setStore f w)).
Proof.
  intros Hf He. destruct (Hf (store w)) as [Hw Hl].
  split; [exact Hw|]. split; [exact Hl|].
  exists [e]. split; [reflexivity|]. constructor; [exact He|constructor].
Qed.

Lemma quietM_ret {A} (a : A) : quietM (ret a).
Proof. intros w. apply quiet_refl. Qed.

Lemma quietM_bind {A B} (m : M A) (k : A -> M B) :
  quietM m -> (forall a, quietM (k a)) -> quietM (bind m k).
Proof.
  intros Hm Hk w. unfold bind. specialize (Hm w).
  destruct (m w) as [[a|] w1]; [|exact Hm].
  exact (quiet_trans _ _ _ Hm (Hk a w1)).
Qed.

Lemma quietM_try_catch {A} (m h : M A) : quietM m -> quietM h -> quietM (try_catch m h).
Proof.
  intros Hm Hh w. unfold try_catch. specialize (Hm w).
  destruct (m w) as [[a|] w1]; [exact Hm|].
  exact (quiet_trans _ _ _ Hm (Hh w1)).
Qed.

Lemma quietM_finally {A} (m : M A) (f : World -> World) :
  quietM m -> (forall w, quiet w (f w)) -> quietM (finally m f).
Proof.
  intros Hm Hf w. unfold finally. specialize (Hm w).
  destruct (m w) as [r w1]. exact (quiet_trans _ _ _ Hm (Hf w1)).
Qed.

Lemma quietM_modify (f : World -> World) : (forall w, quiet w (f w)) -> quietM (modify f).
Proof. intros Hf w. apply Hf. Qed.

Lemma quietM_gets {A} (f : World -> A) : quietM (gets f).
Proof. intros w. apply quiet_refl. Qed.

Lemma quiet_setIsLoading (b : bool) (w : World) : quiet w (setIsLoading b w).
Proof. apply (quiet_step _ _ []); [reflexivity | symmetry; apply app_nil_r | constructor]. Qed.

Lemma quietM_setWallets (ws : list WalletData) : quietM (setWallets ws).
Proof.
  intros w. apply (quiet_step _ _ []); [reflexivity | symmetry; apply app_nil_r | constructor].
Qed.

Lemma quietM_setLastUpdate (s : option string) : quietM (setLastUpdate s).
Proof.
  intros w. apply (quiet_step _ _ []); [reflexivity | symmetry; apply app_nil_r | constructor].
Qed.

Lemma quietM_alert (msg : string) : quietM (alert msg).
Proof.
  intros w. apply (quiet_step _ _ [Alert msg]); [reflexivity | reflexivity |].
  constructor; [reflexivity|constructor].
Qed.

Lemma quietM_fetchBlockNumber (env : Env) : quietM (fetchBlockNumber env).
Proof.
  intros w. apply (quiet_step _ _ [GetBlockNumber]); [reflexivity | reflexivity |].
  constructor; [reflexivity|constructor].
Qed.

Lemma quietM_fetchBalancesBatch (env : Env) (addresses : list string) :
  quietM (fetchBalancesBatch env addresses).
Proof.
  intros w. destruct (fetch_frame env addresses w) as [n Hn]. rewrite Hn.
  apply (quiet_step _ _ (map Aggregate3 (take n (chunks (map balanceOfCall addresses)))));
    [reflexivity | reflexivity |].
  apply List.Forall_forall. intros e He. apply in_map_iff in He as (c & <- & _). reflexivity.
Qed.

Lemma quietM_saveWallets (env : Env) (ws : list WalletData) :
  supabase env = false -> quietM (saveWallets env ws).
Proof.
  intros Hsup w. unfold saveWallets, bind, localSetWallets, modify, ret.
  rewrite Hsup. cbn [fst snd]. apply quiet_local; [intros s; split; reflexivity | reflexivity].
Qed.

Lemma quietM_setLastUpdateTime (env : Env) (iso : string) :
  supabase env = false -> quietM (setLastUpdateTime env iso).
Proof.
  intros Hsup w. unfold setLastUpdateTime, bind, localSetLast, modify, ret.
  rewrite Hsup. cbn [fst snd]. apply quiet_local; [intros s; split; reflexivity | reflexivity].
Qed.

Lemma quietM_getWallets (env : Env) : supabase env = false -> quietM (getWallets env).
Proof.
  intros Hsup w. unfold getWallets, bind, localGetWallets, gets, ret.
  rewrite Hsup. cbn [fst snd]. apply quiet_refl.
Qed.

Lemma quietM_getLastUpdateTime (env : Env) :
  supabase env = false -> quietM (getLastUpdateTime env).
Proof.
  intros Hsup w. unfold getLastUpdateTime, localGetLast, gets.
  rewrite Hsup. cbn [fst snd]. apply quiet_refl.
Qed.

Lemma quietM_handleSyncBalances (env : Env) (ws : list WalletData) :
  supabase env = false -> quietM (handleSyncBalances env ws).
Proof.
  intros Hsup. unfold handleSyncBalances. case_bool_decide; [apply quietM_ret|].
  apply quietM_bind; [apply quietM_modify, quiet_setIsLoading|]. intros _.
  apply quietM_finally; [|apply quiet_setIsLoading].
  apply quietM_try_catch; [|apply quietM_alert].
  apply quietM_bind; [apply quietM_fetchBalancesBatch|]. intros balancesMap.
  apply quietM_bind; [apply quietM_setWallets|]. intros _.
  apply quietM_bind; [apply quietM_saveWallets, Hsup|]. intros _.
  apply quietM_bind; [apply quietM_setLastUpdate|]. intros _.
  apply quietM_setLastUpdateTime, Hsup.
Qed.

Lemma quietM_handleUploadAddresses (env : Env) (entries : list Entry) :
  supabase env = false -> quietM (handleUploadAddresses env entries).
Proof.
  intros Hsup. unfold handleUploadAddresses.
  apply quietM_bind; [apply quietM_gets|]. intros ws.
  apply quietM_bind; [apply quietM_modify, quiet_setIsLoading|]. intros _.
  apply quietM_finally; [|apply quiet_setIsLoading].
  apply quietM_try_catch; [|apply quietM_alert].
  apply quietM_bind; [apply quietM_fetchBlockNumber|]. intros currentBlock.
  apply quietM_bind; [apply quietM_fetchBalancesBatch|]. intros balancesMap.
  apply quietM_bind; [apply quietM_setWallets|]. intros _.
  apply quietM_bind; [apply quietM_saveWallets, Hsup|]. intros _.
  apply quietM_bind; [apply quietM_setLastUpdate|]. intros _.
  apply quietM_setLastUpdateTime, Hsup.
Qed.

Lemma quietM_act (a : Action) : supabase (actionEnv a) = false -> quietM (act a).
Proof.
  destruct a as [env|env entries|confirmed env addr|confirmed env]; cbn [actionEnv act];
    intros Hsup.
  - apply quietM_bind; [apply quietM_gets|]. intros ws. apply quietM_handleSyncBalances, Hsup.
  - apply quietM_handleUploadAddresses, Hsup.
  - unfold handleDeleteWallet. apply quietM_bind; [apply quietM_gets|]. intros ws.
    destruct confirmed; cbn [negb]; [|apply quietM_ret].
    apply quietM_bind; [apply quietM_setWallets|]. intros _. apply quietM_saveWallets, Hsup.
  - unfold handlePurge. destruct confirmed; [|apply quietM_ret].
    apply quietM_bind; [apply quietM_setWallets|]. intros _.
    apply quietM_bind; [apply quietM_saveWallets, Hsup|]. intros _.
    apply quietM_bind; [apply quietM_setLastUpdate|]. intros _.
    apply quietM_setLastUpdateTime, Hsup.
Qed.

(** X17. With no remote store configured, the start-up effect and whatever
    session of refreshes, uploads, deletes and purges follows never send a
    request to the remote store, whatever the aggregator answers: the events
    they add to the trace are local or on-chain ones, and the remote rows
    stay as they were. *)
Theorem local_mode_never_remote (env : Env) (acts : list Action) (w : World) :
  supabase env = false ->
  Forall (fun a => supabase (actionEnv a) = false) acts ->
  quiet w (session acts (snd (initData env w))).
Proof.
  intros Hsup Hacts.
  assert (Hinit : quiet w (snd (initData env w))).
  { revert w. change (quietM (initData env)). unfold initData.
    apply quietM_bind; [apply quietM_getWallets, Hsup|]. intros loaded.
    apply quietM_bind; [apply quietM_setWallets|]. intros _.
    apply quietM_bind; [apply quietM_getLastUpdateTime, Hsup|]. intros last.
    apply quietM_bind; [apply quietM_setLastUpdate|]. intros _.
    destruct (autoSyncDue env last); [apply quietM_handleSyncBalances, Hsup|apply quietM_ret]. }
  apply (quiet_trans _ _ _ Hinit). clear Hinit.
  generalize (snd (initData env w)). clear w.
  induction Hacts as [|a acts Ha _ IH]; intros w; cbn [session]; [apply quiet_refl|].
  exact (quiet_trans _ _ _ (quietM_act a Ha w) (IH _)).
Qed.

Lemma local_mode_never_remote_witness :
  quiet Sample.cachedStale
    (session [Upload Sample.localEnv [mkEntry Sample.addrA "desk"];
              Delete true Sample.localEnv Sample.addrA;
              SyncNow Sample.localEnv;
              Purge true Sample.localEnv]
       (snd (initData Sample.localEnv Sample.cachedStale))).
Proof.
  apply (local_mode_never_remote Sample.localEnv); [reflexivity|].
  repeat constructor.
Defined.

Import Text.

(** ** The address parser of the admin panel *)

Import Admin.

Lemma chars_text (l : list ascii) : chars (text l) = l.
Proof. apply list_ascii_of_string_of_list_ascii. Qed.

Lemma text_chars (s : string) : text (chars s) = s.
Proof. apply string_of_list_ascii_of_string. Qed.

Lemma text_length (l : list ascii) : String.length (text l) = length l.
Proof. unfold text. induction l as [|x l IH]; cbn; [reflexivity|]. f_equal. exact IH. Qed.

Lemma chars_append (s t : string) : chars (String.append s t) = chars s ++ chars t.
Proof.
  unfold chars. induction s as [|c s IH]; simpl; [reflexivity|]. f_equal. exact IH.
Qed.

Lemma trimStart_split (l : list ascii) :
  exists ws, l = ws ++ trimStart l /\ forallb isWhite ws = true.
Proof.
  induction l as [|c r (ws & Hr & Hws)]; [exists []; split; reflexivity|].
  cbn [trimStart]. destruct (isWhite c) eqn:Hc.
  - exists (c :: ws). split; [cbn; f_equal; exact Hr|]. cbn. rewrite Hc. exact Hws.
  - exists []. split; reflexivity.
Qed.

Lemma trimStart_black (l : list ascii) : startsBlack (trimStart l).
Proof.
  induction l as [|c r IH]; cbn; [exact I|].
  destruct (isWhite c) eqn:Hc; [exact IH|exact Hc].
Qed.

Lemma trimStart_id (l : list ascii) : startsBlack l -> trimStart l = l.
Proof. destruct l as [|c r]; cbn; [reflexivity|]. intros ->. reflexivity. Qed.

Lemma trimStart_fixed (l : list ascii) : trimStart l = l -> startsBlack l.
Proof. intros H. rewrite <- H. apply trimStart_black. Qed.

Lemma trimEnd_split (l : list ascii) :
  exists ws, l = trimEnd l ++ ws /\ forallb isWhite ws = true.
Proof.
  destruct (trimStart_split (rev l)) as (ws & Hl & Hws).
  exists (rev ws). split.
  - unfold trimEnd. rewrite <- rev_app_distr, <- Hl. symmetry. apply rev_involutive.
  - rewrite forallb_forall in *. intros c Hc. apply Hws. apply in_rev. exact Hc.
Qed.

Lemma trimEnd_trimEnd (l : list ascii) : trimEnd (trimEnd l) = trimEnd l.
Proof.
  unfold trimEnd. rewrite rev_involutive.
  rewrite (trimStart_id (trimStart (rev l))); [reflexivity|apply trimStart_black].
Qed.

Lemma trimEnd_black (l : list ascii) : startsBlack l -> startsBlack (trimEnd l).
Proof.
  destruct (trimEnd_split l) as (ws & Hl & _).
  destruct (trimEnd l) as [|c r]; [intros _; exact I|].
  rewrite Hl. cbn. auto.
Qed.

Lemma trim_trim (l : list ascii) : trim (trim l) = trim l.
Proof.
  unfold trim.
  rewrite (trimStart_id (trimEnd (trimStart l)));
    [apply trimEnd_trimEnd | apply trimEnd_black, trimStart_black].
Qed.

Lemma trimStart_incl (l : list ascii) (c : ascii) : c ∈ trimStart l -> c ∈ l.
Proof.
  destruct (trimStart_split l) as (ws & Hl & _). intros Hc. rewrite Hl.
  apply elem_of_app. right. exact Hc.
Qed.

Lemma trimEnd_incl (l : list ascii) (c : ascii) : c ∈ trimEnd l -> c ∈ l.
Proof.
  destruct (trimEnd_split l) as (ws & Hl & _). intros Hc. rewrite Hl.
  apply elem_of_app. left. exact Hc.
Qed.

Lemma trim_incl (l : list ascii) (c : ascii) : c ∈ trim l -> c ∈ l.
Proof. intros Hc. apply trimStart_incl, trimEnd_incl. exact Hc. Qed.

Lemma matchHere_inv (l a : list ascii) :
  matchHere l = Some a ->
  exists digits, a = "0"%char :: "x"%char :: digits /\ digits = take 40 (drop 2 l) /\
                 length digits = 40%nat /\ forallb isHex digits = true.
Proof.
  destruct l as [|c0 [|c1 r]]; [discriminate..|]. cbn [matchHere].
  destruct (Ascii.eqb c0 "0") eqn:H0; [|discriminate].
  destruct (Ascii.eqb c1 "x") eqn:H1; [|discriminate].
  destruct (length (take 40 r) =? 40)%nat eqn:Hlen; [|discriminate].
  destruct (forallb isHex (take 40 r)) eqn:Hhex; [|discriminate].
  cbn. intros [= <-]. apply Ascii.eqb_eq in H0, H1. subst c0 c1.
  exists (take 40 r). repeat split; [|exact Hhex]. apply Nat.eqb_eq. exact Hlen.
Qed.

Lemma matchHere_wellFormed (l a : list ascii) : matchHere l = Some a -> wellFormed a.
Proof.
  intros H. apply matchHere_inv in H as (digits & -> & _ & Hlen & Hhex).
  unfold wellFormed, matchHere.
  rewrite (take_ge digits 40) by lia. rewrite Hlen, Hhex. reflexivity.
Qed.

Lemma firstMatch_wellFormed (l a : list ascii) : firstMatch l = Some a -> wellFormed a.
Proof.
  induction l as [|c r IH]; cbn [firstMatch].
  - destruct (matchHere []) eqn:Hm; [|discriminate]. intros [= <-].
    exact (matchHere_wellFormed _ _ Hm).
  - destruct (matchHere (c :: r)) eqn:Hm; [|exact IH]. intros [= <-].
    exact (matchHere_wellFormed _ _ Hm).
Qed.

Lemma removeCommas_no_comma (l : list ascii) : ","%char ∉ removeCommas l.
Proof.
  assert (H : forall n l, (length l <= n)%nat -> ","%char ∉ removeCommas l).
  { clear l. induction n as [|n IH]; intros l Hn.
    - destruct l; [|cbn in Hn; lia]. cbn. apply not_elem_of_nil.
    - destruct l as [|c r]; [cbn; apply not_elem_of_nil|]. cbn in Hn.
      cbn [removeCommas]. destruct (Ascii.eqb c ",") eqn:Hc; [apply IH; lia|].
      apply Ascii.eqb_neq in Hc.
      destruct r as [|d r'].
      + intros Hin. apply list_elem_of_singleton in Hin. congruence.
      + destruct (classLetter c d).
        * apply IH. cbn in Hn. lia.
        * apply not_elem_of_cons. split; [congruence|]. apply IH. lia. }
  exact (H (length l) l (le_n _)).
Qed.

(** X18. Whatever is pasted, every entry that the panel hands to the upload
    has an address of [0x] and forty hexadecimal digits, 42 characters, and
    a label that is trimmed and free of commas. *)
Theorem parsed_entries_clean (inputText : string) (e : Entry) :
  e ∈ parsedData inputText ->
  wellFormed (chars (entryAddress e)) /\
  String.length (entryAddress e) = 42%nat /\
  (","%char ∉ chars (label e)) /\
  trim (chars (label e)) = chars (label e).
Proof.
  unfold parsedData. intros He. apply list_elem_of_omap in He as (line & _ & Hline).
  unfold parseLine in Hline. destruct (trim line) as [|c r] eqn:Htrim; [discriminate|].
  destruct (firstMatch (c :: r)) as [a|] eqn:Hm; [|discriminate].
  injection Hline as <-. cbn [entryAddress label]. rewrite !chars_text.
  pose proof (firstMatch_wellFormed _ _ Hm) as Hwf. split; [exact Hwf|]. split.
  - pose proof Hwf as Hshape.
    apply matchHere_inv in Hshape as (digits & Ha & _ & Hlen & _).
    rewrite text_length, Ha. cbn [length]. rewrite Hlen. reflexivity.
  - split; [|apply trim_trim].
    intros Hin. apply trim_incl in Hin. exact (removeCommas_no_comma _ Hin).
Qed.

Lemma parsed_entries_clean_witness :
  String.length
    (entryAddress
       (mkEntry "0x8f3Cf7ad23Cd3CaDbD9735AFf958023239c6A063" "Treasury")) = 42%nat.
Proof.
  refine (proj1 (proj2 (parsed_entries_clean
    "  Treasury, 0x8f3Cf7ad23Cd3CaDbD9735AFf958023239c6A063 , " _ _))).
  vm_compute. left.
Defined.
Lemma split_nonempty (sep : ascii) (l : list ascii) : split sep l <> [].
Proof.
  induction l as [|c r IH]; cbn; [discriminate|].
  destruct (Ascii.eqb c sep); [discriminate|].
  destruct (split sep r); discriminate.
Qed.

Lemma split_plain (sep : ascii) (l : list ascii) : sep ∉ l -> split sep l = [l].
Proof.
  induction l as [|c r IH]; intros Hsep; cbn; [reflexivity|].
  apply not_elem_of_cons in Hsep as [Hc Hr].
  destruct (Ascii.eqb c sep) eqn:He; [apply Ascii.eqb_eq in He; congruence|].
  rewrite (IH Hr). reflexivity.
Qed.

Lemma split_app (sep : ascii) (l r : list ascii) :
  sep ∉ l -> split sep (l ++ sep :: r) = l :: split sep r.
Proof.
  induction l as [|c l IH]; intros Hsep; cbn.
  - rewrite Ascii.eqb_refl. reflexivity.
  - apply not_elem_of_cons in Hsep as [Hc Hl].
    destruct (Ascii.eqb c sep) eqn:He; [apply Ascii.eqb_eq in He; congruence|].
    rewrite (IH Hl). reflexivity.
Qed.

Lemma split_concat (ss : list string) :
  ss <> [] -> Forall (fun s => "010"%char ∉ chars s) ss ->
  split "010"%char (chars (String.concat lineFeed ss)) = map chars ss.
Proof.
  induction ss as [|s ss IH]; [congruence|]. intros _ Hall.
  apply Forall_cons in Hall as [Hs Hss]. destruct ss as [|t ss].
  - cbn. apply split_plain, Hs.
  - change (String.concat lineFeed (s :: t :: ss))
      with (String.append s (String.append lineFeed (String.concat lineFeed (t :: ss)))).
    rewrite !chars_append. change (chars lineFeed) with ["010"%char]. cbn [app].
    rewrite (split_app _ _ _ Hs). rewrite IH by (congruence || exact Hss). reflexivity.
Qed.

Lemma trimStart_length (l : list ascii) : (length (trimStart l) <= length l)%nat.
Proof.
  destruct (trimStart_split l) as (ws & Hl & _). rewrite Hl at 2. rewrite length_app. lia.
Qed.

Lemma trim_fixed (l : list ascii) : trim l = l -> startsBlack l /\ startsBlack (rev l).
Proof.
  intros H. unfold trim in H.
  destruct (trimStart_split l) as (ws & Hl & _).
  destruct (trimEnd_split (trimStart l)) as (ws' & Hl' & _).
  assert (Hlen : length (trimStart l) = length l).
  { pose proof (trimStart_length l) as H1.
    apply (f_equal (@length _)) in Hl'. rewrite length_app, H in Hl'. lia. }
  assert (Hs : trimStart l = l).
  { apply (f_equal (@length _)) in Hl as Hn. rewrite length_app, Hlen in Hn.
    destruct ws; [symmetry; exact Hl|cbn in Hn; lia]. }
  split; [apply trimStart_fixed, Hs|].
  rewrite Hs in H. unfold trimEnd in H. apply trimStart_fixed.
  rewrite <- H at 2. rewrite rev_involutive. reflexivity.
Qed.

Lemma startsBlack_app (l r : list ascii) : l <> [] -> startsBlack l -> startsBlack (l ++ r).
Proof. destruct l; [congruence|]. intros _ H. exact H. Qed.

Lemma trim_black (l : list ascii) : startsBlack l -> startsBlack (rev l) -> trim l = l.
Proof.
  intros Hs He. unfold trim, trimEnd. rewrite (trimStart_id l Hs), (trimStart_id (rev l) He).
  apply rev_involutive.
Qed.

Lemma matchHere_take (l : list ascii) : matchHere l = matchHere (take 42 l).
Proof.
  destruct l as [|c0 [|c1 r]]; [reflexivity..|].
  change (take 42 (c0 :: c1 :: r)) with (c0 :: c1 :: take 40 r).
  cbn [matchHere]. rewrite take_take. reflexivity.
Qed.

Lemma matchHere_shape (l a : list ascii) :
  matchHere l = Some a ->
  take 42 l = a /\ length a = 42%nat /\
  forall i c, a !! i = Some c -> isHex c = true \/ c = "x"%char.
Proof.
  intros H. pose proof H as Hinv. apply matchHere_inv in Hinv as (digits & Ha & Hd & Hlen & Hhex).
  destruct l as [|c0 [|c1 r]]; [discriminate..|].
  cbn [matchHere] in H. destruct (_ && _); [|discriminate]. injection H as H.
  split; [exact H|]. split; [rewrite Ha; cbn; rewrite Hlen; reflexivity|].
  intros i c Hi. rewrite Ha in Hi.
  destruct i as [|[|i]]; cbn in Hi.
  - injection Hi as <-. left. reflexivity.
  - injection Hi as <-. right. reflexivity.
  - left. rewrite forallb_forall in Hhex. apply Hhex.
    apply list_elem_of_In. eapply list_elem_of_lookup_2. exact Hi.
Qed.

Lemma matchHere_before (sfx rest a : list ascii) (c : ascii) :
  isHex c = false -> c <> "x"%char ->
  matchHere (sfx ++ c :: rest) = Some a -> matchHere sfx = Some a.
Proof.
  intros Hhex Hx H.
  destruct (decide (42 <= length sfx)%nat) as [Hlong|Hshort].
  - rewrite matchHere_take, take_app_le in H by lia. rewrite matchHere_take. exact H.
  - apply matchHere_shape in H as (Htake & _ & Hchars). exfalso.
    destruct (Hchars (length sfx) c) as [Hc|Hc]; [|congruence|congruence].
    rewrite <- Htake. rewrite lookup_take_lt by lia.
    rewrite lookup_app_r by lia. rewrite Nat.sub_diag. reflexivity.
Qed.

Lemma firstMatch_here (l a : list ascii) : matchHere l = Some a -> firstMatch l = Some a.
Proof. intros H. destruct l; cbn [firstMatch]; rewrite H; reflexivity. Qed.

Lemma firstMatch_none (c : ascii) (r : list ascii) :
  firstMatch (c :: r) = None -> matchHere (c :: r) = None /\ firstMatch r = None.
Proof.
  cbn [firstMatch]. destruct (matchHere (c :: r)); [discriminate|]. intros H. split; [reflexivity|exact H].
Qed.

Lemma firstMatch_before (lbl rest : list ascii) (c : ascii) :
  isHex c = false -> c <> "x"%char -> firstMatch lbl = None ->
  firstMatch (lbl ++ c :: rest) = firstMatch (c :: rest).
Proof.
  intros Hhex Hx. induction lbl as [|d r IH]; intros Hnone; [reflexivity|].
  apply firstMatch_none in Hnone as [Hm Hr].
  change ((d :: r) ++ c :: rest) with (d :: (r ++ c :: rest)). cbn [firstMatch].
  destruct (matchHere (d :: r ++ c :: rest)) as [a|] eqn:Hhere.
  - change (d :: r ++ c :: rest) with ((d :: r) ++ c :: rest) in Hhere.
    apply matchHere_before in Hhere; [congruence|assumption..].
  - apply IH, Hr.
Qed.

Lemma startsWithChars_app (p l : list ascii) :
  startsWithChars p l = true -> l = p ++ drop (length p) l.
Proof.
  revert l. induction p as [|c p IH]; intros l H; [reflexivity|].
  destruct l as [|d l]; [discriminate|]. cbn in H.
  apply andb_true_iff in H as [Hc Hp]. apply Ascii.eqb_eq in Hc. subst d.
  cbn. f_equal. apply IH, Hp.
Qed.

Lemma startsWithChars_refl (p r : list ascii) : startsWithChars p (p ++ r) = true.
Proof. induction p as [|c p IH]; [reflexivity|]. cbn. rewrite Ascii.eqb_refl. exact IH. Qed.

Lemma startsWith_match (a l : list ascii) :
  wellFormed a -> startsWithChars a l = true -> matchHere l = Some a.
Proof.
  intros Hwf H. apply startsWithChars_app in H.
  pose proof (matchHere_shape _ _ Hwf) as (_ & Hlen & _).
  rewrite matchHere_take, H, take_app_le by lia.
  rewrite take_ge by lia. exact Hwf.
Qed.

Lemma removeFirst_here (p l : list ascii) :
  startsWithChars p l = true -> removeFirst p l = drop (length p) l.
Proof. intros H. destruct l; cbn [removeFirst]; rewrite H; reflexivity. Qed.

Lemma removeFirst_skip (p r : list ascii) (c : ascii) :
  startsWithChars p (c :: r) = false -> removeFirst p (c :: r) = c :: removeFirst p r.
Proof. intros H. cbn [removeFirst]. rewrite H. reflexivity. Qed.

Lemma removeFirst_before (a lbl rest : list ascii) (c : ascii) :
  wellFormed a -> isHex c = false -> c <> "x"%char -> firstMatch lbl = None ->
  removeFirst a (lbl ++ c :: rest) = lbl ++ removeFirst a (c :: rest).
Proof.
  intros Hwf Hhex Hx. induction lbl as [|d r IH]; intros Hnone; [reflexivity|].
  apply firstMatch_none in Hnone as [Hm Hr].
  change ((d :: r) ++ c :: rest) with (d :: (r ++ c :: rest)).
  rewrite removeFirst_skip.
  - cbn [app]. f_equal. apply IH, Hr.
  - destruct (startsWithChars a (d :: r ++ c :: rest)) eqn:Hs; [|reflexivity].
    apply (startsWith_match a _ Hwf) in Hs.
    change (d :: r ++ c :: rest) with ((d :: r) ++ c :: rest) in Hs.
    apply matchHere_before in Hs; [congruence|assumption..].
Qed.

Lemma hex_black (c : ascii) :
  isHex c = true \/ c = "x"%char ->
  isWhite c = false /\ c <> ","%char /\ c <> "010"%char /\ c <> " "%char.
Proof.
  intros [H| ->]; [|repeat split; discriminate].
  destruct c as [[] [] [] [] [] [] [] []]; vm_compute in H; try discriminate H;
    repeat split; discriminate.
Qed.

Lemma wellFormed_black (a : list ascii) :
  wellFormed a ->
  a <> [] /\ startsBlack a /\ startsBlack (rev a) /\ ("010"%char ∉ a) /\
  exists r, a = "0"%char :: r.
Proof.
  intros Hwf. pose proof (matchHere_shape _ _ Hwf) as (_ & Hlen & Hchars).
  pose proof (matchHere_inv _ _ Hwf) as (digits & Ha & _).
  assert (Hall : forall c, c ∈ a -> isHex c = true \/ c = "x"%char).
  { intros c Hc. apply list_elem_of_lookup in Hc as [i Hi]. exact (Hchars i c Hi). }
  split; [rewrite Ha; discriminate|]. split; [rewrite Ha; reflexivity|]. split; [|split].
  - destruct (rev a) as [|c r] eqn:Hrev; [exact I|]. cbn.
    apply hex_black, Hall. apply list_elem_of_In, in_rev. rewrite Hrev. left. reflexivity.
  - intros Hin. apply Hall, hex_black in Hin. tauto.
  - exists ("x"%char :: digits). exact Ha.
Qed.

Lemma classLetter_ascii (c d : ascii) : isAscii c = true -> classLetter c d = false.
Proof.
  unfold isAscii, classLetter. intros H. apply Nat.ltb_lt in H.
  destruct (Nat.eqb_spec (nat_of_ascii c) 195); [lia|].
  destruct (Nat.eqb_spec (nat_of_ascii c) 194); [lia|].
  destruct (Nat.eqb_spec (nat_of_ascii c) 197); [lia|]. reflexivity.
Qed.

(** On ASCII text only the commas go. *)
Lemma removeCommas_ascii (l : list ascii) :
  forallb isAscii l = true ->
  removeCommas l = List.filter (fun c => negb (Ascii.eqb c ","%char)) l.
Proof.
  induction l as [|c r IH]; intros H; [reflexivity|].
  cbn [forallb] in H. apply andb_true_iff in H as [Hc Hr].
  cbn [removeCommas List.filter]. destruct (Ascii.eqb c ","); cbn [negb]; [apply IH, Hr|].
  destruct r as [|d r']; [reflexivity|].
  rewrite (classLetter_ascii c d Hc). f_equal. apply IH, Hr.
Qed.

Lemma filter_commas_plain (l : list ascii) :
  ","%char ∉ l -> List.filter (fun c => negb (Ascii.eqb c ","%char)) l = l.
Proof.
  induction l as [|c r IH]; intros H; [reflexivity|].
  apply not_elem_of_cons in H as [Hc Hr]. cbn.
  destruct (Ascii.eqb c ",") eqn:He; [apply Ascii.eqb_eq in He; congruence|].
  cbn. f_equal. apply IH, Hr.
Qed.

Lemma parseLine_nonblank (line : list ascii) :
  trim line <> [] ->
  parseLine line =
  match firstMatch (trim line) with
  | Some address =>
      Some (mkEntry (text address)
              (text (trim (removeCommas (removeFirst address (trim line))))))
  | None => None
  end.
Proof. intros H. unfold parseLine. destruct (trim line); [congruence|reflexivity]. Qed.

Lemma parseLine_documented (e : Entry) : carried e -> parseLine (chars (documented e)) = Some e.
Proof.
  destruct e as [addr lbl]. unfold carried, documented, plainLabel. cbn [entryAddress label].
  intros (Hwf & Hascii & Htrim & Hcomma & _ & Hnone).
  pose proof (wellFormed_black _ Hwf) as (Hne & Hs & He & _ & tl & Hshape).
  assert (Hself : startsWithChars (chars addr) (chars addr) = true).
  { rewrite <- (app_nil_r (chars addr)) at 2. apply startsWithChars_refl. }
  destruct (String.eqb lbl "") eqn:Hlbl.
  - apply String.eqb_eq in Hlbl. subst lbl.
    rewrite parseLine_nonblank; rewrite (trim_black _ Hs He); [|exact Hne].
    rewrite (firstMatch_here _ _ Hwf), (removeFirst_here _ _ Hself).
    rewrite drop_all. cbn. rewrite text_chars. reflexivity.
  - assert (Hl : chars lbl <> []).
    { intros Hnil. apply (f_equal text) in Hnil. rewrite text_chars in Hnil. subst lbl.
      discriminate Hlbl. }
    apply trim_fixed in Htrim as [Hls Hle].
    rewrite !chars_append. change (chars ", ") with [","%char; " "%char].
    set (a := chars addr) in *. set (l := chars lbl) in *.
    assert (Hline : trim (l ++ [","%char; " "%char] ++ a) = l ++ [","%char; " "%char] ++ a).
    { apply trim_black; [apply startsBlack_app; assumption|].
      rewrite !rev_app_distr, <- app_assoc. apply startsBlack_app; [|exact He].
      intros Hnil. apply (f_equal (@rev _)) in Hnil. rewrite rev_involutive in Hnil.
      exact (Hne Hnil). }
    rewrite parseLine_nonblank; rewrite Hline; [|destruct l; [congruence|discriminate]].
    cbn [app].
    assert (Hfirst : firstMatch (l ++ ","%char :: " "%char :: a) = Some a).
    { rewrite firstMatch_before; [|reflexivity|discriminate|exact Hnone].
      cbn [firstMatch]. change (matchHere (","%char :: " "%char :: a)) with (@None (list ascii)).
      replace (matchHere (" "%char :: a)) with (@None (list ascii))
        by (destruct a as [|? ?]; reflexivity).
      apply firstMatch_here, Hwf. }
    assert (Hrest : removeFirst a (l ++ ","%char :: " "%char :: a) = l ++ [","%char; " "%char]).
    { rewrite removeFirst_before; [|exact Hwf|reflexivity|discriminate|exact Hnone].
      f_equal. rewrite Hshape.
      rewrite removeFirst_skip by reflexivity. rewrite removeFirst_skip by reflexivity.
      rewrite <- Hshape. rewrite (removeFirst_here _ _ Hself), drop_all. reflexivity. }
    rewrite Hfirst, Hrest.
    assert (Hlabel : trim (removeCommas (l ++ [","%char; " "%char])) = l).
    { rewrite removeCommas_ascii
        by (rewrite forallb_app, Hascii; reflexivity).
      rewrite List.filter_app, (filter_commas_plain l Hcomma).
      change (List.filter _ [","%char; " "%char]) with [" "%char].
      unfold trim. rewrite (trimStart_id (l ++ [" "%char])) by (apply startsBlack_app; assumption).
      unfold trimEnd. rewrite rev_app_distr. cbn [rev app].
      change (trimStart (" "%char :: rev l)) with (trimStart (rev l)).
      rewrite (trimStart_id _ Hle). apply rev_involutive. }
    rewrite Hlabel. unfold a, l. rewrite !text_chars. reflexivity.
Qed.

Lemma documented_one_line (e : Entry) : carried e -> "010"%char ∉ chars (documented e).
Proof.
  destruct e as [addr lbl]. unfold carried, documented, plainLabel. cbn [entryAddress label].
  intros (Hwf & _ & _ & _ & Hfeed & _).
  pose proof (wellFormed_black _ Hwf) as (_ & _ & _ & Ha & _).
  destruct (String.eqb lbl ""); [exact Ha|].
  rewrite !chars_append. change (chars ", ") with [","%char; " "%char].
  rewrite !not_elem_of_app. split; [exact Hfeed|]. split; [|exact Ha].
  intros Hin. apply elem_of_cons in Hin as [Hin|Hin]; [discriminate|].
  apply list_elem_of_singleton in Hin. discriminate.
Qed.

(** X19. The panel reads back what the documented format writes: for
    entries with a well-formed address and a plain label (ASCII text,
    trimmed, without comma, line feed or anything matching the address
    pattern), the lines [0xAddress] (empty label) or [Label, 0xAddress], one
    entry a line, parse to exactly these entries, in order. *)
Theorem parse_documented_format (es : list Entry) :
  Forall carried es ->
  parsedData (String.concat lineFeed (map documented es)) = es.
Proof.
  intros Hall. unfold parsedData.
  assert (Hlines : omap parseLine (map chars (map documented es)) = es).
  { induction Hall as [|x xs Hx _ IH]; [reflexivity|].
    cbn -[parseLine chars documented]. rewrite (parseLine_documented x Hx).
    f_equal. exact IH. }
  destruct es as [|e es]; [reflexivity|].
  rewrite split_concat; [exact Hlines|discriminate|].
  apply Forall_fmap. eapply Forall_impl; [exact Hall|]. intros x Hx.
  apply documented_one_line, Hx.
Qed.

Lemma parse_documented_format_witness :
  parsedData
    (String.concat lineFeed
       ["Treasury, 0x8f3Cf7ad23Cd3CaDbD9735AFf958023239c6A063";
        "0xcA11bde05977b3631167028862bE2a173976CA11"])
  = [mkEntry "0x8f3Cf7ad23Cd3CaDbD9735AFf958023239c6A063" "Treasury";
     mkEntry "0xcA11bde05977b3631167028862bE2a173976CA11" ""].
Proof.
  apply (parse_documented_format
           [mkEntry "0x8f3Cf7ad23Cd3CaDbD9735AFf958023239c6A063" "Treasury";
            mkEntry "0xcA11bde05977b3631167028862bE2a173976CA11" ""]).
  repeat constructor; try reflexivity;
    intros Hin; vm_compute in Hin; repeat (inversion Hin as [|? ? ? Hin']; subst; clear Hin; rename Hin' into Hin).
Defined.
(** ** The RPC preference *)

Import Rpc.

Lemma getRpcUrl_truthy (s : RpcState) : truthy (getRpcUrl s) = true.
Proof.
  unfold getRpcUrl. destruct (rpcStored s) as [url|]; [|reflexivity].
  destruct (truthy url) eqn:Hu; [exact Hu|reflexivity].
Qed.

Lemma last_cons_default {A} (d y : A) (l : list A) :
  default d (last (y :: l)) = default y (last l).
Proof. rewrite last_cons. destruct (last l); reflexivity. Qed.

Lemma handleRpcSave_cases (input : string) (s : RpcState) :
  let trimmed := text (trim (chars input)) in
  (truthy trimmed = false /\
   rpcStored (handleRpcSave input s) = rpcStored s /\
   clientUrl (handleRpcSave input s) = clientUrl s /\
   rpcUrl (handleRpcSave input s) = rpcUrl s) \/
  (truthy trimmed = true /\
   rpcStored (handleRpcSave input s) = Some trimmed /\
   clientUrl (handleRpcSave input s) = trimmed /\
   rpcUrl (handleRpcSave input s) = trimmed).
Proof.
  intros trimmed. unfold handleRpcSave. fold trimmed.
  destruct (truthy trimmed) eqn:Ht; cbn [negb]; [right|left; repeat split].
  unfold handleRpcUpdate, reinitializeClient, setRpcUrl, saveRpcUrl, getRpcUrl. cbn.
  rewrite Ht. repeat split.
Qed.

(** X20. However many times the panel saves an RPC URL, the client talks to
    the URL that a reload would read back, and never to an empty one: it is
    the last input that is not blank, trimmed, or the URL of the start when
    every input was blank. *)
Theorem rpc_follows_last_accepted_input (stored : option string) (inputs : list string) :
  let s := fold_left (fun s i => handleRpcSave i s) inputs (loaded stored) in
  clientUrl s = getRpcUrl s /\
  rpcUrl s = clientUrl s /\
  clientUrl s <> "" /\
  clientUrl s = default (getRpcUrl (loaded stored)) (last (accepted inputs)) /\
  getRpcUrl (loaded (rpcStored s)) = clientUrl s.
Proof.
  cbv zeta.
  assert (Hinv : forall s,
            clientUrl s = getRpcUrl s -> rpcUrl s = clientUrl s ->
            let s' := fold_left (fun s i => handleRpcSave i s) inputs s in
            clientUrl s' = getRpcUrl s' /\ rpcUrl s' = clientUrl s' /\
            clientUrl s' = default (clientUrl s) (last (accepted inputs))).
  { induction inputs as [|i inputs IH]; intros s Hc Hr; cbn [fold_left].
    - repeat split; assumption.
    - destruct (handleRpcSave_cases i s) as [(Ht & Hst & Hcl & Hru)|(Ht & Hst & Hcl & Hru)].
      + destruct (IH (handleRpcSave i s)) as (H1 & H2 & H3).
        * rewrite Hcl, Hc. unfold getRpcUrl. rewrite Hst. reflexivity.
        * rewrite Hru, Hcl. exact Hr.
        * split; [exact H1|]. split; [exact H2|]. rewrite H3, Hcl.
          unfold accepted. cbn [map List.filter]. rewrite Ht. reflexivity.
      + destruct (IH (handleRpcSave i s)) as (H1 & H2 & H3).
        * rewrite Hcl. unfold getRpcUrl. rewrite Hst, Ht. reflexivity.
        * rewrite Hru, Hcl. reflexivity.
        * split; [exact H1|]. split; [exact H2|]. rewrite H3, Hcl.
          unfold accepted. cbn [map List.filter]. rewrite Ht.
          fold (accepted inputs). symmetry. apply last_cons_default. }
  destruct (Hinv (loaded stored)) as (H1 & H2 & H3); [reflexivity..|].
  split; [exact H1|]. split; [exact H2|].
  split.
  - rewrite H1. pose proof (getRpcUrl_truthy (fold_left (fun s i => handleRpcSave i s) inputs
                                                (loaded stored))) as Ht.
    intros He. rewrite He in Ht. discriminate Ht.
  - split; [exact H3|]. rewrite H1. reflexivity.
Qed.

(** ** The short form of an address *)

Import Dashboard.

Lemma chars_length (s : string) : length (chars s) = String.length s.
Proof. rewrite <- (text_chars s) at 2. symmetry. apply text_length. Qed.

Lemma text_inj (l1 l2 : list ascii) : text l1 = text l2 -> l1 = l2.
Proof. intros H. apply (f_equal chars) in H. rewrite !chars_text in H. exact H. Qed.

Lemma formatAddress_long (addr : string) :
  (10 <= String.length addr)%nat ->
  formatAddress addr =
  text (take 6 (chars addr) ++ chars "..." ++
        drop (String.length addr - 4) (chars addr)).
Proof.
  intros H. unfold formatAddress. rewrite chars_length.
  destruct (String.length addr <? 10)%nat eqn:Hlt; [apply Nat.ltb_lt in Hlt; lia|reflexivity].
Qed.

(** X21. The short form of an address of ten characters or more has 13
    characters, the first six and the last four of the address around three
    dots, so two such addresses look alike exactly when they agree on these
    ten characters; a shorter address is shown as it is, and shortening
    twice changes nothing more. *)
Theorem formatAddress_shape (addr : string) :
  ((String.length addr < 10)%nat -> formatAddress addr = addr) /\
  ((10 <= String.length addr)%nat -> String.length (formatAddress addr) = 13%nat) /\
  formatAddress (formatAddress addr) = formatAddress addr /\
  (forall other, (10 <= String.length addr)%nat -> (10 <= String.length other)%nat ->
     (formatAddress addr = formatAddress other <->
      take 6 (chars addr) = take 6 (chars other) /\
      drop (String.length addr - 4) (chars addr)
      = drop (String.length other - 4) (chars other))).
Proof.
  assert (Hshort : (String.length addr < 10)%nat -> formatAddress addr = addr).
  { intros H. unfold formatAddress. rewrite chars_length.
    apply Nat.ltb_lt in H. rewrite H. reflexivity. }
  assert (Hlen : forall a, (10 <= String.length a)%nat ->
            length (take 6 (chars a)) = 6%nat /\
            length (drop (String.length a - 4) (chars a)) = 4%nat).
  { intros a H. rewrite length_take, length_drop, chars_length. lia. }
  assert (Hlong : (10 <= String.length addr)%nat -> String.length (formatAddress addr) = 13%nat).
  { intros H. rewrite (formatAddress_long addr H), text_length, !length_app.
    destruct (Hlen addr H) as [-> ->]. reflexivity. }
  split; [exact Hshort|]. split; [exact Hlong|]. split.
  - destruct (decide (String.length addr < 10)%nat) as [H|H].
    + rewrite (Hshort H). exact (Hshort H).
    + assert (H10 : (10 <= String.length addr)%nat) by lia.
      rewrite (formatAddress_long (formatAddress addr)) by (rewrite (Hlong H10); lia).
      rewrite (Hlong H10). rewrite (formatAddress_long addr H10) at 1 2.
      rewrite (formatAddress_long addr H10). rewrite !chars_text. f_equal.
      destruct (Hlen addr H10) as [H6 H4].
      rewrite take_app_le by lia. rewrite take_ge by lia. f_equal.
      rewrite drop_app_ge by lia. rewrite H6.
      change (13 - 4 - 6)%nat with 3%nat.
      rewrite drop_app_ge by (cbn; lia). cbn [chars list_ascii_of_string length].
      rewrite Nat.sub_diag. reflexivity.
  - intros other Ha Hb. rewrite (formatAddress_long addr Ha), (formatAddress_long other Hb).
    destruct (Hlen addr Ha) as [H6 H4]. destruct (Hlen other Hb) as [H6' H4'].
    split.
    + intros H. apply text_inj in H.
      apply app_inj_1 in H as [H1 H2]; [|congruence].
      apply app_inv_head in H2. split; assumption.
    + intros [H1 H2]. rewrite H1, H2. reflexivity.
Qed.

Lemma formatAddress_shape_witness :
  formatAddress "0x8f3Cf7ad23Cd3CaDbD9735AFf958023239c6A063"
  = formatAddress "0x8f3C000000000000000000000000000000A063".
Proof.
  apply (proj2 (proj2 (proj2 (formatAddress_shape "0x8f3Cf7ad23Cd3CaDbD9735AFf958023239c6A063")))
           "0x8f3C000000000000000000000000000000A063");
    [vm_compute; lia | vm_compute; lia | split; reflexivity].
Defined.
